(** * GROUP BY with SPARQL aggregates (src/engine/GroupBy.cpp)

    A shallow embedding of the GROUP BY operation of the engine: the
    constructor that fixes the output column layout, the parsing of the
    aggregate aliases in [computeResult], the run splitter [doGroupBy] and
    the per-run aggregate kernels of [processGroup], together with the
    cache key [asString] and the sort columns [computeSortColumns].

    Conventions of the embedding:
    - an [Id] is a 64-bit unsigned integer, carried as a [Z] in
      [0, 2^64); arithmetic on [size_t] that can wrap is written with
      [wrap64];
    - a C++ [float] is an IEEE-754 binary32 value, carried as a
      [spec_float] with precision 24 and maximal exponent 128; NaN payloads
      and the sign of a NaN are not tracked;
    - an access outside a vector, or through a null pointer, is undefined
      behaviour in C++; the embedding returns [None] there;
    - a thrown exception is an explicit outcome. *)

From Stdlib Require Import ZArith List String Ascii Bool Lia SpecFloat.
From Stdlib Require Import DecimalString.
From stdpp Require Import base option list gmap strings sorting.

Local Open Scope Z_scope.
Set Warnings "-clear-no-such-hyp".

(** ** Identifiers and machine arithmetic *)

Abbreviation Id := Z.

Definition wrap64 (z : Z) : Z := z mod 2 ^ 64.

(** [std::string::npos] is the largest [size_t]. *)
Definition npos : Z := 2 ^ 64 - 1.

(** ** Strings

    [std::string] is a [string]; positions are [size_t] values, with
    [npos] for "not found", exactly as [find] and [rfind] return them. *)

Definition str_size (s : string) : Z := Z.of_nat (String.length s).

(** Position of the first occurrence of the character [c], if any. *)
Fixpoint find_first (c : ascii) (s : string) : option nat :=
  match s with
  | EmptyString => None
  | String a s' =>
      if Ascii.eqb a c then Some 0%nat else S <$> find_first c s'
  end.

(** Position of the last occurrence of the character [c], if any. *)
Fixpoint find_last (c : ascii) (s : string) : option nat :=
  match s with
  | EmptyString => None
  | String a s' =>
      match find_last c s' with
      | Some n => Some (S n)
      | None => if Ascii.eqb a c then Some 0%nat else None
      end
  end.

(** Position of the first occurrence of the string [pat], if any. *)
Fixpoint find_sub (pat s : string) : option nat :=
  if String.prefix pat s then Some 0%nat
  else match s with
       | EmptyString => None
       | String _ s' => S <$> find_sub pat s'
       end.

Definition pos_or_npos (o : option nat) : Z :=
  match o with
  | Some n => Z.of_nat n
  | None => npos
  end.

(** [s.find(c)], [s.rfind(c)] and [s.find(pat)]. *)
Definition str_find (s : string) (c : ascii) : Z := pos_or_npos (find_first c s).
Definition str_rfind (s : string) (c : ascii) : Z := pos_or_npos (find_last c s).
Definition str_find_str (s pat : string) : Z := pos_or_npos (find_sub pat s).

(** [s.substr(pos, count)]: throws [std::out_of_range] ([None]) when
    [pos > s.size()], and otherwise returns the [min(count, size - pos)]
    characters that start at [pos]. *)
Definition str_substr (s : string) (pos count : Z) : option string :=
  if str_size s <? pos then None
  else Some (String.substring (Z.to_nat pos)
                              (Z.to_nat (Z.min count (str_size s - pos))) s).

(** [entity.substr(0, entity.size() - 1)]: position 0 is never out of
    range, so this call cannot throw; on the empty string the count wraps
    to [npos] and the result is empty. *)
Definition float_word (entity : string) : string :=
  String.substring 0
    (Z.to_nat (Z.min (wrap64 (str_size entity - 1)) (str_size entity))) entity.

(** Modelled from the spec: [ad_utility::startsWith] lives in
    util/StringUtils.h, which is not part of the sources at hand; section 6
    of the specification gives it as the prefix test
    [startsWith(string, prefix) -> bool]. *)
Definition startsWith (text prefix : string) : bool := String.prefix prefix text.

Definition char_in (chars : string) (a : ascii) : bool :=
  existsb (Ascii.eqb a) (list_ascii_of_string chars).

Fixpoint lstrip (chars s : string) : string :=
  match s with
  | EmptyString => EmptyString
  | String a s' => if char_in chars a then lstrip chars s' else s
  end.

Fixpoint rstrip (chars s : string) : string :=
  match s with
  | EmptyString => EmptyString
  | String a s' =>
      match rstrip chars s' with
      | EmptyString => if char_in chars a then EmptyString else String a EmptyString
      | r => String a r
      end
  end.

(** Modelled from the spec: [ad_utility::strip] lives in
    util/StringUtils.h, which is not part of the sources at hand; it removes
    the characters of [chars] from both ends of the text. *)
Definition strip (text chars : string) : string := rstrip chars (lstrip chars text).

(** The double quote character, and the blank-or-tab set used with [strip]. *)
Definition dquote : ascii := ascii_of_nat 34.
Definition blank_tab : string := String " "%char (String (ascii_of_nat 9) EmptyString).

(** Decimal rendering of an unsigned integer, as [operator<<] prints a
    [size_t]. *)
Definition decimal (z : Z) : string := NilEmpty.string_of_uint (N.to_uint (Z.to_N z)).

(** ** The data model of the engine

    ResultTable.h, GroupBy.h and ParsedQuery.h are not part of the sources at
    hand; the types below carry exactly the members that GroupBy.cpp reads
    and writes. *)

(** Modelled from the spec: the result types of section 3. *)
Inductive ResultType := KB | VERBATIM | TEXT | FLOAT | STRING | UNDEF.

Inductive AggregateType :=
  AVG | COUNT | GROUP_CONCAT | MAX | MIN | SAMPLE | SUM | FIRST | LAST.

#[global] Instance ResultType_eq_dec : EqDecision ResultType.
Proof. solve_decision. Defined.
#[global] Instance AggregateType_eq_dec : EqDecision AggregateType.
Proof. solve_decision. Defined.

(** [GroupBy::Aggregate]; [_userData] is a pointer to an owned
    [std::string] or null. *)
Record Aggregate := mkAggregate {
  _type : AggregateType;
  _inCol : nat;
  _outCol : nat;
  _userData : option string;
  _distinct : bool
}.

(** [ParsedQuery::Alias]. *)
Record Alias := mkAlias {
  _outVarName : string;
  _function : string;
  _isAggregate : bool
}.

Abbreviation Row := (list Id).

(** [ResultTable]: a null [_fixedSizeData] is [None]. *)
Record ResultTable := mkResultTable {
  _nofColumns : nat;
  _sortedBy : nat;
  _resultTypes : list ResultType;
  _fixedSizeData : option (list Row);
  _varSizeData : list Row;
  _localVocab : list string
}.

(** What the run leaves behind besides the result: the warnings of
    [LOG(WARN)], and the two effects whose absence matters. *)
Inductive Event :=
  | Warn (msg : string)
  | SubtreeGetResult
  | CallDoGroupBy.

(** ** Floats inside Ids

    A [float] is a binary32 value; the kernels convert integers to it, add
    and divide in it, and copy its four bytes into and out of the low half
    of an [Id]. *)

Abbreviation float := spec_float.

Definition fadd (x y : float) : float := SFadd 24 128 x y.
Definition fdiv (x y : float) : float := SFdiv 24 128 x y.
Definition fltb (x y : float) : bool := SFltb x y.

(** Conversion of a [size_t] to [float], to nearest even. *)
Definition float_of_size (z : Z) : float := binary_normalize 24 128 z 0 false.

(** [std::numeric_limits<float>::quiet_NaN()], [max()] and [lowest()]. *)
Definition quiet_NaN : float := S754_nan.
Definition float_max : float := S754_finite false (2 ^ 24 - 1) 104.
Definition float_lowest : float := S754_finite true (2 ^ 24 - 1) 104.

(** Reading the low four bytes of an [Id] as a [float]. Every NaN
    pattern, whatever its sign and payload, reads as the one NaN of
    [spec_float]. *)
Definition float_of_bits (b : Id) : float :=
  let sign := Z.testbit b 31 in
  let ex := Z.land (Z.shiftr b 23) 255 in
  let mant := Z.land b (2 ^ 23 - 1) in
  if ex =? 0 then
    if mant =? 0 then S754_zero sign else S754_finite sign (Z.to_pos mant) (-149)
  else if ex =? 255 then
    if mant =? 0 then S754_infinity sign else S754_nan
  else S754_finite sign (Z.to_pos (mant + 2 ^ 23)) (ex - 150).

(** The four bytes of a [float], as the [Id] that holds them in its low
    half with the high half zero. A NaN is written as the quiet NaN of
    [std::numeric_limits], 0x7FC00000: that is the cell where the kernel has
    assigned [quiet_NaN] itself. A NaN that the additions produce has a sign
    and a payload that [spec_float] does not carry: its cell is outside the
    embedding. *)
Definition bits_of_float (f : float) : Id :=
  let sign_bit (s : bool) := if s then 2 ^ 31 else 0 in
  match f with
  | S754_zero s => sign_bit s
  | S754_infinity s => sign_bit s + Z.shiftl 255 23
  | S754_nan => Z.shiftl 255 23 + 2 ^ 22
  | S754_finite s m e =>
      if Z.pos m <? 2 ^ 23 then sign_bit s + Z.pos m
      else sign_bit s + Z.shiftl (e + 150) 23 + (Z.pos m - 2 ^ 23)
  end.

(** [std::max] and [std::min] on floats and on Ids. *)
Definition float_std_max (a b : float) : float := if fltb a b then b else a.
Definition float_std_min (a b : float) : float := if fltb b a then b else a.
Definition Id_max : Id := 2 ^ 64 - 1.

(** ** External collaborators

    The index, the typed-literal conventions of global/Constants.h and
    util/Conversions.h, and the stream formatting of a float are outside the
    sources at hand; the kernels take them as a capability. *)
Class Externals := {
  idToString : Id -> string;
  getTextExcerpt : Id -> string;
  VALUE_PREFIX : string;
  VALUE_FLOAT_PREFIX : string;
  convertIndexWordToFloatValue : string -> float;
  convertIndexWordToValueLiteral : string -> string;
  floatToString : float -> string;
  ID_NO_VALUE : Id
}.

(** Modelled from the spec: [ResultTable::idToString] is declared in
    ResultTable.h, which is not part of the sources at hand; section 4.5
    gives it as [LocalVocab::get(id)] on the table's local vocabulary. An
    index outside the vocabulary has no value. *)
Definition ResultTable_idToString (t : ResultTable) (id : Id) : option string :=
  _localVocab t !! Z.to_nat id.

(** ** Loops over a run *)

(** The indices of [for (i = lo; i <= hi; i++)] and of
    [for (i = lo; i + 1 <= hi; i++)]. *)
Definition upto (lo hi : nat) : list nat := seq lo (S hi - lo).
Definition before (lo hi : nat) : list nat := seq lo (hi - lo).

(** A loop whose body may [break]: the body returns the new state and
    whether it broke out; [None] is undefined behaviour inside the body. *)
Fixpoint for_each {S : Type} (body : nat -> S -> option (S * bool))
    (idxs : list nat) (s : S) : option S :=
  match idxs with
  | [] => Some s
  | i :: rest =>
      match body i s with
      | None => None
      | Some (s', true) => Some s'
      | Some (s', false) => for_each body rest s'
      end
  end.

(** The read [input[i][c]] of a cell of the input table. *)
Definition cell (input : list Row) (i c : nat) : option Id :=
  input !! i ≫= (λ r : Row, r !! c).

(** [resultRow[c] = v]. *)
Definition set_cell (row : Row) (c : nat) (v : Id) : option Row :=
  if decide (c < length row)%nat then Some (<[c := v]> row) else None.

(** One iteration of a kernel loop over the input column: read the cell
    and apply [step] to it; with [distinct], only when the cell is not in
    the hash set yet, and after inserting it. *)
Definition visit {A : Type} (distinct : bool) (input : list Row) (inCol : nat)
    (step : Id -> A -> option (A * bool))
    (i : nat) (st : A * gset Z) : option ((A * gset Z) * bool) :=
  x ← cell input i inCol;
  if distinct then
    if bool_decide (x ∈ st.2) then Some (st, false)
    else '(acc, brk) ← step x st.1; Some ((acc, {[x]} ∪ st.2), brk)
  else '(acc, brk) ← step x st.1; Some ((acc, st.2), brk).

(** ** The aggregate kernels: [processGroup] *)

Section Kernels.
Context `{E : Externals}.

(** The three ways SUM and AVG add a cell to [res], by input type. The
    vocabulary case breaks out of the loop with NaN when the word is not a
    float literal. *)
Definition add_verbatim (x : Id) (res : float) : option (float * bool) :=
  Some (fadd res (float_of_size x), false).

Definition add_float (x : Id) (res : float) : option (float * bool) :=
  Some (fadd res (float_of_bits x), false).

Definition add_kb (x : Id) (res : float) : option (float * bool) :=
  let entity := idToString x in
  if negb (startsWith entity VALUE_FLOAT_PREFIX) then Some (quiet_NaN, true)
  else Some (fadd res (convertIndexWordToFloatValue (float_word entity)), false).

(** The accumulation shared, line for line, by the SUM and AVG cases: the
    sum and the hash set after it. The hash set is cleared after a distinct
    loop; the TEXT and STRING branch has no loop and leaves it alone. *)
Definition accumulate (a : Aggregate) (blockStart blockEnd : nat)
    (input : list Row) (inputTypes : list ResultType)
    (distinctHashSet : gset Z) : option (float * gset Z) :=
  ty ← inputTypes !! _inCol a;
  let run step :=
    '(res, seen) ← for_each (visit (_distinct a) input (_inCol a) step)
                            (upto blockStart blockEnd)
                            (S754_zero false, distinctHashSet);
    Some (res, if _distinct a then ∅ else seen) in
  match ty with
  | VERBATIM => run add_verbatim
  | FLOAT => run add_float
  | TEXT | STRING => Some (quiet_NaN, distinctHashSet)
  | _ => run add_kb
  end.

(** How GROUP_CONCAT prints a cell, by input type. *)
Definition concat_decode (ty : ResultType) (inTable : ResultTable) (x : Id)
    : option string :=
  match ty with
  | VERBATIM => Some (decimal x)
  | FLOAT => Some (floatToString (float_of_bits x))
  | TEXT => Some (getTextExcerpt x)
  | STRING => ResultTable_idToString inTable x
  | _ =>
      let entity := idToString x in
      Some (if startsWith entity VALUE_PREFIX
            then convertIndexWordToValueLiteral entity else entity)
  end.

(** [out << value << *delim] and [out << value]. *)
Definition emit_delim (a : Aggregate) (ty : ResultType) (inTable : ResultTable)
    (x : Id) (out : string) : option (string * bool) :=
  v ← concat_decode ty inTable x;
  d ← _userData a;
  Some (out +:+ v +:+ d, false).

Definition emit_plain (ty : ResultType) (inTable : ResultTable)
    (x : Id) (out : string) : option string :=
  v ← concat_decode ty inTable x;
  Some (out +:+ v).

(** The string GROUP_CONCAT builds, and the hash set after it. In the
    distinct branches the last row of the run is handled after the loop and
    is printed only when it is not in the hash set; the VERBATIM branch
    prints the delimiter after it as well. *)
Definition group_concat (a : Aggregate) (blockStart blockEnd : nat)
    (input : list Row) (inputTypes : list ResultType) (inTable : ResultTable)
    (distinctHashSet : gset Z) : option (string * gset Z) :=
  ty ← inputTypes !! _inCol a;
  '(out, seen) ← for_each (visit (_distinct a) input (_inCol a)
                                 (emit_delim a ty inTable))
                          (before blockStart blockEnd)
                          (EmptyString, distinctHashSet);
  x ← cell input blockEnd (_inCol a);
  if _distinct a then
    out' ← (if bool_decide (x ∈ seen) then Some out
            else match ty with
                 | VERBATIM => fst <$> emit_delim a ty inTable x out
                 | _ => emit_plain ty inTable x out
                 end);
    Some (out', ∅)
  else
    out' ← emit_plain ty inTable x out;
    Some (out', seen).

(** The loops of MAX and MIN; they never look at the hash set. *)
Definition fold_cells {A : Type} (f : A -> Id -> A) (init : A)
    (blockStart blockEnd : nat) (input : list Row) (inCol : nat) : option A :=
  for_each (λ i res, x ← cell input i inCol; Some (f res x, false))
           (upto blockStart blockEnd) init.

Definition extremum (is_max : bool) (a : Aggregate) (blockStart blockEnd : nat)
    (input : list Row) (inputTypes : list ResultType) : option Id :=
  ty ← inputTypes !! _inCol a;
  match ty with
  | FLOAT =>
      res ← fold_cells (λ res x, if is_max then float_std_max res (float_of_bits x)
                                 else float_std_min res (float_of_bits x))
                       (if is_max then float_lowest else float_max)
                       blockStart blockEnd input (_inCol a);
      Some (bits_of_float res)
  | TEXT | STRING => Some ID_NO_VALUE
  | _ =>
      fold_cells (λ res x, if is_max then Z.max res x else Z.min res x)
                 (if is_max then 0 else Id_max)
                 blockStart blockEnd input (_inCol a)
  end.

(** [processGroup]: one aggregate over the run [blockStart .. blockEnd]
    (both inclusive). It writes one cell of [resultRow], may append to the
    local vocabulary of the output table, and uses the shared hash set. The
    [resize] of the hash set at the top only reserves buckets and is
    omitted. *)
Definition processGroup (a : Aggregate) (blockStart blockEnd : nat)
    (input : list Row) (inputTypes : list ResultType) (resultRow : Row)
    (inTable : ResultTable) (outVocab : list string)
    (distinctHashSet : gset Z) : option (Row * list string * gset Z) :=
  match _type a with
  | AVG =>
      '(res, seen) ← accumulate a blockStart blockEnd input inputTypes distinctHashSet;
      let res := fdiv res (float_of_size
                   (wrap64 (Z.of_nat blockEnd - Z.of_nat blockStart + 1))) in
      row ← set_cell resultRow (_outCol a) (bits_of_float res);
      Some (row, outVocab, seen)
  | COUNT =>
      if _distinct a then
        '(count, _) ← for_each (visit true input (_inCol a)
                                  (λ _ count, Some (wrap64 (count + 1), false)))
                               (upto blockStart blockEnd) (0, distinctHashSet);
        row ← set_cell resultRow (_outCol a) count;
        Some (row, outVocab, ∅)
      else
        row ← set_cell resultRow (_outCol a)
                (wrap64 (Z.of_nat blockEnd - Z.of_nat blockStart + 1));
        Some (row, outVocab, distinctHashSet)
  | GROUP_CONCAT =>
      '(out, seen) ← group_concat a blockStart blockEnd input inputTypes
                                  inTable distinctHashSet;
      row ← set_cell resultRow (_outCol a) (Z.of_nat (length outVocab));
      Some (row, outVocab ++ [out], seen)
  | MAX =>
      res ← extremum true a blockStart blockEnd input inputTypes;
      row ← set_cell resultRow (_outCol a) res;
      Some (row, outVocab, distinctHashSet)
  | MIN =>
      res ← extremum false a blockStart blockEnd input inputTypes;
      row ← set_cell resultRow (_outCol a) res;
      Some (row, outVocab, distinctHashSet)
  | SAMPLE | LAST =>
      x ← cell input blockEnd (_inCol a);
      row ← set_cell resultRow (_outCol a) x;
      Some (row, outVocab, distinctHashSet)
  | SUM =>
      '(res, seen) ← accumulate a blockStart blockEnd input inputTypes distinctHashSet;
      row ← set_cell resultRow (_outCol a) (bits_of_float res);
      Some (row, outVocab, seen)
  | FIRST =>
      x ← cell input blockStart (_inCol a);
      row ← set_cell resultRow (_outCol a) x;
      Some (row, outVocab, distinctHashSet)
  end.

End Kernels.

(** ** The run splitter: [doGroupBy] *)

(** The row type [R] of the output: [array<Id, n>], whose width is fixed
    and which [resizeIfVec] leaves alone, or [vector<Id>], which it resizes.
    A fresh row is value-initialised, so it holds zeros. *)
Inductive RowKind := FixedWidth (n : nat) | VarWidth.

Definition new_row (kind : RowKind) (size : nat) : Row :=
  match kind with
  | FixedWidth n => replicate n 0
  | VarWidth => replicate size 0
  end.

Section Splitter.
Context `{E : Externals}.

(** [for (const Aggregate& a : aggregates) processGroup(a, ...)]: the
    state is the row under construction, the local vocabulary of the output
    and the hash set. *)
Fixpoint processAggregates (aggregates : list Aggregate)
    (blockStart blockEnd : nat) (input : list Row)
    (inputTypes : list ResultType) (inTable : ResultTable)
    (st : Row * list string * gset Z) : option (Row * list string * gset Z) :=
  match aggregates with
  | [] => Some st
  | a :: rest =>
      st' ← processGroup a blockStart blockEnd input inputTypes
                         st.1.1 inTable st.1.2 st.2;
      processAggregates rest blockStart blockEnd input inputTypes inTable st'
  end.

(** Appending the row of one run to the result. *)
Definition emit_run (kind : RowKind) (width : nat) (aggregates : list Aggregate)
    (blockStart blockEnd : nat) (input : list Row)
    (inputTypes : list ResultType) (inTable : ResultTable)
    (st : list Row * list string * gset Z)
    : option (list Row * list string * gset Z) :=
  '(row, vocab, seen) ← processAggregates aggregates blockStart blockEnd input
                          inputTypes inTable (new_row kind width, st.1.2, st.2);
  Some (st.1.1 ++ [row], vocab, seen).

(** Does row [pos] carry the key of the current block? The comparison
    stops at the first column that differs. *)
Fixpoint rowMatchesCurrentBlock (input : list Row) (pos : nat)
    (currentGroupBlock : list (nat * Id)) : option bool :=
  match currentGroupBlock with
  | [] => Some true
  | (col, key) :: rest =>
      x ← cell input pos col;
      if x =? key then rowMatchesCurrentBlock input pos rest else Some false
  end.

(** The key of the block that starts at row [pos]. *)
Definition read_key (input : list Row) (pos : nat) (cols : list nat)
    : option (list (nat * Id)) :=
  mapM (λ col, x ← cell input pos col; Some (col, x)) cols.

(** The state of the main loop: the result rows, the local vocabulary and
    the hash set, the start of the current block and its key. *)
Definition SplitState : Type :=
  (list Row * list string * gset Z) * nat * list (nat * Id).

Definition split_step (kind : RowKind) (groupByCols : list nat)
    (aggregates : list Aggregate) (input : list Row)
    (inputTypes : list ResultType) (inTable : ResultTable)
    (pos : nat) (s : SplitState) : option (SplitState * bool) :=
  let '(st, blockStart, currentGroupBlock) := s in
  matches ← rowMatchesCurrentBlock input pos currentGroupBlock;
  if matches : bool then Some (s, false)
  else
    st' ← emit_run kind (length groupByCols + length aggregates) aggregates
                   blockStart (pos - 1) input inputTypes inTable st;
    key ← read_key input pos (fst <$> currentGroupBlock);
    Some ((st', pos, key), false).

(** [doGroupBy]: the rows appended to [result] and the local vocabulary of
    the output table afterwards. *)
Definition doGroupBy (kind : RowKind) (input : list Row)
    (inputTypes : list ResultType) (groupByCols : list nat)
    (aggregates : list Aggregate) (result : list Row)
    (inTable : ResultTable) (outVocab : list string)
    : option (list Row * list string) :=
  if (length input =? 0)%nat then Some (result, outVocab)
  else
    let distinctHashSet : gset Z := ∅ in
    match groupByCols with
    | [] =>
        (* The entire input is a single group *)
        let blockStart := 0%nat in
        let blockEnd := length input in
        st ← emit_run kind (length aggregates) aggregates blockStart blockEnd
                      input inputTypes inTable (result, outVocab, distinctHashSet);
        Some (st.1.1, st.1.2)
    | _ =>
        currentGroupBlock ← read_key input 0 groupByCols;
        '(st, blockStart, _) ←
          for_each (split_step kind groupByCols aggregates input inputTypes inTable)
                   (seq 1 (length input - 1))
                   ((result, outVocab, distinctHashSet), 0%nat, currentGroupBlock);
        let blockEnd := (length input - 1)%nat in
        st' ← emit_run kind (length groupByCols + length aggregates) aggregates
                       blockStart blockEnd input inputTypes inTable st;
        Some (st'.1.1, st'.1.2)
    end.

(** Functional updates of a [ResultTable]. *)
Definition with_fixed (t : ResultTable) (d : option (list Row)) (v : list string)
    : ResultTable :=
  mkResultTable (_nofColumns t) (_sortedBy t) (_resultTypes t) d (_varSizeData t) v.

Definition with_var (t : ResultTable) (d : list Row) (v : list string)
    : ResultTable :=
  mkResultTable (_nofColumns t) (_sortedBy t) (_resultTypes t) (_fixedSizeData t) d v.

Definition small_width (n : nat) : bool := (1 <=? n)%nat && (n <=? 5)%nat.

(** [callDoGroupBy<1, 1>::call]: one to five columns are stored as
    fixed-size arrays behind [_fixedSizeData], any other width as vectors in
    [_varSizeData]; this holds for the input and for the output. *)
Definition callDoGroupBy (inputColCount resultColCount : nat)
    (subresult : ResultTable) (inputTypes : list ResultType)
    (groupByCols : list nat) (aggregates : list Aggregate)
    (result : ResultTable) : option ResultTable :=
  input ← (if small_width inputColCount then _fixedSizeData subresult
           else Some (_varSizeData subresult));
  if small_width resultColCount then
    r ← doGroupBy (FixedWidth resultColCount) input inputTypes
                  groupByCols aggregates [] subresult (_localVocab result);
    Some (with_fixed result (Some r.1) r.2)
  else
    r ← doGroupBy VarWidth input inputTypes groupByCols aggregates
                  (_varSizeData result) subresult (_localVocab result);
    Some (with_var result r.1 r.2).

End Splitter.

(** ** The constructor: the output column layout *)

(** [std::sort] with the comparator [lt]. The standard fixes no algorithm
    and promises a sorted rearrangement; merge sort stands in for it, and the
    results below use only that its output is sorted and a permutation of
    its input. Elements that the comparator does not tell apart may come
    out of [std::sort] in another order than here: a result that depends on
    that order is stated for every sorted rearrangement. *)
Definition std_sort {A : Type} (lt : A -> A -> bool) (l : list A) : list A :=
  merge_sort (λ x y, negb (lt y x)) l.

(** [operator<] on [std::string]: lexicographic on the bytes. *)
Definition string_lt (s1 s2 : string) : bool := String.ltb s1 s2.

Definition alias_lt (a1 a2 : Alias) : bool :=
  string_lt (_outVarName a1) (_outVarName a2).

(** [_varColMap[name] = colIndex; colIndex++] for each name in turn. *)
Fixpoint assign_columns (names : list string) (colIndex : nat)
    (varColMap : gmap string nat) : gmap string nat * nat :=
  match names with
  | [] => (varColMap, colIndex)
  | var :: rest => assign_columns rest (S colIndex) (<[var := colIndex]> varColMap)
  end.

(** The members of a [GroupBy] operation that the constructor sets. *)
Record GroupBy := mkGroupBy {
  _groupByVariables : list string;
  _aliases : list Alias;
  _varColMap : gmap string nat
}.

(** [GroupBy::GroupBy]. *)
Definition GroupBy_new (groupByVariables : list string) (aliases : list Alias)
    : GroupBy :=
  let aliases' := std_sort alias_lt (filter (λ a, _isAggregate a = true) aliases) in
  let groupByVariables' := std_sort string_lt groupByVariables in
  let first := assign_columns groupByVariables' 0 ∅ in
  let second := assign_columns (_outVarName <$> aliases') first.2 first.1 in
  mkGroupBy groupByVariables' aliases' second.1.

(** [GroupBy::getResultWidth] and [GroupBy::resultSortedOn]. *)
Definition getResultWidth (g : GroupBy) : nat := size (_varColMap g).
Definition resultSortedOn (g : GroupBy) : nat := 0%nat.

(** The names of the output columns in layout order. *)
Definition column_names (g : GroupBy) : list string :=
  _groupByVariables g ++ (_outVarName <$> _aliases g).

(** ** Parsing the aggregate aliases *)

(** The chain of [startsWith] tests that picks the aggregate kind. *)
Definition classify (function : string) : option AggregateType :=
  if startsWith function "COUNT" then Some COUNT
  else if startsWith function "GROUP_CONCAT" then Some GROUP_CONCAT
  else if startsWith function "SAMPLE" then Some SAMPLE
  else if startsWith function "MIN" then Some MIN
  else if startsWith function "MAX" then Some MAX
  else if startsWith function "SUM" then Some SUM
  else if startsWith function "AVG" then Some AVG
  else None.

(** The aggregate that [aggregates.emplace_back()] appends: a
    value-initialised struct, every member zero. *)
Definition Aggregate_emplaced : Aggregate := mkAggregate AVG 0 0 None false.

Definition set_type (a : Aggregate) (t : AggregateType) : Aggregate :=
  mkAggregate t (_inCol a) (_outCol a) (_userData a) (_distinct a).
Definition set_distinct (a : Aggregate) (d : bool) : Aggregate :=
  mkAggregate (_type a) (_inCol a) (_outCol a) (_userData a) d.
Definition set_userData (a : Aggregate) (u : string) : Aggregate :=
  mkAggregate (_type a) (_inCol a) (_outCol a) (Some u) (_distinct a).
Definition set_cols (a : Aggregate) (inCol outCol : nat) : Aggregate :=
  mkAggregate (_type a) inCol outCol (_userData a) (_distinct a).

(** [f.find("DISTINCT") != npos || f.find("distinct") != npos]. *)
Definition has_distinct (function : string) : bool :=
  negb (str_find_str function "DISTINCT" =? npos)
  || negb (str_find_str function "distinct" =? npos).

(** [varStop > varStart && varStop != npos && varStart != npos]. *)
Definition bracketed (start stop : Z) : bool :=
  (start <? stop) && negb (stop =? npos) && negb (start =? npos).

(** [inVarName = strip(inVarName, " \t").substr(8)] when the distinct flag
    is set. [substr] throws when fewer than 8 characters are left. *)
Definition drop_distinct (distinct : bool) (inVarName : string) : option string :=
  if distinct then str_substr (strip inVarName blank_tab) 8 npos
  else Some inVarName.

(** The warning about a separator that cannot be parsed; the two string
    literals of the source are adjacent, without a blank between them. *)
Definition separator_warning (function : string) : Event :=
  Warn ("Unable to parse the delimiter in GROUP_CONCAT" +:+ "aggregrate "
        +:+ function).

(** The separator of a GROUP_CONCAT: the text between the first and the
    last double quote after the semicolon, or a blank with a warning. *)
Definition parse_separator (function : string) (delimitorPos varStop : Z)
    : option (string * list Event) :=
  concatString ← str_substr function (wrap64 (delimitorPos + 1))
                            (wrap64 (varStop - delimitorPos - 1));
  let concatString := strip concatString " " in
  let startConcat := str_find concatString dquote in
  let stopConcat := str_rfind concatString dquote in
  if bracketed startConcat stopConcat then
    sep ← str_substr concatString (wrap64 (startConcat + 1))
                     (wrap64 (stopConcat - startConcat - 1));
    Some (sep, [])
  else
    Some (" ", [separator_warning function]).

(** The part of the alias loop between the choice of the kind and the
    lookup of the input column: it sets the distinct flag and the separator
    of [a] and extracts the name of the argument variable. [None] is a
    thrown [std::out_of_range]. *)
Definition parse_argument (function : string) (a : Aggregate)
    : option (Aggregate * string * list Event) :=
  let varStart := str_find function "(" in
  let varStop := str_rfind function ")" in
  '(a, inVarName, log) ←
    (if decide (_type a = GROUP_CONCAT) then
       let delimitorPos := str_find function ";" in
       if bracketed varStart varStop then
         let a := set_distinct a (has_distinct function) in
         if negb (delimitorPos =? npos) then
           inVarName ← str_substr function (wrap64 (varStart + 1))
                                  (wrap64 (delimitorPos - varStart - 1));
           inVarName ← drop_distinct (_distinct a) inVarName;
           '(sep, log) ← parse_separator function delimitorPos varStop;
           Some (set_userData a sep, inVarName, log)
         else
           inVarName ← str_substr function (wrap64 (varStart + 1))
                                  (wrap64 (varStop - varStart - 1));
           inVarName ← drop_distinct (_distinct a) inVarName;
           Some (set_userData a " ", inVarName, [])
       else Some (a, EmptyString, [])
     else
       if bracketed varStart varStop then
         let a := set_distinct a (has_distinct function) in
         inVarName ← str_substr function (wrap64 (varStart + 1))
                                (wrap64 (varStop - varStart - 1));
         inVarName ← drop_distinct (_distinct a) inVarName;
         Some (a, inVarName, [])
       else Some (a, EmptyString, []));
  Some (a, strip inVarName blank_tab, log).

(** ** [GroupBy::computeResult] *)

(** How the two parsing loops end: with the aggregates, with the early
    return on a column that is missing, with a thrown exception, or in
    undefined behaviour. *)
Inductive Parsed :=
  | Got (aggregates : list Aggregate)
  | MissingColumn
  | ParseThrown
  | ParseUndefined.

(** How [computeResult] ends: [result->finish()] and return, a thrown
    exception, or undefined behaviour. *)
Inductive Outcome :=
  | Finished (result : ResultTable)
  | Thrown
  | Undefined.

(** The loop over the group-by variables: each becomes a SAMPLE aggregate
    that copies its column. *)
Fixpoint parse_groupBy (g : GroupBy) (subtreeVarCols : gmap string nat)
    (vars : list string) (aggregates : list Aggregate) : Parsed * list Event :=
  match vars with
  | [] => (Got aggregates, [])
  | var :: rest =>
      match subtreeVarCols !! var with
      | None =>
          (MissingColumn,
           [Warn ("Group by variable " +:+ var +:+ " is not part of the query.")])
      | Some col =>
          match _varColMap g !! var with
          | None => (ParseUndefined, [])
          | Some outCol =>
              parse_groupBy g subtreeVarCols rest
                (aggregates ++ [mkAggregate SAMPLE col outCol None false])
          end
      end
  end.

(** The loop over the aliases. *)
Fixpoint parse_aliases (g : GroupBy) (subtreeVarCols : gmap string nat)
    (aliases : list Alias) (aggregates : list Aggregate) : Parsed * list Event :=
  match aliases with
  | [] => (Got aggregates, [])
  | alias :: rest =>
      if _isAggregate alias then
        match classify (_function alias) with
        | None =>
            let '(r, log) := parse_aliases g subtreeVarCols rest aggregates in
            (r, Warn ("Unknown aggregate " +:+ _function alias) :: log)
        | Some ty =>
            match parse_argument (_function alias) (set_type Aggregate_emplaced ty) with
            | None => (ParseThrown, [])
            | Some (a, inVarName, log) =>
                match subtreeVarCols !! inVarName with
                | None =>
                    (MissingColumn,
                     log ++ [Warn ("The aggregate alias " +:+ _function alias
                                   +:+ " refers to "
                                   +:+ "a column not present in the query.")])
                | Some inCol =>
                    match _varColMap g !! _outVarName alias with
                    | None => (ParseUndefined, log)
                    | Some outCol =>
                        let '(r, log') :=
                          parse_aliases g subtreeVarCols rest
                            (aggregates ++ [set_cols a inCol outCol]) in
                        (r, log ++ log')
                    end
                end
            end
        end
      else parse_aliases g subtreeVarCols rest aggregates
  end.

(** The early return: an empty table of the declared width. Widths one to
    five get an empty vector of arrays; any other width keeps the empty
    [_varSizeData] the table was created with. *)
Definition finish_empty (result : ResultTable) : ResultTable :=
  if small_width (_nofColumns result)
  then with_fixed result (Some []) (_localVocab result)
  else result.

(** The rows of a table, wherever they are stored. *)
Definition rows (t : ResultTable) : list Row :=
  match _fixedSizeData t with
  | Some d => d
  | None => _varSizeData t
  end.

(** Modelled from the spec: [ResultTable::getResultType] is declared in
    ResultTable.h, which is not part of the sources at hand; it is the entry
    of the per-column result-type vector of section 3. *)
Definition getResultType (t : ResultTable) (col : nat) : option ResultType :=
  _resultTypes t !! col.

(** The result type of output column [i]. *)
Definition output_type (subresult : ResultTable) (aggregates : list Aggregate)
    (i : nat) : option ResultType :=
  a ← aggregates !! i;
  match _type a with
  | AVG | SUM => Some FLOAT
  | COUNT => Some VERBATIM
  | GROUP_CONCAT => Some STRING
  | MAX | MIN | SAMPLE => getResultType subresult (_inCol a)
  | _ => Some KB
  end.

Section Compute.
Context `{E : Externals}.

(** The part of [computeResult] after both parsing loops. *)
Definition aggregate_all (g : GroupBy) (subtreeVarCols : gmap string nat)
    (subresult : ResultTable) (aggregates : list Aggregate)
    (result : ResultTable) : option ResultTable :=
  types ← mapM (output_type subresult aggregates) (seq 0 (_nofColumns result));
  let result := mkResultTable (_nofColumns result) (_sortedBy result) types
                  (_fixedSizeData result) (_varSizeData result)
                  (_localVocab result) in
  let groupByCols := (λ var, default 0%nat (subtreeVarCols !! var))
                       <$> _groupByVariables g in
  inputResultTypes ← mapM (getResultType subresult)
                          (seq 0 (_nofColumns subresult));
  callDoGroupBy (_nofColumns subresult) (length aggregates) subresult
                inputResultTypes groupByCols aggregates result.

(** [GroupBy::computeResult]: the outcome and the events of the run.
    [subtreeVarCols] is the variable-to-column map of the subtree and
    [subresult] the table its [getResult] returns. *)
Definition computeResult (g : GroupBy) (subtreeVarCols : gmap string nat)
    (subresult : ResultTable) (result : ResultTable) : Outcome * list Event :=
  let result := mkResultTable (getResultWidth g) (resultSortedOn g)
                  (_resultTypes result) (_fixedSizeData result)
                  (_varSizeData result) (_localVocab result) in
  match parse_groupBy g subtreeVarCols (_groupByVariables g) [] with
  | (MissingColumn, log) => (Finished (finish_empty result), log)
  | (ParseThrown, log) => (Thrown, log)
  | (ParseUndefined, log) => (Undefined, log)
  | (Got aggregates, log) =>
      match parse_aliases g subtreeVarCols (_aliases g) aggregates with
      | (MissingColumn, log') => (Finished (finish_empty result), log ++ log')
      | (ParseThrown, log') => (Thrown, log ++ log')
      | (ParseUndefined, log') => (Undefined, log ++ log')
      | (Got aggregates, log') =>
          let log := log ++ log' ++ [SubtreeGetResult; CallDoGroupBy] in
          match aggregate_all g subtreeVarCols subresult aggregates result with
          | Some result => (Finished result, log)
          | None => (Undefined, log)
          end
      end
  end.

End Compute.

(** ** LIMIT and OFFSET on a result (spec section 4.1) *)

(** [LimitOffsetClause]: an absent limit is unlimited. *)
Record LimitOffsetClause := mkLimitOffsetClause {
  _limit : option nat;
  _offset : nat
}.

(** A result is a table or a stream of chunks. *)
Inductive Result :=
  | Materialized (idTable : list Row)
  | Lazy (chunks : list (list Row)).

Definition take_limit {A : Type} (limit : option nat) (l : list A) : list A :=
  match limit with
  | Some n => take n l
  | None => l
  end.

(** The chunks of a stream cut to the window: each chunk first loses the
    rows of the offset that is still owed, then is cut to the limit that is
    left; a chunk left without rows is not emitted. *)
Fixpoint limit_chunks (limit : option nat) (offset : nat)
    (chunks : list (list Row)) : list (list Row) :=
  match chunks with
  | [] => []
  | c :: rest =>
      let c' := take_limit limit (drop offset c) in
      let limit' := (λ n, n - length c')%nat <$> limit in
      let offset' := (offset - length c)%nat in
      if (length c' =? 0)%nat then limit_chunks limit' offset' rest
      else c' :: limit_chunks limit' offset' rest
  end.

(** Modelled from the spec: [Result::applyLimitOffset] is defined in
    Result.cpp, which is not part of the sources at hand (only its test is);
    section 4.1 has it rewrite the table or the stream to the rows
    [offset .. offset + limit). *)
Definition applyLimitOffset (clause : LimitOffsetClause) (r : Result) : Result :=
  match r with
  | Materialized t => Materialized (take_limit (_limit clause) (drop (_offset clause) t))
  | Lazy chunks => Lazy (limit_chunks (_limit clause) (_offset clause) chunks)
  end.

Definition row_count (r : Result) : nat :=
  match r with
  | Materialized t => length t
  | Lazy chunks => length (concat chunks)
  end.

(** ** Reference notions used in the statements *)


(** The order [std::sort] leaves behind for a comparator [lt]: no element
    is followed by a smaller one. *)
Definition sorted_by {A : Type} (lt : A -> A -> bool) : relation A :=
  λ x y, negb (lt y x).

(** The cells of column [c] on the rows [idxs]; [None] when one of them
    lies outside the table. *)
Definition column_cells (input : list Row) (c : nat) (idxs : list nat)
    : option (list Id) :=
  mapM (λ i, cell input i c) idxs.

(** The values that are not in [seen] and have not occurred before, in the
    order of their first occurrence. *)
Fixpoint distinct_from (seen : gset Z) (vals : list Id) : list Id :=
  match vals with
  | [] => []
  | x :: rest =>
      if bool_decide (x ∈ seen) then distinct_from seen rest
      else x :: distinct_from ({[x]} ∪ seen) rest
  end.

Definition first_occurrences (vals : list Id) : list Id := distinct_from ∅ vals.

(** The values a kernel works on: all of them, or the first occurrences
    when the distinct flag is set. *)
Definition selected (distinct : bool) (vals : list Id) : list Id :=
  if distinct then first_occurrences vals else vals.

(** A loop body run over a list of values, with [break]. *)
Fixpoint steps {A : Type} (step : Id -> A -> option (A * bool))
    (vals : list Id) (acc : A) : option A :=
  match vals with
  | [] => Some acc
  | x :: rest =>
      match step x acc with
      | None => None
      | Some (acc', true) => Some acc'
      | Some (acc', false) => steps step rest acc'
      end
  end.


Section Reference.
Context `{E : Externals}.

(** The loop body [accumulate] picks for an input type. *)
Definition add_for (ty : ResultType) : Id -> float -> option (float * bool) :=
  match ty with
  | VERBATIM => add_verbatim
  | FLOAT => add_float
  | _ => add_kb
  end.


(** What one cell contributes to a sum, by input type; [None] when the
    cell makes the sum NaN. *)
Definition summand (ty : ResultType) (x : Id) : option float :=
  match ty with
  | VERBATIM => Some (float_of_size x)
  | FLOAT => Some (float_of_bits x)
  | TEXT | STRING => None
  | _ =>
      if startsWith (idToString x) VALUE_FLOAT_PREFIX
      then Some (convertIndexWordToFloatValue (float_word (idToString x)))
      else None
  end.

(** The sum over a list of values: NaN for a TEXT or STRING column and
    when some value has no summand, and the sum from left to right, starting
    at zero, otherwise. *)
Definition sum_of (ty : ResultType) (vals : list Id) : float :=
  match ty with
  | TEXT | STRING => quiet_NaN
  | _ =>
      match mapM (summand ty) vals with
      | Some fs => fold_left fadd fs (S754_zero false)
      | None => quiet_NaN
      end
  end.

(** The text GROUP_CONCAT prints for a cell; empty where the cell has no
    text. *)
Definition concat_text (ty : ResultType) (inTable : ResultTable) (x : Id)
    : string :=
  default EmptyString (concat_decode ty inTable x).

(** What the distinct branches of GROUP_CONCAT print for the last row of
    the run, given the values of the rows before it. *)
Definition last_text (ty : ResultType) (inTable : ResultTable) (delim : string)
    (init : list Id) (last : Id) : string :=
  if bool_decide (last ∈ init) then EmptyString
  else match ty with
       | VERBATIM => concat_text ty inTable last +:+ delim
       | _ => concat_text ty inTable last
       end.

End Reference.

(** ** A small index for the worked examples

    Ids below 10 are float literals of the vocabulary, the others are
    entities; the conversions are stand-ins. *)
Definition example_externals : Externals := {|
  idToString := λ x, if x <? 10 then ":v:float:" +:+ decimal x +:+ "F"
                     else "<entity" +:+ decimal x +:+ ">";
  getTextExcerpt := λ x, "excerpt " +:+ decimal x;
  VALUE_PREFIX := ":v:";
  VALUE_FLOAT_PREFIX := ":v:float:";
  convertIndexWordToFloatValue := λ w, float_of_size (str_size w);
  convertIndexWordToValueLiteral := λ w, w;
  floatToString := λ f, decimal (bits_of_float f);
  ID_NO_VALUE := 2 ^ 64 - 2
|}.

(** A sub-result with the column types [types], the rows [data] and the
    local vocabulary [vocab]. *)
Definition example_table (types : list ResultType) (data : list Row)
    (vocab : list string) : ResultTable :=
  mkResultTable (length types) 0 types (Some data) [] vocab.

(** ** Local-vocabulary indices

    A GROUP_CONCAT cell of a row is in order for a vocabulary when it holds
    an index below the size of the vocabulary. *)
Definition vocab_cell_ok (vocab : list string) (row : Row) (a : Aggregate) : Prop :=
  _type a = GROUP_CONCAT →
  ∃ idx : nat, row !! _outCol a = Some (Z.of_nat idx) ∧ (idx < length vocab)%nat.

Definition table_cells_ok (aggregates : list Aggregate) (vocab : list string)
    (table : list Row) : Prop :=
  Forall (λ row, Forall (vocab_cell_ok vocab row) aggregates) table.

(** ** Reference notions for the alias parser *)

(** [pat] occurs in [s]. *)
Definition occurs (pat s : string) : Prop :=
  ∃ pre post : string, s = pre +:+ pat +:+ post.

(** The text [parse_argument] takes for the argument before it looks at
    the distinct flag: what lies between the first opening bracket and the
    semicolon of a GROUP_CONCAT that has one, and between the first opening
    and the last closing bracket otherwise. *)
Definition raw_argument (function : string) (ty : AggregateType) : option string :=
  let varStart := str_find function "(" in
  let varStop := str_rfind function ")" in
  let delimitorPos := str_find function ";" in
  if decide (ty = GROUP_CONCAT ∧ delimitorPos ≠ npos)
  then str_substr function (wrap64 (varStart + 1))
                  (wrap64 (delimitorPos - varStart - 1))
  else str_substr function (wrap64 (varStart + 1))
                  (wrap64 (varStop - varStart - 1)).

(** What the alias loop does with one alias before the lookup of its
    input column: it skips it (not an aggregate, or of unknown kind), the
    extraction of the argument throws, or it refers to a variable name. *)
Inductive AliasStatus :=
  | Skipped
  | Throws
  | Refers (inVarName : string).

Definition alias_status (alias : Alias) : AliasStatus :=
  if _isAggregate alias then
    match classify (_function alias) with
    | None => Skipped
    | Some ty =>
        match parse_argument (_function alias) (set_type Aggregate_emplaced ty) with
        | None => Throws
        | Some (_, inVarName, _) => Refers inVarName
        end
    end
  else Skipped.

(** An alias whose argument variable is not a variable of the subtree. *)
Definition unresolved (subtreeVarCols : gmap string nat) (alias : Alias) : Prop :=
  ∃ v, alias_status alias = Refers v ∧ subtreeVarCols !! v = None.

(** Is the event a warning? *)
Definition is_warning (ev : Event) : Prop :=
  match ev with
  | Warn _ => True
  | _ => False
  end.

(** ** Proof automation *)

(** Case analysis along the binds and tests of a kernel equation
    [H : ... = Some _]: every bind that delivered a value is named, every
    other case is closed. *)
Ltac split_binds H :=
  repeat match type of H with
         | (if ?b then _ else _) = _ => destruct b
         | (?m ≫= _) = Some _ =>
             let x := fresh "x" in
             destruct m as [x|] eqn:?;
             [cbn [mbind option_bind] in H|discriminate H];
             try (destruct x as [[? ?] ?] || destruct x as [? ?])
         end.

(** ** Further members of [GroupBy] *)

(** [std::endl] writes a line feed. *)
Definition endl : string := String (ascii_of_nat 10) EmptyString.

(** [GroupBy::asString]: the text that serves as the cache key of the
    operation. [subtree_asString] is [_subtree->asString]. *)
Definition asString (g : GroupBy) (subtree_asString : nat -> string)
    (indent : nat) : string :=
  let os := fold_left (λ os _, os +:+ " ") (seq 0 indent) EmptyString in
  let os := os +:+ "GROUP_BY" +:+ endl in
  let os := fold_left (λ os var, os +:+ var +:+ ", ") (_groupByVariables g) os in
  let os := fold_left (λ os p, os +:+ _function p +:+ ", ") (_aliases g) os in
  os +:+ endl +:+ subtree_asString indent.

(** [inVarColMap[name]] on a [std::unordered_map]: a name that is not a
    key is inserted with the value zero, and zero is what the read
    returns. *)
Definition column_or_zero (inVarColMap : gmap string nat) (name : string) : nat :=
  default 0%nat (inVarColMap !! name).

(** [GroupBy::computeSortColumns]: the columns of the subtree the input has
    to be sorted on, each with the flag [false]. [inVarColMap] is the
    variable-to-column map of the subtree. *)
Definition computeSortColumns (inVarColMap : gmap string nat)
    (groupByVariables : list string) (aliases : list Alias)
    : list (nat * bool) :=
  match groupByVariables with
  | [] => []
  | _ =>
      let sortedAliases :=
        std_sort alias_lt (filter (λ a, _isAggregate a = true) aliases) in
      let sortedGroupByVars := std_sort string_lt groupByVariables in
      ((λ var, (column_or_zero inVarColMap var, false)) <$> sortedGroupByVars)
      ++ ((λ a, (column_or_zero inVarColMap (_outVarName a), false))
            <$> sortedAliases)
  end.

(** [GroupBy::getVariableColumns]. *)
Definition getVariableColumns (g : GroupBy) : gmap string nat := _varColMap g.

(** The two parsing loops of [computeResult] one after the other: the
    aggregates vector as it stands when the subtree is evaluated. *)
Definition parse_all (g : GroupBy) (subtreeVarCols : gmap string nat)
    : Parsed * list Event :=
  match parse_groupBy g subtreeVarCols (_groupByVariables g) [] with
  | (Got aggregates, log) =>
      let '(r, log') := parse_aliases g subtreeVarCols (_aliases g) aggregates in
      (r, log ++ log')
  | r => r
  end.

(** ** Reference notions for the run splitter *)

(** The keys of all rows: the cells of each row in the group-by columns;
    [None] when a row lacks one of the columns. *)
Definition row_keys (input : list Row) (groupByCols : list nat)
    : option (list (list (nat * Id))) :=
  mapM (λ pos, read_key input pos groupByCols) (seq 0 (length input)).

(** The maximal runs of equal adjacent keys, as pairs of the first and the
    last index. [runs_from start pos cur rest] continues the run that began
    at [start] with key [cur], where [rest] are the keys from index [pos]
    on. *)
Fixpoint runs_from {K : Type} `{EqDecision K} (start pos : nat) (cur : K)
    (rest : list K) : list (nat * nat) :=
  match rest with
  | [] => [(start, pos - 1)%nat]
  | k :: rest' =>
      if decide (k = cur) then runs_from start (S pos) cur rest'
      else (start, pos - 1)%nat :: runs_from pos (S pos) k rest'
  end.

Definition run_bounds {K : Type} `{EqDecision K} (keys : list K)
    : list (nat * nat) :=
  match keys with
  | [] => []
  | k :: rest => runs_from 0 1 k rest
  end.

(** [runs] cuts the indices from [start] to the end of [keys] into
    consecutive non-empty runs; the key is constant on each run, and the
    row after a run carries another key. *)
Fixpoint maximal_runs {K : Type} (keys : list K) (start : nat)
    (runs : list (nat * nat)) : Prop :=
  match runs with
  | [] => start = length keys
  | (s, e) :: rest =>
      s = start ∧ (s ≤ e < length keys)%nat
      ∧ (∀ i, (s ≤ i ≤ e)%nat → keys !! i = keys !! s)
      ∧ ((S e < length keys)%nat → keys !! S e ≠ keys !! s)
      ∧ maximal_runs keys (S e) rest
  end.

Section RunReference.
Context `{E : Externals}.

(** One output row per run, in order. *)
Fixpoint emit_runs (kind : RowKind) (width : nat) (aggregates : list Aggregate)
    (input : list Row) (inputTypes : list ResultType) (inTable : ResultTable)
    (runs : list (nat * nat)) (st : list Row * list string * gset Z)
    : option (list Row * list string * gset Z) :=
  match runs with
  | [] => Some st
  | (s, e) :: rest =>
      st' ← emit_run kind width aggregates s e input inputTypes inTable st;
      emit_runs kind width aggregates input inputTypes inTable rest st'
  end.

End RunReference.

(** The width of the rows [doGroupBy] appends: that of the array for
    fixed-size rows, and the size the vector is resized to otherwise. *)
Definition row_width (kind : RowKind) (groupByCols : list nat)
    (aggregates : list Aggregate) : nat :=
  match kind with
  | FixedWidth n => n
  | VarWidth => (length groupByCols + length aggregates)%nat
  end.

(** ** Reference notions for the parsed aggregates *)

(** An alias the alias loop gets past: it is skipped, or its argument is
    extracted without a throw and names a variable of the subtree. *)
Definition resolves (subtreeVarCols : gmap string nat) (alias : Alias) : Prop :=
  match alias_status alias with
  | Skipped => True
  | Throws => False
  | Refers v => is_Some (subtreeVarCols !! v)
  end.

(** The aggregate that stands for the group-by variable [v]: a SAMPLE from
    the subtree column of [v] into the output column of [v]. *)
Definition describes_variable (g : GroupBy) (subtreeVarCols : gmap string nat)
    (v : string) (a : Aggregate) : Prop :=
  ∃ col out, subtreeVarCols !! v = Some col ∧ _varColMap g !! v = Some out
             ∧ a = mkAggregate SAMPLE col out None false.

(** The aggregate that stands for an alias: what the parser makes of the
    function text for the kind its name selects, with the subtree column of
    the argument variable as input column and the column of the alias as
    output column. *)
Definition describes_alias (g : GroupBy) (subtreeVarCols : gmap string nat)
    (alias : Alias) (a : Aggregate) : Prop :=
  _isAggregate alias = true
  ∧ ∃ ty a0 v log inCol outCol,
      classify (_function alias) = Some ty
      ∧ parse_argument (_function alias) (set_type Aggregate_emplaced ty)
        = Some (a0, v, log)
      ∧ subtreeVarCols !! v = Some inCol
      ∧ _varColMap g !! _outVarName alias = Some outCol
      ∧ a = set_cols a0 inCol outCol.


(** ** Reference notions for the single-group path *)

(** The aggregates whose kernel is bound to read the last row of its run:
    SAMPLE, LAST and GROUP_CONCAT, COUNT with DISTINCT, MIN and MAX on a
    column that is neither TEXT nor STRING, and SUM and AVG on a VERBATIM or
    FLOAT column. (SUM and AVG on a vocabulary column may leave their loop
    early, FIRST reads the first row, and a plain COUNT reads no row.) *)
Definition reads_run_end (inputTypes : list ResultType) (a : Aggregate) : Prop :=
  match _type a with
  | SAMPLE | LAST | GROUP_CONCAT => True
  | COUNT => _distinct a = true
  | MAX | MIN =>
      ∃ ty, inputTypes !! _inCol a = Some ty ∧ ty ≠ TEXT ∧ ty ≠ STRING
  | SUM | AVG =>
      inputTypes !! _inCol a = Some VERBATIM ∨ inputTypes !! _inCol a = Some FLOAT
  | FIRST => False
  end.

(** ** Well-formed calls of [doGroupBy] *)

(** An aggregate fits an input of [width] columns and output rows of
    [outWidth] cells: its input column exists and has a type, its output
    column exists, and a GROUP_CONCAT has a separator and, on a STRING
    column, only cells that index the local vocabulary of the input
    table. *)
Definition aggregate_fits (width outWidth : nat) (input : list Row)
    (inputTypes : list ResultType) (inTable : ResultTable) (a : Aggregate)
    : Prop :=
  (_inCol a < width)%nat
  ∧ is_Some (inputTypes !! _inCol a)
  ∧ (_outCol a < outWidth)%nat
  ∧ (_type a = GROUP_CONCAT →
     is_Some (_userData a)
     ∧ (inputTypes !! _inCol a = Some STRING →
        Forall (λ row : Row,
                  ∀ x, row !! _inCol a = Some x →
                       is_Some (ResultTable_idToString inTable x)) input)).

(** The rows [callDoGroupBy] takes as the input: those behind
    [_fixedSizeData] for one to five columns, those of [_varSizeData]
    otherwise. *)
Definition input_rows (t : ResultTable) : option (list Row) :=
  if small_width (_nofColumns t) then _fixedSizeData t
  else Some (_varSizeData t).

(** A sub-result in order, with the rows [input]: the rows are stored
    where the width says, there is one result type per column, every row
    has the declared width, and the cells of a STRING column index the
    local vocabulary of the table. *)
Definition well_formed_input (t : ResultTable) (input : list Row) : Prop :=
  input_rows t = Some input
  ∧ length (_resultTypes t) = _nofColumns t
  ∧ Forall (λ row : Row, length row = _nofColumns t) input
  ∧ ∀ c, _resultTypes t !! c = Some STRING →
         Forall (λ row : Row,
                   ∀ x, row !! c = Some x →
                        is_Some (ResultTable_idToString t x)) input.

(** ** Reference notions for floats *)

(** Is the float a NaN? *)
Definition float_is_nan (f : float) : bool :=
  match f with
  | S754_nan => true
  | _ => false
  end.

(** What [GroupBy::GroupBy] leaves behind, read off the contract of
    [std::sort] and not off one sorting algorithm: the group-by variables
    and the aggregate aliases are sorted rearrangements of what was passed
    in, and the columns are numbered in that order. Among aliases of equal
    output name the standard leaves the order open; every such order is a
    [constructed] record. *)
Definition constructed (groupByVariables : list string) (aliases : list Alias)
    (g : GroupBy) : Prop :=
  Sorted (sorted_by string_lt) (_groupByVariables g)
  ∧ _groupByVariables g ≡ₚ groupByVariables
  ∧ Sorted (sorted_by alias_lt) (_aliases g)
  ∧ _aliases g ≡ₚ filter (λ a, _isAggregate a = true) aliases
  ∧ _varColMap g = (assign_columns (column_names g) 0 ∅).1.

(** * Results *)

(** ** Order on strings *)

Lemma string_compare_not_Gt_trans (a b c : string) :
  String.compare a b ≠ Gt → String.compare b c ≠ Gt → String.compare a c ≠ Gt.
Proof.
  revert b c. induction a as [|x a IH]; intros [|y b] [|z c]; simpl; try done.
  unfold Ascii.compare.
  destruct (N.compare_spec (N_of_ascii x) (N_of_ascii y)) as [Hxy|Hxy|Hxy];
    destruct (N.compare_spec (N_of_ascii y) (N_of_ascii z)) as [Hyz|Hyz|Hyz];
    destruct (N.compare_spec (N_of_ascii x) (N_of_ascii z)) as [Hxz|Hxz|Hxz];
    try done; try lia.
  apply IH.
Qed.

Lemma string_lt_flip (s1 s2 : string) :
  negb (string_lt s2 s1) = String.leb s1 s2.
Proof.
  unfold string_lt, String.ltb, String.leb.
  rewrite (String.compare_antisym s2 s1).
  by destruct (String.compare s1 s2).
Qed.

Lemma string_leb_not_Gt (s1 s2 : string) :
  String.leb s1 s2 = true ↔ String.compare s1 s2 ≠ Gt.
Proof. unfold String.leb. destruct (String.compare s1 s2); naive_solver. Qed.

#[local] Instance string_sorted_total : Total (sorted_by string_lt).
Proof.
  intros s1 s2. unfold sorted_by. rewrite !string_lt_flip.
  destruct (String.leb_total s1 s2) as [->| ->]; [by left|by right].
Qed.

#[local] Instance string_sorted_trans : Transitive (sorted_by string_lt).
Proof.
  intros s1 s2 s3. unfold sorted_by. rewrite !string_lt_flip.
  rewrite !Is_true_true, !string_leb_not_Gt. apply string_compare_not_Gt_trans.
Qed.

#[local] Instance string_sorted_antisym : AntiSymm eq (sorted_by string_lt).
Proof.
  intros s1 s2. unfold sorted_by. rewrite !string_lt_flip.
  rewrite !Is_true_true. apply String.leb_antisym.
Qed.

#[local] Instance alias_sorted_total : Total (sorted_by alias_lt).
Proof. intros a1 a2. apply (string_sorted_total (_outVarName a1) (_outVarName a2)). Qed.

(** ** The contract of [std_sort] *)

Lemma std_sort_Sorted {A : Type} (lt : A -> A -> bool)
    `{!Total (sorted_by lt)} (l : list A) :
  Sorted (sorted_by lt) (std_sort lt l).
Proof. unfold std_sort. by apply (Sorted_merge_sort (sorted_by lt)). Qed.

Lemma std_sort_Permutation {A : Type} (lt : A -> A -> bool) (l : list A) :
  std_sort lt l ≡ₚ l.
Proof. unfold std_sort. apply (merge_sort_Permutation (λ x y, negb (lt y x))). Qed.

(** Two sorted rearrangements of the same names are the same list. *)
Lemma sorted_names_unique (l1 l2 : list string) :
  Sorted (sorted_by string_lt) l1 → Sorted (sorted_by string_lt) l2 →
  l1 ≡ₚ l2 → l1 = l2.
Proof. apply (Sorted_unique (sorted_by string_lt)). Qed.

(** ** C8: the output column layout *)

Lemma assign_columns_app (l1 l2 : list string) (k : nat) (m : gmap string nat) :
  assign_columns (l1 ++ l2) k m =
  assign_columns l2 (assign_columns l1 k m).2 (assign_columns l1 k m).1.
Proof. revert k m. induction l1 as [|v l1 IH]; intros k m; simpl; [done|]. apply IH. Qed.

Lemma assign_columns_absent (names : list string) (k : nat)
    (m : gmap string nat) (v : string) :
  v ∉ names → (assign_columns names k m).1 !! v = m !! v.
Proof.
  revert k m. induction names as [|w names IH]; intros k m Hv; simpl; [done|].
  rewrite IH by set_solver. apply lookup_insert_ne. set_solver.
Qed.

(** A name is mapped to the last column that carries it. *)
Lemma assign_columns_lookup (names : list string) (k : nat)
    (m : gmap string nat) (i : nat) (v : string) :
  names !! i = Some v → v ∉ drop (S i) names →
  (assign_columns names k m).1 !! v = Some (k + i)%nat.
Proof.
  revert k m i. induction names as [|w names IH]; intros k m i Hi Hlast; [done|].
  destruct i as [|i]; simpl in *.
  - injection Hi as ->. rewrite drop_0 in Hlast.
    rewrite assign_columns_absent by done.
    rewrite lookup_insert_eq. f_equal. lia.
  - rewrite (IH (S k) _ i) by done. f_equal. lia.
Qed.

Lemma GroupBy_new_varColMap (gb : list string) (al : list Alias) :
  _varColMap (GroupBy_new gb al) =
  (assign_columns (column_names (GroupBy_new gb al)) 0 ∅).1.
Proof.
  unfold GroupBy_new, column_names. simpl. by rewrite assign_columns_app.
Qed.

Lemma GroupBy_new_members (gb : list string) (al : list Alias) :
  _groupByVariables (GroupBy_new gb al) = std_sort string_lt gb
  ∧ _aliases (GroupBy_new gb al)
    = std_sort alias_lt (filter (λ a, _isAggregate a = true) al).
Proof.
  done.
Qed.

Lemma sorted_aliases_names (l : list Alias) :
  Sorted (sorted_by alias_lt) l → Sorted (sorted_by string_lt) (_outVarName <$> l).
Proof. apply Sorted_fmap. by intros a1 a2. Qed.

Lemma column_names_permutation (gb gb' : list string) (al al' : list Alias) :
  gb ≡ₚ gb' → al ≡ₚ al' →
  column_names (GroupBy_new gb al) = column_names (GroupBy_new gb' al').
Proof.
  intros Hgb Hal. unfold column_names.
  destruct (GroupBy_new_members gb al) as [-> ->].
  destruct (GroupBy_new_members gb' al') as [-> ->].
  f_equal.
  - apply sorted_names_unique.
    + apply (std_sort_Sorted string_lt).
    + apply (std_sort_Sorted string_lt).
    + by rewrite !std_sort_Permutation.
  - apply sorted_names_unique.
    + apply sorted_aliases_names, (std_sort_Sorted alias_lt).
    + apply sorted_aliases_names, (std_sort_Sorted alias_lt).
    + by rewrite !std_sort_Permutation, Hal.
Qed.

(** C8. For any group-by variables and aliases, the constructor keeps only
    the aggregate aliases, sorts the group-by variables by name and the
    aliases by output variable name, and numbers the columns in that order,
    group-by variables first (a name is mapped to the last column it heads);
    two inputs that are rearrangements of each other get the same column
    names and the same variable-to-column map. *)
Theorem GroupBy_layout_order_invariant
    (gb gb' : list string) (al al' : list Alias) :
  gb ≡ₚ gb' → al ≡ₚ al' →
  let g := GroupBy_new gb al in
  Sorted (sorted_by string_lt) (_groupByVariables g)
  ∧ _groupByVariables g ≡ₚ gb
  ∧ Sorted (sorted_by alias_lt) (_aliases g)
  ∧ _aliases g ≡ₚ filter (λ a, _isAggregate a = true) al
  ∧ (∀ (i : nat) (v : string),
       column_names g !! i = Some v → v ∉ drop (S i) (column_names g) →
       _varColMap g !! v = Some i)
  ∧ column_names g = column_names (GroupBy_new gb' al')
  ∧ _varColMap g = _varColMap (GroupBy_new gb' al').
Proof.
  intros Hgb Hal g. subst g.
  destruct (GroupBy_new_members gb al) as [Hv Ha].
  rewrite Hv, Ha.
  split; [apply (std_sort_Sorted string_lt)|].
  split; [apply std_sort_Permutation|].
  split; [apply (std_sort_Sorted alias_lt)|].
  split; [apply std_sort_Permutation|].
  split.
  - intros i v Hi Hlast. rewrite GroupBy_new_varColMap.
    by rewrite (assign_columns_lookup _ 0 ∅ i v).
  - split; [by apply column_names_permutation|].
    rewrite !GroupBy_new_varColMap.
    by rewrite (column_names_permutation gb gb' al al').
Qed.

Lemma GroupBy_layout_order_invariant_witness :
  let g := GroupBy_new ["?y"; "?x"]
             [mkAlias "?n" "COUNT(?z)" true; mkAlias "?e" "?x + 1" false;
              mkAlias "?a" "SUM(?z)" true] in
  column_names g = ["?x"; "?y"; "?a"; "?n"]
  ∧ _varColMap g
    = _varColMap (GroupBy_new ["?x"; "?y"]
                    [mkAlias "?a" "SUM(?z)" true; mkAlias "?n" "COUNT(?z)" true;
                     mkAlias "?e" "?x + 1" false]).
Proof.
  split; [vm_compute; reflexivity|].
  apply (GroupBy_layout_order_invariant
           ["?y"; "?x"] ["?x"; "?y"]
           [mkAlias "?n" "COUNT(?z)" true; mkAlias "?e" "?x + 1" false;
            mkAlias "?a" "SUM(?z)" true]
           [mkAlias "?a" "SUM(?z)" true; mkAlias "?n" "COUNT(?z)" true;
            mkAlias "?e" "?x + 1" false]).
  - apply perm_swap.
  - etrans; [apply perm_skip, perm_swap|]. apply perm_swap.
Defined.

(** ** C10: the aggregate kind is chosen by prefix alone *)



(** The only warning [parse_argument] can log is the one about the
    separator. *)
Lemma parse_separator_log (f : string) (d v : Z) (sep : string) (log : list Event) :
  parse_separator f d v = Some (sep, log) →
  log = [] ∨ log = [separator_warning f].
Proof.
  unfold parse_separator. intros H.
  destruct (str_substr f _ _) as [c|]; [simpl in H|done].
  destruct (bracketed _ _).
  - destruct (str_substr _ _ _); [simpl in H|done]. left. congruence.
  - right. congruence.
Qed.

Lemma parse_argument_log (f : string) (a a' : Aggregate) (v : string)
    (log : list Event) :
  parse_argument f a = Some (a', v, log) →
  log = [] ∨ log = [separator_warning f].
Proof.
  unfold parse_argument. intros H.
  destruct (decide (_type a = GROUP_CONCAT)).
  - destruct (bracketed _ _); [|left; simpl in H; congruence].
    destruct (negb _).
    + destruct (str_substr f _ _); [simpl in H|done].
      destruct (drop_distinct _ _); [simpl in H|done].
      destruct (parse_separator f _ _) as [[sep log']|] eqn:Hsep; [simpl in H|done].
      apply parse_separator_log in Hsep. injection H as _ _ <-. done.
    + destruct (str_substr f _ _); [simpl in H|done].
      destruct (drop_distinct _ _); [simpl in H|done].
      left. congruence.
  - destruct (bracketed _ _); [|left; simpl in H; congruence].
    destruct (str_substr f _ _); [simpl in H|done].
    destruct (drop_distinct _ _); [simpl in H|done].
    left. congruence.
Qed.


(** ** C6: LIMIT and OFFSET *)

(** The rows a result carries, whatever its form. *)
Lemma take_limit_app {A : Type} (limit : option nat) (l1 l2 : list A) :
  take_limit limit (l1 ++ l2) =
  take_limit limit l1
  ++ take_limit ((λ n, n - length (take_limit limit l1))%nat <$> limit) l2.
Proof.
  destruct limit as [n|]; simpl; [|done].
  rewrite take_app, length_take. f_equal.
  destruct (decide (n ≤ length l1)%nat).
  - replace (n - length l1)%nat with 0%nat by lia.
    by replace (n - n `min` length l1)%nat with 0%nat by lia.
  - f_equal. lia.
Qed.

Lemma limit_chunks_concat (limit : option nat) (offset : nat)
    (chunks : list (list Row)) :
  concat (limit_chunks limit offset chunks) =
  take_limit limit (drop offset (concat chunks)).
Proof.
  revert limit offset.
  induction chunks as [|c rest IH]; intros limit offset; simpl.
  - rewrite drop_nil. destruct limit as [n|]; simpl; [by rewrite take_nil|done].
  - rewrite drop_app, take_limit_app, <- IH.
    destruct (Nat.eqb_spec (length (take_limit limit (drop offset c))) 0) as [H0|H0].
    + apply nil_length_inv in H0 as Hnil. by rewrite Hnil.
    + done.
Qed.

Lemma length_take_limit {A : Type} (limit : option nat) (l : list A) :
  Z.of_nat (length (take_limit limit l)) =
  match limit with
  | Some n => Z.min (Z.of_nat n) (Z.of_nat (length l))
  | None => Z.of_nat (length l)
  end.
Proof. destruct limit as [n|]; simpl; [rewrite length_take|]; lia. Qed.

(** C6. The result rewritten by [applyLimitOffset] carries
    [max(0, min(limit, sourceCount - offset))] rows, and all of the rows past
    the offset when there is no limit; so a limit of 0 leaves no row, and so
    does an offset at or past the end of the source. The function is total:
    it has no failing case. *)
Theorem applyLimitOffset_row_count (clause : LimitOffsetClause) (r : Result) :
  Z.of_nat (row_count (applyLimitOffset clause r)) =
    Z.max 0 (match _limit clause with
             | Some limit =>
                 Z.min (Z.of_nat limit)
                       (Z.of_nat (row_count r) - Z.of_nat (_offset clause))
             | None => Z.of_nat (row_count r) - Z.of_nat (_offset clause)
             end)
  ∧ (_limit clause = Some 0%nat → row_count (applyLimitOffset clause r) = 0%nat)
  ∧ ((row_count r ≤ _offset clause)%nat →
     row_count (applyLimitOffset clause r) = 0%nat).
Proof.
  assert (Hcount :
    Z.of_nat (row_count (applyLimitOffset clause r)) =
    match _limit clause with
    | Some limit => Z.min (Z.of_nat limit)
                          (Z.of_nat (row_count r - _offset clause))
    | None => Z.of_nat (row_count r - _offset clause)
    end).
  { destruct r as [t|chunks]; simpl.
    - by rewrite length_take_limit, length_drop.
    - by rewrite limit_chunks_concat, length_take_limit, length_drop. }
  split; [|split].
  - rewrite Hcount. destruct (_limit clause); lia.
  - intros Hlimit. rewrite Hlimit in Hcount. lia.
  - intros Hoff. destruct (_limit clause); lia.
Qed.

(** ** Loops over a column *)

Lemma column_cells_cons (input : list Row) (c i : nat) (idxs : list nat)
    (vals : list Id) :
  column_cells input c (i :: idxs) = Some vals ↔
  ∃ x rest, cell input i c = Some x ∧ column_cells input c idxs = Some rest
            ∧ vals = x :: rest.
Proof.
  unfold column_cells. simpl. split.
  - intros H. destruct (cell input i c) as [x|]; [simpl in H|done].
    destruct (mapM _ idxs) as [rest|]; [simpl in H|done].
    injection H as <-. eauto.
  - intros (x & rest & -> & -> & ->). done.
Qed.

Lemma column_cells_length (input : list Row) (c : nat) (idxs : list nat)
    (vals : list Id) :
  column_cells input c idxs = Some vals → length vals = length idxs.
Proof. intros H. symmetry. by apply (length_mapM _ _ _ H). Qed.

Lemma cell_bound (input : list Row) (i c : nat) (x : Id) :
  cell input i c = Some x → (i < length input)%nat.
Proof.
  unfold cell. intros H. destruct (input !! i) as [r|] eqn:Hr; [|done].
  by apply lookup_lt_Some in Hr.
Qed.

Lemma column_cells_bound (input : list Row) (c : nat) (idxs : list nat)
    (vals : list Id) (i : nat) :
  column_cells input c idxs = Some vals → i ∈ idxs → (i < length input)%nat.
Proof.
  revert vals. induction idxs as [|j idxs IH]; intros vals Hcells Hi.
  - set_solver.
  - apply column_cells_cons in Hcells as (x & rest & Hx & Hrest & ->).
    apply elem_of_cons in Hi as [->|Hi]; [by eapply cell_bound|by eapply IH].
Qed.

Lemma upto_end (s e : nat) : (s ≤ e)%nat → e ∈ upto s e.
Proof. intros. unfold upto. apply elem_of_seq. lia. Qed.

(** A loop over the column is the loop body run over the selected values;
    without the distinct flag it leaves the hash set alone. *)
Lemma for_each_visit_steps {A : Type} (d : bool) (input : list Row) (c : nat)
    (step : Id -> A -> option (A * bool)) (idxs : list nat) (vals : list Id)
    (acc : A) (seen : gset Z) :
  column_cells input c idxs = Some vals →
  match for_each (visit d input c step) idxs (acc, seen) with
  | Some (acc', seen') =>
      steps step (if d then distinct_from seen vals else vals) acc = Some acc'
      ∧ (d = false → seen' = seen)
  | None => steps step (if d then distinct_from seen vals else vals) acc = None
  end.
Proof.
  revert vals acc seen.
  induction idxs as [|i idxs IH]; intros vals acc seen Hcells.
  - injection Hcells as <-. simpl. by destruct d.
  - apply column_cells_cons in Hcells as (x & rest & Hx & Hrest & ->).
    simpl. unfold visit at 1. rewrite Hx. simpl.
    specialize (IH rest).
    destruct d; simpl.
    + destruct (bool_decide (x ∈ seen)); [by apply IH|].
      simpl. destruct (step x acc) as [[acc' [|]]|]; simpl; [done| |done].
      specialize (IH acc' ({[x]} ∪ seen) Hrest).
      destruct (for_each _ idxs _) as [[acc'' seen'']|]; [|done].
      split; [apply IH|done].
    + destruct (step x acc) as [[acc' [|]]|]; simpl; [done| |done].
      by apply IH.
Qed.

(** With a body that neither fails nor breaks on the values present, the
    loop is a fold, and with the distinct flag the hash set gains the
    values. *)
Lemma for_each_visit_fold {A : Type} (d : bool) (input : list Row) (c : nat)
    (step : Id -> A -> option (A * bool)) (g : Id -> A -> A)
    (idxs : list nat) (vals : list Id) (acc : A) (seen : gset Z) :
  column_cells input c idxs = Some vals →
  (∀ x a, x ∈ vals → step x a = Some (g x a, false)) →
  for_each (visit d input c step) idxs (acc, seen) =
  Some (fold_left (λ a x, g x a) (if d then distinct_from seen vals else vals) acc,
        if d then list_to_set vals ∪ seen else seen).
Proof.
  revert vals acc seen.
  induction idxs as [|i idxs IH]; intros vals acc seen Hcells Hstep.
  - injection Hcells as <-. simpl. destruct d; [|done].
    do 2 f_equal. set_solver.
  - apply column_cells_cons in Hcells as (x & rest & Hx & Hrest & ->).
    simpl. unfold visit at 1. rewrite Hx. simpl.
    assert (Hrest_step : ∀ y a, y ∈ rest → step y a = Some (g y a, false))
      by (intros; apply Hstep; set_solver).
    destruct d; simpl.
    + case_bool_decide as Hin; simpl.
      * rewrite (IH rest) by done. do 2 f_equal. set_solver.
      * rewrite Hstep by set_solver. simpl.
        rewrite (IH rest) by done. do 2 f_equal. set_solver.
    + rewrite Hstep by set_solver. simpl. by rewrite (IH rest).
Qed.

(** ** First occurrences *)

Lemma distinct_from_elem_of (seen : gset Z) (vals : list Id) (x : Id) :
  x ∈ distinct_from seen vals ↔ x ∈ vals ∧ x ∉ seen.
Proof.
  revert seen. induction vals as [|y vals IH]; intros seen; simpl.
  - set_solver.
  - case_bool_decide as Hin.
    + rewrite IH. set_solver.
    + rewrite elem_of_cons, IH. destruct (decide (x = y)); set_solver.
Qed.

Lemma distinct_from_NoDup (seen : gset Z) (vals : list Id) :
  NoDup (distinct_from seen vals).
Proof.
  revert seen. induction vals as [|y vals IH]; intros seen; simpl.
  - constructor.
  - case_bool_decide; [apply IH|].
    constructor; [|apply IH]. rewrite distinct_from_elem_of. set_solver.
Qed.

Lemma distinct_from_sublist (seen : gset Z) (vals : list Id) :
  sublist (distinct_from seen vals) vals.
Proof.
  revert seen. induction vals as [|y vals IH]; intros seen; simpl.
  - constructor.
  - case_bool_decide; [apply sublist_cons, IH|apply sublist_skip, IH].
Qed.

(** The selection under DISTINCT has every value of the run once, in the
    order in which the values first occur. *)
Lemma first_occurrences_spec (vals : list Id) :
  NoDup (first_occurrences vals)
  ∧ sublist (first_occurrences vals) vals
  ∧ ∀ x, x ∈ first_occurrences vals ↔ x ∈ vals.
Proof.
  split; [apply distinct_from_NoDup|].
  split; [apply distinct_from_sublist|].
  intros x. unfold first_occurrences. rewrite distinct_from_elem_of. set_solver.
Qed.

(** ** SUM and AVG *)

Lemma wrap64_small (z : Z) : 0 ≤ z < 2 ^ 64 → wrap64 z = z.
Proof. intros. unfold wrap64. by apply Z.mod_small. Qed.

Lemma upto_length (s e : nat) : (s ≤ e)%nat → length (upto s e) = (e - s + 1)%nat.
Proof. intros. unfold upto. rewrite length_seq. lia. Qed.

Section Sums.
Context `{E : Externals}.

Lemma steps_add_for (ty : ResultType) (vals : list Id) (acc : float) :
  ty ≠ TEXT → ty ≠ STRING →
  steps (add_for ty) vals acc =
  Some (match mapM (summand ty) vals with
        | Some fs => fold_left fadd fs acc
        | None => quiet_NaN
        end).
Proof.
  intros Htext Hstring. revert acc.
  induction vals as [|x vals IH]; intros acc; [done|].
  assert (Hcases :
    (summand ty x = None ∧ add_for ty x acc = Some (quiet_NaN, true))
    ∨ (∃ f, summand ty x = Some f ∧ add_for ty x acc = Some (fadd acc f, false))).
  { destruct ty; simpl; try done; eauto.
    all: unfold add_kb; destruct (startsWith _ _); simpl; eauto. }
  simpl. destruct Hcases as [[-> ->]|(f & -> & ->)]; [done|].
  simpl. rewrite IH. by destruct (mapM (summand ty) vals).
Qed.

Lemma accumulate_spec (a : Aggregate) (s e : nat) (input : list Row)
    (types : list ResultType) (ty : ResultType) (vals : list Id) :
  types !! _inCol a = Some ty →
  column_cells input (_inCol a) (upto s e) = Some vals →
  accumulate a s e input types ∅
  = Some (sum_of ty (selected (_distinct a) vals), ∅).
Proof.
  intros Hty Hcells. unfold accumulate. rewrite Hty. simpl.
  assert (Hrun : ty ≠ TEXT → ty ≠ STRING →
    (for_each (visit (_distinct a) input (_inCol a) (add_for ty)) (upto s e)
              (S754_zero false, ∅)
     ≫= λ '(res, seen), Some (res, if _distinct a then ∅ else seen))
    = Some (sum_of ty (selected (_distinct a) vals), ∅)).
  { intros Htext Hstring.
    pose proof (for_each_visit_steps (_distinct a) input (_inCol a) (add_for ty)
                  (upto s e) vals (S754_zero false) ∅ Hcells) as Hloop.
    rewrite steps_add_for in Hloop by done.
    destruct (for_each _ _ _) as [[res seen]|]; [|discriminate Hloop].
    destruct Hloop as [Hres Hseen]. injection Hres as <-. simpl.
    unfold sum_of, selected, first_occurrences.
    destruct (_distinct a); [by destruct ty|].
    rewrite Hseen by done. by destruct ty. }
  destruct ty; try done; by apply Hrun.
Qed.

(** C4. For an AVG over the run [s .. e], the cell written is the
    accumulated sum divided by the run length [e - s + 1], whether or not the
    distinct flag is set: with the flag, the sum runs over the first
    occurrences of the values, and the divisor is still the run length, not
    the number of distinct values. The additions are assumed to meet no
    NaN: a NaN summand, or the sum of the two infinities, gives a NaN whose
    sign and payload the hardware chooses, and the embedding of a [float]
    does not carry them. The NaN the kernel assigns itself, for a TEXT or
    STRING column or a word that is no float literal, is not excluded. *)
Theorem AVG_divides_by_run_length (a : Aggregate) (s e : nat)
    (input : list Row) (types : list ResultType) (row : Row)
    (inTable : ResultTable) (vocab : list string)
    (ty : ResultType) (vals : list Id) :
  _type a = AVG →
  (s ≤ e)%nat → Z.of_nat (length input) < 2 ^ 64 →
  types !! _inCol a = Some ty →
  column_cells input (_inCol a) (upto s e) = Some vals →
  (_outCol a < length row)%nat →
  (∀ fs, mapM (summand ty) (selected (_distinct a) vals) = Some fs →
         float_is_nan (fold_left fadd fs (S754_zero false)) = false) →
  processGroup a s e input types row inTable vocab ∅ =
    Some (<[_outCol a :=
              bits_of_float
                (fdiv (sum_of ty (selected (_distinct a) vals))
                      (float_of_size (Z.of_nat (e - s + 1))))]> row,
          vocab, ∅)
  ∧ length vals = (e - s + 1)%nat.
Proof.
  intros Havg Hse Hsize Hty Hcells Hout _. split.
  - pose proof (column_cells_bound _ _ _ _ e Hcells (upto_end s e Hse)) as He.
    unfold processGroup. rewrite Havg.
    rewrite (accumulate_spec a s e input types ty vals) by done. simpl.
    rewrite wrap64_small by lia.
    unfold set_cell. rewrite decide_True by done. simpl.
    by replace (Z.of_nat e - Z.of_nat s + 1) with (Z.of_nat (e - s + 1)) by lia.
  - rewrite (column_cells_length _ _ _ _ Hcells). by apply upto_length.
Qed.

End Sums.

(** The distinct average of 1, 2, 1 is (1 + 2) / 3 = 1, not 3 / 2. *)
Lemma AVG_divides_by_run_length_witness :
  processGroup (E := example_externals) (mkAggregate AVG 0 0 None true) 0 2
    [[1]; [2]; [1]] [VERBATIM] [0] (example_table [VERBATIM] [[1]; [2]; [1]] [])
    [] ∅
  = Some ([bits_of_float (float_of_size 1)], [], ∅).
Proof.
  pose proof (AVG_divides_by_run_length (E := example_externals)
                (mkAggregate AVG 0 0 None true) 0 2 [[1]; [2]; [1]] [VERBATIM]
                [0] (example_table [VERBATIM] [[1]; [2]; [1]] []) []
                VERBATIM [1; 2; 1]) as H.
  destruct H as [H _];
    [reflexivity | lia | reflexivity | reflexivity | reflexivity | simpl; lia
    | intros fs Hfs; vm_compute in Hfs; injection Hfs as <-; reflexivity |].
  exact H.
Defined.

(** ** C5: when SUM and AVG are NaN *)


Section NaN.
Context `{E : Externals}.









End NaN.


(** ** GROUP_CONCAT *)

Lemma string_app_assoc (s1 s2 s3 : string) :
  (s1 +:+ s2) +:+ s3 = s1 +:+ (s2 +:+ s3).
Proof.
  induction s1 as [|c s1 IH]; [done|].
  change (String c ((s1 +:+ s2) +:+ s3) = String c (s1 +:+ (s2 +:+ s3))).
  by rewrite IH.
Qed.

Lemma string_app_nil_r (s : string) : s +:+ "" = s.
Proof.
  induction s as [|c s IH]; [done|].
  change (String c (s +:+ "") = String c s). by rewrite IH.
Qed.

Lemma upto_before (s e : nat) : (s ≤ e)%nat → upto s e = before s e ++ [e].
Proof.
  intros H. unfold upto, before.
  replace (S e - s)%nat with (S (e - s)) by lia.
  rewrite seq_S. do 2 f_equal. lia.
Qed.

Lemma column_cells_snoc (input : list Row) (c : nat) (idxs : list nat) (e : nat)
    (vals : list Id) :
  column_cells input c (idxs ++ [e]) = Some vals →
  ∃ init last, column_cells input c idxs = Some init
               ∧ cell input e c = Some last ∧ vals = init ++ [last].
Proof.
  revert vals. induction idxs as [|i idxs IH]; intros vals H.
  - apply column_cells_cons in H as (x & rest & Hx & Hrest & ->).
    injection Hrest as <-. by exists [], x.
  - apply column_cells_cons in H as (x & rest & Hx & Hrest & ->).
    apply IH in Hrest as (init & last & Hinit & Hlast & ->).
    exists (x :: init), last. split; [|done].
    apply column_cells_cons. eauto.
Qed.

(** Joining with a separator is what the loop of GROUP_CONCAT builds when
    every value but the last is followed by the separator. *)
Lemma join_fold (delim : string) (dec : Id → string) (init : list Id)
    (last : Id) (acc : string) :
  fold_left (λ out x, out +:+ dec x +:+ delim) init acc +:+ dec last
  = acc +:+ String.concat delim (dec <$> init ++ [last]).
Proof.
  revert acc. induction init as [|x init IH]; intros acc; [done|].
  cbn [fold_left]. rewrite IH.
  rewrite !string_app_assoc. f_equal.
  change (dec <$> (x :: init) ++ [last]) with (dec x :: (dec <$> init ++ [last])).
  destruct (dec <$> init ++ [last]) as [|y l] eqn:Hl; [|done].
  by destruct init.
Qed.

Section Concat.
Context `{E : Externals}.

Lemma emit_delim_text (a : Aggregate) (ty : ResultType) (inTable : ResultTable)
    (delim : string) (x : Id) (out : string) :
  _userData a = Some delim → is_Some (concat_decode ty inTable x) →
  emit_delim a ty inTable x out
  = Some (out +:+ concat_text ty inTable x +:+ delim, false).
Proof.
  intros Hdelim [v Hv]. unfold emit_delim, concat_text. by rewrite Hv, Hdelim.
Qed.

Lemma emit_plain_text (ty : ResultType) (inTable : ResultTable)
    (x : Id) (out : string) :
  is_Some (concat_decode ty inTable x) →
  emit_plain ty inTable x out = Some (out +:+ concat_text ty inTable x).
Proof. intros [v Hv]. unfold emit_plain, concat_text. by rewrite Hv. Qed.

(** What [group_concat] builds, with and without the distinct flag. *)
Lemma group_concat_shape (a : Aggregate) (s e : nat) (input : list Row)
    (types : list ResultType) (inTable : ResultTable)
    (ty : ResultType) (delim : string) (init : list Id) (last : Id) :
  (s ≤ e)%nat →
  types !! _inCol a = Some ty →
  _userData a = Some delim →
  column_cells input (_inCol a) (upto s e) = Some (init ++ [last]) →
  Forall (λ x, is_Some (concat_decode ty inTable x)) (init ++ [last]) →
  group_concat a s e input types inTable ∅ =
  Some (if _distinct a
        then fold_left (λ out x, out +:+ concat_text ty inTable x +:+ delim)
                       (first_occurrences init) EmptyString
             +:+ last_text ty inTable delim init last
        else String.concat delim (concat_text ty inTable <$> init ++ [last]),
        ∅).
Proof.
  intros Hse Hty Hdelim Hcells Hdec.
  rewrite upto_before in Hcells by done.
  apply column_cells_snoc in Hcells as (init' & last' & Hinit & Hlast & Heq).
  apply app_inj_tail in Heq as [<- <-].
  apply Forall_app in Hdec as [Hdec_init Hdec_last].
  rewrite Forall_singleton in Hdec_last.
  unfold group_concat. rewrite Hty. cbn [mbind option_bind].
  rewrite (for_each_visit_fold (_distinct a) input (_inCol a) _
             (λ x out, out +:+ concat_text ty inTable x +:+ delim)
             (before s e) init EmptyString ∅ Hinit).
  2:{ intros x out Hx. apply emit_delim_text; [done|].
      rewrite Forall_forall in Hdec_init. by apply Hdec_init. }
  cbn [mbind option_bind]. rewrite Hlast. cbn [mbind option_bind].
  destruct (_distinct a).
  - unfold last_text, first_occurrences.
    rewrite (bool_decide_ext (last ∈ list_to_set init ∪ (∅ : gset Z)) (last ∈ init))
      by set_solver.
    case_bool_decide.
    + cbn [mbind option_bind]. by rewrite string_app_nil_r.
    + destruct ty.
      2:{ rewrite (emit_delim_text a VERBATIM inTable delim) by done. done. }
      all: by rewrite emit_plain_text by exact Hdec_last.
  - rewrite emit_plain_text by done. cbn [mbind option_bind].
    by rewrite join_fold.
Qed.

End Concat.

(** C1 (the code departs from the claim). With the distinct flag the
    separator is printed after the last element as well: when the value of
    the last row already occurred in the run, as in [a, b, a], the output
    ends in the separator that followed [b]; and on a VERBATIM column the
    branch for the last row prints the separator itself. Without the flag the
    values are joined as claimed. *)
Theorem GROUP_CONCAT_distinct_trailing_separator :
  let a d c := mkAggregate GROUP_CONCAT c 0 (Some ",") d in
  let data := [[1; 0]; [2; 1]; [1; 0]] in
  let types := [VERBATIM; STRING] in
  let tab := example_table types data ["a"; "b"] in
  group_concat (E := example_externals) (a true 1%nat) 0 2 data types tab ∅
    = Some ("a,b,", ∅)
  ∧ group_concat (E := example_externals) (a true 0%nat) 0 1 data types tab ∅
    = Some ("1,2,", ∅)
  ∧ group_concat (E := example_externals) (a false 1%nat) 0 2 data types tab ∅
    = Some ("a,b,a", ∅).
Proof. by vm_compute. Qed.

(** ** C9: GROUP_CONCAT cells and the local vocabulary *)

Lemma set_cell_Some (row : Row) (c : nat) (v : Id) (row' : Row) :
  set_cell row c v = Some row' ↔ (c < length row)%nat ∧ row' = <[c := v]> row.
Proof. unfold set_cell. case_decide; naive_solver. Qed.

Section Vocab.
Context `{E : Externals}.

(** What a kernel call leaves untouched: the width of the row, the cells
    of the other columns, and the entries the vocabulary already has. Only
    GROUP_CONCAT appends, one entry, and writes its former size. *)
Lemma processGroup_frame (a : Aggregate) (s e : nat) (input : list Row)
    (types : list ResultType) (row : Row) (inTable : ResultTable)
    (vocab : list string) (seen : gset Z)
    (row' : Row) (vocab' : list string) (seen' : gset Z) :
  processGroup a s e input types row inTable vocab seen = Some (row', vocab', seen') →
  (∃ v, (_outCol a < length row)%nat ∧ row' = <[_outCol a := v]> row
        ∧ (_type a = GROUP_CONCAT → v = Z.of_nat (length vocab)))
  ∧ (if decide (_type a = GROUP_CONCAT)
     then ∃ out, vocab' = vocab ++ [out]
     else vocab' = vocab).
Proof.
  unfold processGroup. intros H.
  destruct (_type a) eqn:Hty; simpl.
  all: split_binds H.
  all: injection H as <- <- <-.
  all: match goal with
       | Hc : set_cell _ _ _ = Some _ |- _ => apply set_cell_Some in Hc as [? ->]
       end.
  all: split; [eexists; split; [done|split; [done|]]; try done|eauto].
Qed.

Lemma processAggregates_cells (aggregates : list Aggregate) (s e : nat)
    (input : list Row) (types : list ResultType) (inTable : ResultTable)
    (row : Row) (vocab : list string) (seen : gset Z)
    (row' : Row) (vocab' : list string) (seen' : gset Z) :
  NoDup (_outCol <$> aggregates) →
  processAggregates aggregates s e input types inTable (row, vocab, seen)
    = Some (row', vocab', seen') →
  vocab `prefix_of` vocab'
  ∧ (∀ c, c ∉ (_outCol <$> aggregates) → row' !! c = row !! c)
  ∧ Forall (vocab_cell_ok vocab' row') aggregates.
Proof.
  revert row vocab seen.
  induction aggregates as [|a rest IH]; intros row vocab seen Hnodup H.
  - injection H as <- <- <-. by repeat split.
  - cbn [processAggregates mbind option_bind fst snd] in H.
    destruct (processGroup a s e input types row inTable vocab seen)
      as [[[row1 vocab1] seen1]|] eqn:Hfirst; [|done].
    cbn [mbind option_bind] in H.
    apply NoDup_cons in Hnodup as [Hfresh Hnodup].
    apply processGroup_frame in Hfirst as [(v & Hlt & -> & Hv) Hvocab].
    destruct (IH _ _ _ Hnodup H) as (Hpre & Hother & Hrest).
    assert (Hpre1 : vocab `prefix_of` vocab1).
    { destruct (decide (_type a = GROUP_CONCAT)).
      - destruct Hvocab as [out ->]. by apply prefix_app_r.
      - by rewrite Hvocab. }
    split; [by etrans|]. split.
    + intros c Hc. rewrite fmap_cons, not_elem_of_cons in Hc.
      rewrite Hother by tauto. apply list_lookup_insert_ne. naive_solver.
    + constructor; [|done]. intros Hgc.
      rewrite decide_True in Hvocab by done. destruct Hvocab as [out ->].
      exists (length vocab). rewrite Hother by done.
      rewrite list_lookup_insert_eq by done. rewrite Hv by done.
      split; [done|]. apply prefix_length in Hpre.
      rewrite length_app in Hpre. simpl in Hpre. lia.
Qed.

End Vocab.

Lemma for_each_invariant {S : Type} (P : S → Prop)
    (body : nat → S → option (S * bool)) (idxs : list nat) (s s' : S) :
  (∀ i st st' b, P st → body i st = Some (st', b) → P st') →
  P s → for_each body idxs s = Some s' → P s'.
Proof.
  intros Hbody. revert s.
  induction idxs as [|i idxs IH]; intros s Hs H; simpl in H.
  - by injection H as <-.
  - destruct (body i s) as [[st [|]]|] eqn:Hstep; [| |done].
    + injection H as <-. by eapply Hbody.
    + eapply IH; [|done]. by eapply Hbody.
Qed.

Lemma vocab_cell_ok_prefix (vocab vocab' : list string) (row : Row)
    (a : Aggregate) :
  vocab `prefix_of` vocab' → vocab_cell_ok vocab row a → vocab_cell_ok vocab' row a.
Proof.
  intros Hpre Hok Hgc. destruct (Hok Hgc) as (idx & Hidx & Hlt).
  exists idx. split; [done|]. apply prefix_length in Hpre. lia.
Qed.

Lemma table_cells_ok_prefix (aggregates : list Aggregate)
    (vocab vocab' : list string) (table : list Row) :
  vocab `prefix_of` vocab' →
  table_cells_ok aggregates vocab table → table_cells_ok aggregates vocab' table.
Proof.
  intros Hpre Hok. unfold table_cells_ok.
  eapply Forall_impl; [exact Hok|]. intros row Hrow. simpl in Hrow.
  eapply Forall_impl; [exact Hrow|]. intros a. by apply vocab_cell_ok_prefix.
Qed.

Section Published.
Context `{E : Externals}.

Lemma emit_run_cells (kind : RowKind) (width : nat) (aggregates : list Aggregate)
    (s e : nat) (input : list Row) (types : list ResultType)
    (inTable : ResultTable) (st st' : list Row * list string * gset Z) :
  NoDup (_outCol <$> aggregates) →
  table_cells_ok aggregates st.1.2 st.1.1 →
  emit_run kind width aggregates s e input types inTable st = Some st' →
  table_cells_ok aggregates st'.1.2 st'.1.1 ∧ st.1.2 `prefix_of` st'.1.2.
Proof.
  intros Hnodup Hok H. unfold emit_run in H.
  destruct (processAggregates _ _ _ _ _ _ _) as [[[row vocab'] seen']|] eqn:Hrow;
    [|done].
  cbn [mbind option_bind] in H. injection H as <-. simpl.
  apply processAggregates_cells in Hrow as (Hpre & _ & Hcells); [|done].
  split; [|done]. apply Forall_app. split.
  - by eapply table_cells_ok_prefix.
  - by apply Forall_singleton.
Qed.

(** The rows of the table that [doGroupBy] leaves behind hold, in their
    GROUP_CONCAT columns, indices below the size of the local vocabulary it
    leaves behind, provided no two aggregates write the same column. *)
Lemma doGroupBy_vocab_cells (kind : RowKind) (input : list Row)
    (types : list ResultType) (groupByCols : list nat)
    (aggregates : list Aggregate) (result : list Row) (inTable : ResultTable)
    (vocab : list string) (result' : list Row) (vocab' : list string) :
  NoDup (_outCol <$> aggregates) →
  table_cells_ok aggregates vocab result →
  doGroupBy kind input types groupByCols aggregates result inTable vocab
    = Some (result', vocab') →
  table_cells_ok aggregates vocab' result' ∧ vocab `prefix_of` vocab'.
Proof.
  intros Hnodup Hok H. unfold doGroupBy in H.
  destruct (length input =? 0)%nat; [by injection H as <- <-|].
  set (P := λ st : list Row * list string * gset Z,
              table_cells_ok aggregates st.1.2 st.1.1 ∧ vocab `prefix_of` st.1.2).
  assert (Hemit : ∀ w s e st st',
            P st → emit_run kind w aggregates s e input types inTable st = Some st' →
            P st').
  { intros w s e st st' [Hst Hpre] Hrun.
    apply emit_run_cells in Hrun as [Hst' Hpre']; [|done..].
    split; [done|by etrans]. }
  assert (Hstart : P (result, vocab, ∅)) by done.
  destruct groupByCols as [|col cols].
  - destruct (emit_run _ _ _ _ _ _ _ _ _) as [st|] eqn:Hrun; [|done].
    cbn [mbind option_bind] in H. injection H as <- <-.
    by apply (Hemit _ _ _ _ _ Hstart Hrun).
  - destruct (read_key input 0 (col :: cols)) as [key|]; [|done].
    cbn [mbind option_bind] in H.
    destruct (for_each _ _ _) as [[[st blockStart] key']|] eqn:Hloop; [|done].
    cbn [mbind option_bind] in H.
    assert (Hst : P st).
    { apply (for_each_invariant (λ s : SplitState, P s.1.1)) in Hloop; [done| |done].
      clear H. intros i [[st0 bs0] key0] [[st1 bs1] key1] b Hst0 Hstep.
      unfold split_step in Hstep.
      destruct (rowMatchesCurrentBlock _ _ _) as [[|]|]; [| |done].
      - by injection Hstep as <- <- <- <-.
      - cbn [mbind option_bind] in Hstep.
        destruct (emit_run _ _ _ _ _ _ _ _ _) as [st2|] eqn:Hrun2; [|done].
        cbn [mbind option_bind] in Hstep.
        destruct (read_key _ _ _); cbn [mbind option_bind] in Hstep; [|done].
        injection Hstep as <- <- <- <-.
        by apply (Hemit _ _ _ _ _ Hst0 Hrun2). }
    destruct (emit_run _ _ _ _ _ _ _ _ _) as [st'|] eqn:Hrun; [|done].
    cbn [mbind option_bind] in H. injection H as <- <-.
    by apply (Hemit _ _ _ _ _ Hst Hrun).
Qed.

(** C9. A GROUP_CONCAT kernel call on a run that lies in the table, with
    a separator and with text for every value, returns: it writes the size the
    local vocabulary has before the call into its cell and appends the string
    it built, so the cell holds an index below the new size, and the entry at
    that index is the string. *)
Theorem GROUP_CONCAT_cell_within_LocalVocab (a : Aggregate) (s e : nat)
    (input : list Row) (types : list ResultType) (row : Row)
    (inTable : ResultTable) (vocab : list string)
    (ty : ResultType) (delim : string) (vals : list Id) :
  _type a = GROUP_CONCAT →
  (s ≤ e)%nat →
  types !! _inCol a = Some ty →
  _userData a = Some delim →
  column_cells input (_inCol a) (upto s e) = Some vals →
  Forall (λ x, is_Some (concat_decode ty inTable x)) vals →
  (_outCol a < length row)%nat →
  ∃ (out : string) (row' : Row) (vocab' : list string),
    processGroup a s e input types row inTable vocab ∅ = Some (row', vocab', ∅)
    ∧ group_concat a s e input types inTable ∅ = Some (out, ∅)
    ∧ row' !! _outCol a = Some (Z.of_nat (length vocab))
    ∧ Z.of_nat (length vocab) < Z.of_nat (length vocab')
    ∧ vocab' !! length vocab = Some out
    ∧ vocab' = vocab ++ [out].
Proof.
  intros Hgc Hse Hty Hdelim Hcells Hdec Hout.
  assert (∃ init last, vals = init ++ [last]) as (init & last & ->).
  { rewrite upto_before in Hcells by done.
    apply column_cells_snoc in Hcells as (init & last & _ & _ & ->). eauto. }
  pose proof (group_concat_shape a s e input types inTable ty delim init last
                Hse Hty Hdelim Hcells Hdec) as Hshape.
  eexists _, (<[_outCol a := Z.of_nat (length vocab)]> row), (vocab ++ [_]).
  split; [|split; [exact Hshape|]].
  - unfold processGroup. rewrite Hgc, Hshape. cbn [mbind option_bind].
    unfold set_cell. by rewrite decide_True by done.
  - split; [by apply list_lookup_insert_eq|].
    rewrite length_app. simpl. split; [lia|]. split; [|done].
    by rewrite lookup_app_r, Nat.sub_diag by done.
Qed.

End Published.

(** The run [b, a] of a STRING column with separator [-]: the cell gets
    index 1 of a vocabulary that had one entry, and entry 1 is [b-a]. *)
Lemma GROUP_CONCAT_cell_within_LocalVocab_witness :
  ∃ (out : string) (row' : Row) (vocab' : list string),
    processGroup (E := example_externals)
      (mkAggregate GROUP_CONCAT 0 1 (Some "-") false) 0 1
      [[1]; [0]] [STRING] [0; 0] (example_table [STRING] [[1]; [0]] ["a"; "b"])
      ["earlier"] ∅ = Some (row', vocab', ∅)
    ∧ group_concat (E := example_externals)
        (mkAggregate GROUP_CONCAT 0 1 (Some "-") false) 0 1
        [[1]; [0]] [STRING] (example_table [STRING] [[1]; [0]] ["a"; "b"]) ∅
      = Some (out, ∅)
    ∧ row' !! 1%nat = Some 1
    ∧ 1 < Z.of_nat (length vocab')
    ∧ vocab' !! 1%nat = Some out
    ∧ vocab' = ["earlier"] ++ [out].
Proof.
  apply (GROUP_CONCAT_cell_within_LocalVocab (E := example_externals)
           (mkAggregate GROUP_CONCAT 0 1 (Some "-") false) 0 1
           [[1]; [0]] [STRING] [0; 0]
           (example_table [STRING] [[1]; [0]] ["a"; "b"]) ["earlier"]
           STRING "-" [1; 0]).
  - reflexivity.
  - lia.
  - reflexivity.
  - reflexivity.
  - reflexivity.
  - repeat constructor; by eexists.
  - simpl. lia.
Defined.

(** ** C2: the single group of an empty group-by list *)

Lemma cell_past_end (input : list Row) (c : nat) : cell input (length input) c = None.
Proof. unfold cell. by rewrite lookup_ge_None_2. Qed.

Section SingleGroup.
Context `{E : Externals}.

(** With no group-by column and a table that has rows, the one run handed
    to the kernels is [0 .. n], the end being the number of rows itself. *)
Lemma doGroupBy_single_group (kind : RowKind) (input : list Row)
    (types : list ResultType) (aggregates : list Aggregate) (result : list Row)
    (inTable : ResultTable) (vocab : list string) :
  input ≠ [] →
  doGroupBy kind input types [] aggregates result inTable vocab =
  (st ← emit_run kind (length aggregates) aggregates 0 (length input) input
                 types inTable (result, vocab, ∅);
   Some (st.1.1, st.1.2)).
Proof. intros Hne. unfold doGroupBy. by destruct input. Qed.

(** So a SAMPLE or LAST kernel reads the row after the last one. *)
Lemma single_group_SAMPLE_reads_past_end (kind : RowKind) (input : list Row)
    (types : list ResultType) (a : Aggregate) (rest : list Aggregate)
    (result : list Row) (inTable : ResultTable) (vocab : list string) :
  input ≠ [] → _type a = SAMPLE ∨ _type a = LAST →
  doGroupBy kind input types [] (a :: rest) result inTable vocab = None.
Proof.
  intros Hne Hty. rewrite doGroupBy_single_group by done.
  unfold emit_run. cbn [processAggregates].
  unfold processGroup. destruct Hty as [-> | ->]; by rewrite cell_past_end.
Qed.

(** And COUNT counts one row more than the table has. *)
Lemma single_group_COUNT_one_more (input : list Row) (types : list ResultType)
    (result : list Row) (inTable : ResultTable) (vocab : list string) :
  input ≠ [] → Z.of_nat (length input) + 1 < 2 ^ 64 →
  doGroupBy VarWidth input types [] [mkAggregate COUNT 0 0 None false]
            result inTable vocab
  = Some (result ++ [[Z.of_nat (length input) + 1]], vocab).
Proof.
  intros Hne Hsize. rewrite doGroupBy_single_group by done.
  unfold emit_run. cbn [processAggregates length new_row replicate].
  unfold processGroup. cbn [_type _distinct _outCol].
  cbn [fst snd]. rewrite wrap64_small by lia.
  replace (Z.of_nat (length input) - Z.of_nat 0 + 1)
    with (Z.of_nat (length input) + 1) by lia.
  done.
Qed.

End SingleGroup.

(** C2 (the code departs from the claim). On a table of one row and an
    empty group-by list, the run handed to the kernels ends at index 1, the
    number of rows: COUNT yields 2, and SAMPLE has no row to read. With a
    group-by column the same table is one run that ends at index 0 and COUNT
    yields 1. *)
Theorem single_group_block_end_is_row_count :
  let tab := example_table [VERBATIM] [[7]] [] in
  doGroupBy (E := example_externals) VarWidth [[7]] [VERBATIM] []
    [mkAggregate COUNT 0 0 None false] [] tab [] = Some ([[2]], [])
  ∧ doGroupBy (E := example_externals) VarWidth [[7]] [VERBATIM] []
      [mkAggregate SAMPLE 0 0 None false] [] tab [] = None
  ∧ doGroupBy (E := example_externals) (FixedWidth 2) [[7]] [VERBATIM] [0%nat]
      [mkAggregate SAMPLE 0 0 None false; mkAggregate COUNT 0 1 None false]
      [] tab [] = Some ([[7; 1]], []).
Proof. by vm_compute. Qed.

(** ** Strings: prefixes, occurrences, substrings *)

Lemma string_length_app (s1 s2 : string) :
  String.length (s1 +:+ s2) = (String.length s1 + String.length s2)%nat.
Proof.
  induction s1 as [|c s1 IH]; [done|].
  change (S (String.length (s1 +:+ s2)) = S (String.length s1 + String.length s2)).
  by rewrite IH.
Qed.

Lemma prefix_occurs (pat s : string) :
  String.prefix pat s = true ↔ ∃ post, s = pat +:+ post.
Proof.
  revert s. induction pat as [|a pat IH]; intros s.
  - split; [intros _; by exists s|intros _; by destruct s].
  - destruct s as [|b s]; simpl.
    + split; [done|intros [post Hpost]; discriminate Hpost].
    + destruct (ascii_dec a b) as [->|Hne].
      * rewrite IH. split; intros [post Hpost]; exists post.
        -- by rewrite Hpost.
        -- by injection Hpost.
      * split; [done|]. intros [post Hpost]. by injection Hpost.
Qed.

Lemma find_sub_occurs (pat s : string) :
  is_Some (find_sub pat s) ↔ occurs pat s.
Proof.
  induction s as [|c s IH].
  - cbn [find_sub]. destruct (String.prefix pat "") eqn:Hpre.
    + split; [intros _|intros _; by eexists].
      apply prefix_occurs in Hpre as [post Hpost]. by exists "", post.
    + split; [by intros [? ?]|]. intros (pre & post & Heq).
      destruct pre; [|discriminate Heq].
      assert (String.prefix pat "" = true) by (apply prefix_occurs; eauto).
      congruence.
  - cbn [find_sub]. destruct (String.prefix pat (String c s)) eqn:Hpre.
    + split; [intros _|intros _; by eexists].
      apply prefix_occurs in Hpre as [post Hpost]. by exists "", post.
    + rewrite fmap_is_Some, IH. split.
      * intros (pre & post & ->). by exists (String c pre), post.
      * intros (pre & post & Heq). destruct pre as [|c' pre].
        -- assert (String.prefix pat (String c s) = true)
             by (apply prefix_occurs; eauto).
           congruence.
        -- injection Heq as -> ->. by exists pre, post.
Qed.

Lemma find_sub_bound (pat s : string) (n : nat) :
  find_sub pat s = Some n → (n ≤ String.length s)%nat.
Proof.
  revert n. induction s as [|c s IH]; intros n; cbn [find_sub].
  - destruct (String.prefix pat ""); [|done]. intros [= <-]. simpl. lia.
  - destruct (String.prefix pat (String c s)); [intros [= <-]; lia|].
    destruct (find_sub pat s) as [m|]; [|done]. intros [= <-].
    specialize (IH m eq_refl). simpl. lia.
Qed.

Lemma find_first_bound (c : ascii) (s : string) (n : nat) :
  find_first c s = Some n → (n < String.length s)%nat.
Proof.
  revert n. induction s as [|a s IH]; intros n; simpl; [done|].
  destruct (Ascii.eqb a c); [intros [= <-]; lia|].
  destruct (find_first c s) as [m|]; [|done]. intros [= <-].
  specialize (IH m eq_refl). lia.
Qed.

Lemma find_last_bound (c : ascii) (s : string) (n : nat) :
  find_last c s = Some n → (n < String.length s)%nat.
Proof.
  revert n. induction s as [|a s IH]; intros n; simpl; [done|].
  destruct (find_last c s) as [m|].
  - intros [= <-]. specialize (IH m eq_refl). lia.
  - destruct (Ascii.eqb a c); [intros [= <-]; lia|done].
Qed.

Lemma occurs_refl (s : string) : occurs s s.
Proof. exists "", "". by rewrite string_app_nil_r. Qed.

Lemma occurs_trans (a b c : string) : occurs a b → occurs b c → occurs a c.
Proof.
  intros (p1 & q1 & ->) (p2 & q2 & ->).
  exists (p2 +:+ p1), (q1 +:+ q2). by rewrite !string_app_assoc.
Qed.

Lemma occurs_length (a b : string) :
  occurs a b → (String.length a ≤ String.length b)%nat.
Proof. intros (p & q & ->). rewrite !string_length_app. lia. Qed.

Lemma lstrip_occurs (chars s : string) : occurs (lstrip chars s) s.
Proof.
  induction s as [|a s IH]; simpl; [apply occurs_refl|].
  destruct (char_in chars a); [|apply occurs_refl].
  eapply occurs_trans; [exact IH|]. by exists (String a ""), "";
    rewrite string_app_nil_r.
Qed.

Lemma rstrip_prefix (chars s : string) : ∃ post, s = rstrip chars s +:+ post.
Proof.
  induction s as [|a s IH]; [by exists ""|].
  destruct IH as [post Hpost]. simpl.
  destruct (rstrip chars s) as [|r rs] eqn:Hr.
  - destruct (char_in chars a); [by exists (String a s)|by exists s].
  - exists post. simpl in Hpost. by rewrite Hpost at 1.
Qed.

Lemma rstrip_occurs (chars s : string) : occurs (rstrip chars s) s.
Proof. destruct (rstrip_prefix chars s) as [post Hpost]. by exists "", post. Qed.

Lemma substring_prefix (m : nat) (s : string) :
  ∃ post, s = String.substring 0 m s +:+ post.
Proof.
  revert m. induction s as [|c s IH]; intros [|m]; simpl; try by eexists.
  destruct (IH m) as [post Hpost]. exists post. by rewrite Hpost at 1.
Qed.

Lemma substring_occurs (n m : nat) (s : string) :
  occurs (String.substring n m s) s.
Proof.
  revert n. induction s as [|c s IH]; intros n.
  - destruct n, m; apply occurs_refl.
  - destruct n as [|n].
    + destruct (substring_prefix m (String c s)) as [post Hpost].
      by exists "", post.
    + simpl. eapply occurs_trans; [apply IH|].
      exists (String c ""), "". by rewrite string_app_nil_r.
Qed.

Lemma substring_all (s : string) : String.substring 0 (String.length s) s = s.
Proof. induction s as [|c s IH]; [done|]. simpl. by rewrite IH. Qed.

Lemma substring_drop (a b : string) :
  String.substring (String.length a) (String.length b) (a +:+ b) = b.
Proof.
  induction a as [|c a IH]; [apply substring_all|].
  change (String.substring (String.length a) (String.length b) (a +:+ b) = b).
  exact IH.
Qed.

Lemma str_substr_occurs (s : string) (pos count : Z) (r : string) :
  str_substr s pos count = Some r → occurs r s.
Proof.
  unfold str_substr. destruct (str_size s <? pos); [done|].
  intros [= <-]. apply substring_occurs.
Qed.

Lemma str_substr_is_Some (s : string) (pos count : Z) :
  pos ≤ str_size s → is_Some (str_substr s pos count).
Proof.
  intros Hpos. unfold str_substr.
  destruct (Z.ltb_spec (str_size s) pos); [lia|by eexists].
Qed.

(** Dropping a first part of known length, as [substr(8)] does. *)
Lemma str_substr_drop (a b : string) :
  str_size (a +:+ b) < 2 ^ 64 →
  str_substr (a +:+ b) (str_size a) npos = Some b.
Proof.
  unfold str_substr, str_size, npos. rewrite string_length_app. intros Hsize.
  destruct (Z.ltb_spec (Z.of_nat (String.length a + String.length b))
                       (Z.of_nat (String.length a))); [lia|].
  f_equal. rewrite Nat2Z.id.
  replace (Z.to_nat _) with (String.length b) by lia.
  apply substring_drop.
Qed.

Lemma strip_occurs (s chars : string) : occurs (strip s chars) s.
Proof.
  unfold strip. eapply occurs_trans; [apply rstrip_occurs|apply lstrip_occurs].
Qed.

(** ** C3: the distinct flag of an alias *)

Lemma has_distinct_occurs (f : string) :
  str_size f < npos →
  has_distinct f = true ↔ occurs "DISTINCT" f ∨ occurs "distinct" f.
Proof.
  intros Hsize.
  assert (Hone : ∀ pat, negb (str_find_str f pat =? npos) = true ↔ occurs pat f).
  { intros pat. rewrite <- find_sub_occurs. unfold str_find_str.
    destruct (find_sub pat f) as [n|] eqn:Hn; simpl.
    - apply find_sub_bound in Hn. unfold str_size in Hsize.
      destruct (Z.eqb_spec (Z.of_nat n) npos); [lia|].
      split; [by eexists|done].
    - split; [done|by intros [? ?]]. }
  unfold has_distinct. rewrite orb_true_iff, !Hone. done.
Qed.

Lemma bracketed_spec (start stop : Z) :
  bracketed start stop = true ↔ start < stop ∧ stop ≠ npos ∧ start ≠ npos.
Proof.
  unfold bracketed. rewrite !andb_true_iff, !negb_true_iff, Z.ltb_lt, !Z.eqb_neq.
  tauto.
Qed.

Lemma str_find_found (s : string) (c : ascii) :
  str_size s < npos → str_find s c ≠ npos →
  0 ≤ str_find s c < str_size s.
Proof.
  unfold str_find, str_size. intros Hsize Hfound.
  destruct (find_first c s) as [n|] eqn:Hn; [|done].
  apply find_first_bound in Hn. simpl. lia.
Qed.

(** The separator clause never throws. *)
Lemma parse_separator_total (f : string) (d v : Z) :
  str_size f < npos → 0 ≤ d < str_size f →
  is_Some (parse_separator f d v).
Proof.
  intros Hsize Hd. unfold parse_separator.
  rewrite (wrap64_small (d + 1)) by (unfold npos in Hsize; lia).
  destruct (str_substr_is_Some f (d + 1) (wrap64 (v - d - 1))) as [c Hc]; [lia|].
  rewrite Hc. cbn [mbind option_bind].
  destruct (bracketed _ _) eqn:Hb; [|by eexists].
  apply bracketed_spec in Hb as (_ & _ & Hstart).
  assert (Hlen : str_size (strip c " ") < npos).
  { apply str_substr_occurs in Hc.
    pose proof (occurs_length _ _ (strip_occurs c " ")).
    pose proof (occurs_length _ _ Hc). unfold str_size in *. lia. }
  pose proof (str_find_found _ _ Hlen Hstart) as Hs.
  rewrite (wrap64_small (_ + 1)) by (unfold npos in Hlen; lia).
  destruct (str_substr_is_Some (strip c " ") (str_find (strip c " ") dquote + 1)
              (wrap64 (str_rfind (strip c " ") dquote
                       - str_find (strip c " ") dquote - 1))) as [sep Hsep];
    [lia|].
  rewrite Hsep. by eexists.
Qed.

Lemma raw_argument_total (f : string) (ty : AggregateType) :
  str_size f < npos →
  bracketed (str_find f "(") (str_rfind f ")") = true →
  is_Some (raw_argument f ty).
Proof.
  intros Hsize (_ & _ & Hstart)%bracketed_spec.
  pose proof (str_find_found f "(" Hsize Hstart) as Hpos.
  unfold raw_argument.
  rewrite (wrap64_small (_ + 1)) by (unfold npos in Hsize; lia).
  destruct (decide _); apply str_substr_is_Some; lia.
Qed.

Lemma raw_argument_occurs (f : string) (ty : AggregateType) (raw : string) :
  raw_argument f ty = Some raw → occurs raw f.
Proof. unfold raw_argument. destruct (decide _); apply str_substr_occurs. Qed.

(** Inside matching brackets, [parse_argument] is: take the raw argument,
    drop 8 characters of its stripped form when the flag is set, strip. *)
Lemma parse_argument_bracketed (f : string) (a : Aggregate) (raw v : string) :
  str_size f < npos →
  bracketed (str_find f "(") (str_rfind f ")") = true →
  raw_argument f (_type a) = Some raw →
  drop_distinct (has_distinct f) raw = Some v →
  ∃ a' log, parse_argument f a = Some (a', strip v blank_tab, log)
            ∧ _distinct a' = has_distinct f.
Proof.
  intros Hsize Hbr Hraw Hdrop. unfold parse_argument, raw_argument in *.
  rewrite Hbr. destruct (decide (_type a = GROUP_CONCAT)) as [Hgc|Hgc].
  - destruct (Z.eqb_spec (str_find f ";") npos) as [Hd|Hd]; cbn [negb].
    + rewrite decide_False in Hraw by tauto.
      rewrite Hraw. cbn [mbind option_bind _distinct set_distinct].
      rewrite Hdrop. cbn [mbind option_bind]. by eexists _, _.
    + rewrite decide_True in Hraw by done.
      rewrite Hraw. cbn [mbind option_bind _distinct set_distinct].
      rewrite Hdrop. cbn [mbind option_bind].
      destruct (parse_separator_total f (str_find f ";") (str_rfind f ")"))
        as [[sep log] Hsep]; [done|by apply str_find_found|].
      rewrite Hsep. cbn [mbind option_bind]. by eexists _, _.
  - rewrite decide_False in Hraw by tauto.
    rewrite Hraw. cbn [mbind option_bind _distinct set_distinct].
    rewrite Hdrop. cbn [mbind option_bind]. by eexists _, _.
Qed.

(** C3, as the code has it. Inside matching brackets: when the stripped
    argument begins with the keyword spelled DISTINCT or distinct, the flag
    is set and the variable name is what follows the 8 characters of the
    keyword, stripped; when neither spelling occurs in the function string,
    the flag is false and the variable name is the stripped argument. *)
Theorem distinct_flag_upper_or_lower (f : string) (a : Aggregate) (raw : string) :
  str_size f < npos →
  bracketed (str_find f "(") (str_rfind f ")") = true →
  raw_argument f (_type a) = Some raw →
  (∀ kw rest : string,
     kw = "DISTINCT" ∨ kw = "distinct" →
     strip raw blank_tab = kw +:+ rest →
     ∃ a' log, parse_argument f a = Some (a', strip rest blank_tab, log)
               ∧ _distinct a' = true)
  ∧ (¬ occurs "DISTINCT" f → ¬ occurs "distinct" f →
     ∃ a' log, parse_argument f a = Some (a', strip raw blank_tab, log)
               ∧ _distinct a' = false).
Proof.
  intros Hsize Hbr Hraw. split.
  - intros kw rest Hkw Hstrip.
    assert (Hin : occurs kw f).
    { eapply occurs_trans; [|eapply occurs_trans;
        [apply (strip_occurs raw blank_tab)|by eapply raw_argument_occurs]].
      rewrite Hstrip. by exists "", rest. }
    assert (Hflag : has_distinct f = true).
    { apply has_distinct_occurs; [done|]. destruct Hkw as [-> | ->]; auto. }
    assert (Hdrop : drop_distinct (has_distinct f) raw = Some rest).
    { rewrite Hflag. unfold drop_distinct. rewrite Hstrip.
      replace 8 with (str_size kw) by (by destruct Hkw as [-> | ->]).
      apply str_substr_drop. rewrite <- Hstrip.
      pose proof (occurs_length _ _ (strip_occurs raw blank_tab)).
      pose proof (occurs_length _ _ (raw_argument_occurs _ _ _ Hraw)).
      unfold str_size, npos in *. lia. }
    destruct (parse_argument_bracketed f a raw rest Hsize Hbr Hraw Hdrop)
      as (a' & log & Hparse & Hd).
    exists a', log. by rewrite <- Hflag.
  - intros Hupper Hlower.
    assert (Hflag : has_distinct f = false).
    { apply not_true_is_false. rewrite has_distinct_occurs by done. tauto. }
    assert (Hdrop : drop_distinct (has_distinct f) raw = Some raw)
      by (by rewrite Hflag).
    destruct (parse_argument_bracketed f a raw raw Hsize Hbr Hraw Hdrop)
      as (a' & log & Hparse & Hd).
    exists a', log. by rewrite <- Hflag.
Qed.

Lemma distinct_flag_upper_or_lower_witness :
  ∃ a' log,
    parse_argument "COUNT(DISTINCT ?x)" (set_type Aggregate_emplaced COUNT)
    = Some (a', "?x", log)
    ∧ _distinct a' = true.
Proof.
  destruct (distinct_flag_upper_or_lower "COUNT(DISTINCT ?x)"
              (set_type Aggregate_emplaced COUNT) "DISTINCT ?x")
    as [Hkeyword _]; [reflexivity..|].
  apply (Hkeyword "DISTINCT" " ?x"); [by left|reflexivity].
Defined.

(** C3 as stated fails on a keyword in mixed case: [Distinct] leaves the
    flag false and stays in the variable name. *)
Lemma distinct_mixed_case_not_recognised :
  parse_argument "COUNT(Distinct ?x)" (set_type Aggregate_emplaced COUNT)
  = Some (set_type Aggregate_emplaced COUNT, "Distinct ?x", [])
  ∧ _distinct (set_type Aggregate_emplaced COUNT) = false.
Proof. by vm_compute. Qed.

(** The flag is also set by a keyword outside the argument, and [substr(8)]
    then throws on an argument shorter than 8 characters: here the keyword
    sits in the separator of a GROUP_CONCAT. *)
Lemma distinct_in_separator_throws :
  parse_argument
    ("GROUP_CONCAT(?x;SEPARATOR=" +:+ String dquote ("distinct" +:+ String dquote ")"))
    (set_type Aggregate_emplaced GROUP_CONCAT)
  = None.
Proof. by vm_compute. Qed.

(** ** C7: a missing column *)

Lemma assign_columns_is_Some (names : list string) (k : nat)
    (m : gmap string nat) (v : string) :
  v ∈ names → is_Some ((assign_columns names k m).1 !! v).
Proof.
  revert k m. induction names as [|w names IH]; intros k m Hv; [set_solver|].
  simpl. destruct (decide (v ∈ names)) as [Hin|Hout]; [by apply IH|].
  assert (v = w) as -> by set_solver.
  rewrite assign_columns_absent by done. rewrite lookup_insert_eq. by eexists.
Qed.

Lemma GroupBy_new_mapped (gb : list string) (al : list Alias) (v : string) :
  v ∈ column_names (GroupBy_new gb al) →
  is_Some (_varColMap (GroupBy_new gb al) !! v).
Proof. rewrite GroupBy_new_varColMap. apply assign_columns_is_Some. Qed.

Lemma rows_finish_empty (t : ResultTable) :
  _fixedSizeData t = None → _varSizeData t = [] →
  rows (finish_empty t) = [] ∧ _nofColumns (finish_empty t) = _nofColumns t.
Proof.
  intros Hfixed Hvar. unfold finish_empty, rows.
  destruct (small_width _); simpl; [done|]. by rewrite Hfixed, Hvar.
Qed.

(** The group-by loop: a missing variable ends it with a warning, and
    otherwise it delivers the aggregates without logging. *)
Lemma parse_groupBy_outcome (g : GroupBy) (m : gmap string nat)
    (vars : list string) (aggregates : list Aggregate) :
  (∀ v, v ∈ vars → is_Some (_varColMap g !! v)) →
  (Exists (λ v, m !! v = None) vars
   ∧ ∃ msg, parse_groupBy g m vars aggregates = (MissingColumn, [Warn msg]))
  ∨ (Forall (λ v, is_Some (m !! v)) vars
     ∧ ∃ aggregates', parse_groupBy g m vars aggregates = (Got aggregates', [])).
Proof.
  revert aggregates. induction vars as [|v vars IH]; intros aggregates Hmap.
  - right. split; [constructor|by eexists].
  - simpl. destruct (m !! v) as [col|] eqn:Hv.
    + destruct (Hmap v) as [outCol ->]; [set_solver|].
      destruct (IH (aggregates ++ [mkAggregate SAMPLE col outCol None false]))
        as [[Hex Hres]|[Hall Hres]]; [set_solver| |].
      * left. split; [by apply Exists_cons_tl|done].
      * right. split; [|done]. constructor; [by rewrite Hv|done].
    + left. split; [by apply Exists_cons_hd|by eexists].
Qed.

(** The alias loop: when an alias refers to a missing variable and the
    extraction throws for no alias before it, the loop ends on a missing
    column, at that alias or at an earlier one; the events logged are
    warnings, one at least. *)
Lemma parse_aliases_missing (g : GroupBy) (m : gmap string nat)
    (before : list Alias) (alias : Alias) (after : list Alias)
    (aggregates : list Aggregate) :
  (∀ a, a ∈ before → is_Some (_varColMap g !! _outVarName a)) →
  Forall (λ a, alias_status a ≠ Throws) before → unresolved m alias →
  ∃ log, parse_aliases g m (before ++ alias :: after) aggregates
         = (MissingColumn, log)
         ∧ Forall is_warning log ∧ log ≠ [].
Proof.
  intros Hmap Hbefore (v & Hstatus & Hv). revert aggregates.
  induction Hbefore as [|b before Hb _ IH]; intros aggregates.
  - cbn [app parse_aliases]. unfold alias_status in Hstatus.
    destruct (_isAggregate alias); [|done].
    destruct (classify (_function alias)) as [ty|]; [|done].
    destruct (parse_argument _ _) as [[[a' v'] log]|] eqn:Hparse; [|done].
    injection Hstatus as ->. rewrite Hv. eexists. split; [done|].
    split; [|by destruct log].
    apply Forall_app. split; [|by repeat constructor].
    apply parse_argument_log in Hparse as [-> | ->]; by repeat constructor.
  - cbn [app parse_aliases].
    assert (Hmap' : ∀ a, a ∈ before → is_Some (_varColMap g !! _outVarName a))
      by (intros; apply Hmap; set_solver).
    specialize (IH Hmap').
    unfold alias_status in Hb.
    destruct (_isAggregate b); [|by apply IH].
    destruct (classify (_function b)) as [ty|].
    + destruct (parse_argument _ _) as [[[a' v'] log]|] eqn:Hparse; [|done].
      assert (Hlog : Forall is_warning log).
      { apply parse_argument_log in Hparse as [-> | ->]; by repeat constructor. }
      destruct (m !! v') as [inCol|].
      * destruct (Hmap b) as [outCol ->]; [set_solver|].
        destruct (IH (aggregates ++ [set_cols a' inCol outCol]))
          as (log' & -> & Hwarn & Hne).
        eexists. split; [done|]. split; [|by destruct log].
        by apply Forall_app.
      * eexists. split; [done|]. split; [|by destruct log].
        apply Forall_app. split; [done|by repeat constructor].
    + destruct (IH aggregates) as (log' & -> & Hwarn & Hne).
      eexists. split; [done|]. split; [|done]. by constructor.
Qed.

(** ** Records the constructor can build *)

Lemma GroupBy_new_constructed (gb : list string) (al : list Alias) :
  constructed gb al (GroupBy_new gb al).
Proof.
  unfold constructed. rewrite GroupBy_new_varColMap.
  destruct (GroupBy_new_members gb al) as [-> ->].
  split; [apply (std_sort_Sorted string_lt)|].
  split; [apply std_sort_Permutation|].
  split; [apply (std_sort_Sorted alias_lt)|].
  split; [apply std_sort_Permutation|done].
Qed.

Lemma constructed_mapped (gb : list string) (al : list Alias) (g : GroupBy)
    (v : string) :
  constructed gb al g → v ∈ column_names g → is_Some (_varColMap g !! v).
Proof.
  intros (_ & _ & _ & _ & ->). apply assign_columns_is_Some.
Qed.

Lemma constructed_aliases_aggregate (gb : list string) (al : list Alias)
    (g : GroupBy) :
  constructed gb al g → Forall (λ a, _isAggregate a = true) (_aliases g).
Proof.
  intros (_ & _ & _ & Hperm & _). rewrite Hperm. apply Forall_forall.
  intros a Ha. by apply list_elem_of_filter in Ha as [Ha _].
Qed.

Section Missing.
Context `{E : Externals}.

(** X27. For every GROUP BY the constructor can build, run on a fresh
    result table: when a group-by variable is not a variable of the subtree,
    or the argument variable of an alias is not one and the extraction of
    the argument throws for no alias that the loop meets before it,
    [computeResult] finishes with a result of zero rows and the declared
    width; it logs warnings and nothing else, so the subtree is not asked
    for its result and [doGroupBy] is not called; it does not throw. The
    aliases are taken in the order the record holds them, whichever order
    [std::sort] gave to aliases of equal output name. *)
Theorem missing_column_without_throw_is_empty_result
    (gb : list string) (al : list Alias) (g : GroupBy) (m : gmap string nat)
    (subresult result : ResultTable) :
  constructed gb al g →
  _fixedSizeData result = None → _varSizeData result = [] →
  (∃ v, v ∈ _groupByVariables g ∧ m !! v = None)
  ∨ (∃ before alias after,
       _aliases g = before ++ alias :: after
       ∧ Forall (λ a, alias_status a ≠ Throws) before ∧ unresolved m alias) →
  ∃ r log,
    computeResult g m subresult result = (Finished r, log)
    ∧ rows r = []
    ∧ _nofColumns r = getResultWidth g
    ∧ Forall is_warning log ∧ log ≠ []
    ∧ (SubtreeGetResult ∉ log) ∧ (CallDoGroupBy ∉ log).
Proof.
  intros Hg Hfixed Hvar Hmissing.
  assert (Hquiet : ∀ log, Forall is_warning log →
            (SubtreeGetResult ∉ log) ∧ (CallDoGroupBy ∉ log)).
  { intros log Hlog. rewrite Forall_forall in Hlog.
    split; intros Hin%Hlog; done. }
  set (t := mkResultTable (getResultWidth g) (resultSortedOn g)
              (_resultTypes result) (_fixedSizeData result)
              (_varSizeData result) (_localVocab result)).
  destruct (rows_finish_empty t Hfixed Hvar) as [Hrows Hwidth].
  assert (Hdone : ∀ log, Forall is_warning log → log ≠ [] →
    ∃ r log', (Finished (finish_empty t), log) = (Finished r, log')
      ∧ rows r = [] ∧ _nofColumns r = getResultWidth g
      ∧ Forall is_warning log' ∧ log' ≠ []
      ∧ (SubtreeGetResult ∉ log') ∧ (CallDoGroupBy ∉ log')).
  { intros log Hlog Hne. exists (finish_empty t), log.
    by destruct (Hquiet log Hlog). }
  unfold computeResult. fold t.
  destruct (parse_groupBy_outcome g m (_groupByVariables g) [])
    as [[Hex [msg ->]]|[Hall [aggregates ->]]].
  { intros v Hv. apply (constructed_mapped gb al); [done|].
    unfold column_names. set_solver. }
  - apply Hdone; [by repeat constructor|done].
  - destruct Hmissing as [(v & Hv & Hnone)|(before & alias & after & Heq & Hres & Hun)].
    { rewrite Forall_forall in Hall. apply Hall in Hv.
      rewrite Hnone in Hv. by destruct Hv. }
    destruct (parse_aliases_missing g m before alias after aggregates)
      as (log & Hparse & Hwarn & Hne); [|done..|].
    { intros a Ha. apply (constructed_mapped gb al); [done|].
      unfold column_names. apply elem_of_app. right.
      apply list_elem_of_fmap. exists a.
      split; [done|]. rewrite Heq. set_solver. }
    rewrite Heq, Hparse. apply Hdone; [done|]. by destruct log.
Qed.

(** C7. The claim fails where [substr(8)] throws. With [?x] and [?y] the
    variables of the subtree, the alias [?n] counts [?z], which the subtree
    does not have; the alias [?a], sorted before it, is a GROUP_CONCAT of
    [?x] whose separator is the word distinct. The search for the keyword
    finds that word, [substr(8)] is applied to the two characters of the
    argument, and [computeResult] throws before it has looked up [?z], in
    whichever order the two aliases were passed in: there is no result and
    no warning. The same holds for one alias alone whose own argument [?z]
    is missing. *)
Theorem missing_column_behind_throwing_alias (subresult result : ResultTable) :
  let separator := "SEPARATOR=" +:+ String dquote ("distinct" +:+ String dquote ")") in
  let concat := mkAlias "?a" ("GROUP_CONCAT(?x;" +:+ separator) true in
  let count := mkAlias "?n" "COUNT(?z)" true in
  let alone := mkAlias "?n" ("GROUP_CONCAT(?z;" +:+ separator) true in
  let m : gmap string nat := {["?x" := 0%nat; "?y" := 1%nat]} in
  unresolved m count
  ∧ m !! "?z" = None
  ∧ computeResult (GroupBy_new ["?x"] [concat; count]) m subresult result
    = (Thrown, [])
  ∧ computeResult (GroupBy_new ["?x"] [count; concat]) m subresult result
    = (Thrown, [])
  ∧ computeResult (GroupBy_new ["?x"] [alone]) m subresult result
    = (Thrown, []).
Proof.
  intros separator concat count alone m.
  split; [by exists "?z"|]. split; [done|].
  split; [|split]; by vm_compute.
Qed.

End Missing.

(** Grouping by [?x] and counting [?z] over a subtree that has [?x] and
    [?y] only. *)
Lemma missing_column_without_throw_is_empty_result_witness :
  ∃ r log,
    computeResult (E := example_externals)
      (GroupBy_new ["?x"] [mkAlias "?n" "COUNT(?z)" true])
      {["?x" := 0%nat; "?y" := 1%nat]}
      (example_table [VERBATIM; VERBATIM] [[1; 2]] [])
      (mkResultTable 0 0 [] None [] [])
    = (Finished r, log)
    ∧ rows r = []
    ∧ _nofColumns r = getResultWidth (GroupBy_new ["?x"] [mkAlias "?n" "COUNT(?z)" true])
    ∧ Forall is_warning log ∧ log ≠ []
    ∧ (SubtreeGetResult ∉ log) ∧ (CallDoGroupBy ∉ log).
Proof.
  apply (missing_column_without_throw_is_empty_result (E := example_externals)
           ["?x"] [mkAlias "?n" "COUNT(?z)" true]
           (GroupBy_new ["?x"] [mkAlias "?n" "COUNT(?z)" true])
           {["?x" := 0%nat; "?y" := 1%nat]}
           (example_table [VERBATIM; VERBATIM] [[1; 2]] [])
           (mkResultTable 0 0 [] None [] []));
    [apply GroupBy_new_constructed | reflexivity | reflexivity |].
  right. exists [], (mkAlias "?n" "COUNT(?z)" true), [].
  split; [reflexivity|]. split; [constructor|].
  exists "?z". split; reflexivity.
Defined.

(** ** The shared hash set

    The results above start a kernel on an empty hash set; that is how
    [doGroupBy] starts the first one, and every kernel hands the set back
    empty. *)

Lemma for_each_visit_plain {A : Type} (input : list Row) (c : nat)
    (step : Id → A → option (A * bool)) (idxs : list nat)
    (acc acc' : A) (seen seen' : gset Z) :
  for_each (visit false input c step) idxs (acc, seen) = Some (acc', seen') →
  seen' = seen.
Proof.
  intros H.
  apply (for_each_invariant (λ st : A * gset Z, st.2 = seen)) in H; [done| |done].
  intros i [a0 s0] [a1 s1] b Hs0 Hstep. simpl in *. subst s0.
  unfold visit in Hstep. destruct (cell input i c); [|done].
  cbn [mbind option_bind fst snd] in Hstep.
  destruct (step _ a0) as [[a2 brk]|]; [|done].
  by injection Hstep as _ <- _.
Qed.

Section HashSet.
Context `{E : Externals}.

Lemma accumulate_hash_set (a : Aggregate) (s e : nat) (input : list Row)
    (types : list ResultType) (res : float) (seen' : gset Z) :
  accumulate a s e input types ∅ = Some (res, seen') → seen' = ∅.
Proof.
  unfold accumulate. intros H.
  destruct (types !! _inCol a) as [ty|]; [|done].
  cbn [mbind option_bind] in H.
  assert (Hrun : ∀ step,
    for_each (visit (_distinct a) input (_inCol a) step) (upto s e)
             (S754_zero false, ∅)
    ≫= (λ '(res, seen), Some (res, if _distinct a then ∅ else seen))
    = Some (res, seen') → seen' = ∅).
  { clear H. intros step Hstep.
    destruct (for_each _ _ _) as [[r seen]|] eqn:Hloop; [|done].
    cbn [mbind option_bind] in Hstep. injection Hstep as _ <-.
    destruct (_distinct a); [done|]. by eapply for_each_visit_plain. }
  destruct ty; try (by eapply Hrun); by injection H as _ <-.
Qed.

Lemma group_concat_hash_set (a : Aggregate) (s e : nat) (input : list Row)
    (types : list ResultType) (inTable : ResultTable)
    (out : string) (seen' : gset Z) :
  group_concat a s e input types inTable ∅ = Some (out, seen') → seen' = ∅.
Proof.
  unfold group_concat. intros H.
  destruct (types !! _inCol a) as [ty|]; [|done].
  cbn [mbind option_bind] in H.
  destruct (for_each _ _ _) as [[o seen]|] eqn:Hloop; [|done].
  cbn [mbind option_bind] in H.
  destruct (cell input e (_inCol a)); [|done].
  cbn [mbind option_bind] in H.
  destruct (_distinct a).
  - destruct (if bool_decide _ then _ else _); [|done]. by injection H as _ <-.
  - destruct (emit_plain _ _ _ _); [|done].
    cbn [mbind option_bind] in H. injection H as _ <-.
    by eapply for_each_visit_plain.
Qed.

(** Every kernel that starts on the empty hash set leaves it empty. *)
Lemma processGroup_hash_set (a : Aggregate) (s e : nat) (input : list Row)
    (types : list ResultType) (row : Row) (inTable : ResultTable)
    (vocab : list string) (row' : Row) (vocab' : list string) (seen' : gset Z) :
  processGroup a s e input types row inTable vocab ∅ = Some (row', vocab', seen') →
  seen' = ∅.
Proof.
  unfold processGroup. intros H.
  destruct (_type a).
  all: split_binds H.
  all: injection H as _ _ <-; try done.
  all: eauto using accumulate_hash_set, group_concat_hash_set.
Qed.

End HashSet.

(** ** Worked scenarios of the specification (section 8)

    The model run end to end on the scenarios that leave the defects above
    aside. Floats appear as their bit patterns: 1.5 is 1069547520, 2.5 is
    1075838976, 3.0 is 1077936128 and 4.0 is 1082130432. *)

(** Scenario 2: COUNT with DISTINCT over (1,a), (1,b), (2,c), grouped by
    the first column. *)
Example scenario_count_distinct :
  computeResult (E := example_externals)
    (GroupBy_new ["?x"] [mkAlias "?n" "COUNT(DISTINCT ?y)" true])
    {["?x" := 0%nat; "?y" := 1%nat]}
    (example_table [VERBATIM; KB] [[1; 10]; [1; 11]; [2; 12]] [])
    (mkResultTable 0 0 [] None [] [])
  = (Finished (mkResultTable 2 0 [VERBATIM; VERBATIM]
                 (Some [[1; 2]; [2; 1]]) [] []),
     [SubtreeGetResult; CallDoGroupBy]).
Proof. by vm_compute. Qed.

(** Scenario 3: SUM over floats, (1, 1.5), (1, 2.5), (2, 3.0). *)
Example scenario_sum_floats :
  computeResult (E := example_externals)
    (GroupBy_new ["?x"] [mkAlias "?s" "SUM(?y)" true])
    {["?x" := 0%nat; "?y" := 1%nat]}
    (example_table [VERBATIM; FLOAT]
       [[1; 1069547520]; [1; 1075838976]; [2; 1077936128]] [])
    (mkResultTable 0 0 [] None [] [])
  = (Finished (mkResultTable 2 0 [VERBATIM; FLOAT]
                 (Some [[1; 1082130432]; [2; 1077936128]]) [] []),
     [SubtreeGetResult; CallDoGroupBy]).
Proof. by vm_compute. Qed.

(** Scenario 6: no rows in, no rows out, the shape kept. *)
Example scenario_empty_input :
  computeResult (E := example_externals)
    (GroupBy_new ["?x"] [mkAlias "?n" "COUNT(?y)" true])
    {["?x" := 0%nat; "?y" := 1%nat]}
    (example_table [VERBATIM; KB] [] [])
    (mkResultTable 0 0 [] None [] [])
  = (Finished (mkResultTable 2 0 [VERBATIM; VERBATIM] (Some []) [] []),
     [SubtreeGetResult; CallDoGroupBy]).
Proof. by vm_compute. Qed.

(** GROUP_CONCAT without DISTINCT, with a separator, over the strings
    a, b, a and c of the sub-result's vocabulary. *)
Example scenario_group_concat :
  computeResult (E := example_externals)
    (GroupBy_new ["?x"]
       [mkAlias "?c"
          ("GROUP_CONCAT(?y ; SEPARATOR=" +:+ String dquote ("," +:+ String dquote ")"))
          true])
    {["?x" := 0%nat; "?y" := 1%nat]}
    (example_table [VERBATIM; STRING] [[1; 0]; [1; 1]; [1; 0]; [2; 2]]
       ["a"; "b"; "c"])
    (mkResultTable 0 0 [] None [] [])
  = (Finished (mkResultTable 2 0 [VERBATIM; STRING]
                 (Some [[1; 0]; [2; 1]]) [] ["a,b,a"; "c"]),
     [SubtreeGetResult; CallDoGroupBy]).
Proof. by vm_compute. Qed.

(** ** COUNT, MIN, MAX and SUM over a run *)

Lemma for_each_cells_fold {A : Type} (f : A → Id → A) (input : list Row)
    (c : nat) (idxs : list nat) (vals : list Id) (init : A) :
  column_cells input c idxs = Some vals →
  for_each (λ i res, x ← cell input i c; Some (f res x, false)) idxs init
  = Some (fold_left f vals init).
Proof.
  revert vals init. induction idxs as [|i idxs IH]; intros vals init Hvals.
  - by injection Hvals as <-.
  - apply column_cells_cons in Hvals as (x & rest & Hx & Hrest & ->).
    cbn [for_each]. rewrite Hx. cbn [mbind option_bind fold_left].
    by apply IH.
Qed.

Lemma count_fold (l : list Id) (n : Z) :
  0 ≤ n → n + Z.of_nat (length l) < 2 ^ 64 →
  fold_left (λ count _, wrap64 (count + 1)) l n = n + Z.of_nat (length l).
Proof.
  revert n. induction l as [|x l IH]; intros n Hn Hlt; cbn [fold_left length] in *.
  - lia.
  - rewrite wrap64_small by lia. rewrite IH by lia. lia.
Qed.

Lemma first_occurrences_size (vals : list Id) :
  length (first_occurrences vals) = size (list_to_set vals : gset Z).
Proof.
  destruct (first_occurrences_spec vals) as (Hnodup & _ & Hin).
  rewrite <-(size_list_to_set (C := gset Z) (first_occurrences vals)) by done.
  f_equal. apply set_eq. intros x. rewrite !elem_of_list_to_set. apply Hin.
Qed.

Lemma run_length_wrap (s e : nat) (input : list Row) (c : nat) (vals : list Id) :
  (s ≤ e)%nat → Z.of_nat (length input) < 2 ^ 64 →
  column_cells input c (upto s e) = Some vals →
  wrap64 (Z.of_nat e - Z.of_nat s + 1) = Z.of_nat (length vals)
  ∧ length vals = (e - s + 1)%nat.
Proof.
  intros Hse Hsize Hvals.
  pose proof (column_cells_bound _ _ _ _ e Hvals (upto_end s e Hse)) as He.
  rewrite (column_cells_length _ _ _ _ Hvals), upto_length by done.
  split; [|done]. rewrite wrap64_small by lia. lia.
Qed.

Lemma fold_max_spec (l : list Id) (init : Id) :
  init ≤ fold_left Z.max l init
  ∧ Forall (λ x, x ≤ fold_left Z.max l init) l
  ∧ (fold_left Z.max l init = init ∨ fold_left Z.max l init ∈ l).
Proof.
  revert init. induction l as [|x l IH]; intros init; cbn [fold_left].
  - split; [lia|]. split; [constructor|by left].
  - destruct (IH (Z.max init x)) as (Hle & Hall & Hor).
    split; [lia|]. split; [constructor; [lia|done]|].
    destruct Hor as [Hor|Hor]; [|right; by right].
    rewrite Hor.
    destruct (Z.max_spec init x) as [[_ Hm]|[_ Hm]]; rewrite Hm.
    + right. by left.
    + by left.
Qed.

Lemma fold_min_spec (l : list Id) (init : Id) :
  fold_left Z.min l init ≤ init
  ∧ Forall (λ x, fold_left Z.min l init ≤ x) l
  ∧ (fold_left Z.min l init = init ∨ fold_left Z.min l init ∈ l).
Proof.
  revert init. induction l as [|x l IH]; intros init; cbn [fold_left].
  - split; [lia|]. split; [constructor|by left].
  - destruct (IH (Z.min init x)) as (Hle & Hall & Hor).
    split; [lia|]. split; [constructor; [lia|done]|].
    destruct Hor as [Hor|Hor]; [|right; by right].
    rewrite Hor.
    destruct (Z.min_spec init x) as [[_ Hm]|[_ Hm]]; rewrite Hm.
    + by left.
    + right. by left.
Qed.

Section CountMinMax.
Context `{E : Externals}.

(** X1. COUNT over the run [s .. e]: without DISTINCT it writes the number
    of rows of the run, with DISTINCT the number of different Ids in the
    input column; the row is otherwise unchanged, nothing is appended to
    the vocabulary and the hash set is empty again afterwards. *)
Theorem COUNT_rows_or_distinct_values (a : Aggregate) (s e : nat)
    (input : list Row) (types : list ResultType) (row : Row)
    (inTable : ResultTable) (vocab : list string) (vals : list Id) :
  _type a = COUNT →
  (s ≤ e)%nat → Z.of_nat (length input) < 2 ^ 64 →
  column_cells input (_inCol a) (upto s e) = Some vals →
  (_outCol a < length row)%nat →
  processGroup a s e input types row inTable vocab ∅ =
    Some (<[_outCol a :=
              if _distinct a then Z.of_nat (size (list_to_set vals : gset Z))
              else Z.of_nat (e - s + 1)]> row,
          vocab, ∅).
Proof.
  intros Hty Hse Hsize Hvals Hout.
  destruct (run_length_wrap s e input _ vals Hse Hsize Hvals) as [Hwrap Hlen].
  unfold processGroup. rewrite Hty.
  destruct (_distinct a).
  - rewrite (for_each_visit_fold true input (_inCol a) _
               (λ _ count, wrap64 (count + 1)) _ vals) by done.
    cbn [mbind option_bind].
    change (distinct_from ∅ vals) with (first_occurrences vals).
    rewrite (count_fold (first_occurrences vals) 0).
    + rewrite Z.add_0_l, first_occurrences_size.
      unfold set_cell. by rewrite decide_True.
    + done.
    + pose proof (sublist_length _ _ (proj1 (proj2 (first_occurrences_spec vals)))).
      pose proof (column_cells_bound _ _ _ _ e Hvals (upto_end s e Hse)).
      lia.
  - rewrite Hwrap, Hlen. unfold set_cell. by rewrite decide_True.
Qed.

(** X2. MAX and MIN over the run [s .. e]: a TEXT or STRING column gives
    [ID_NO_VALUE] without a look at the input; a column of any type but
    FLOAT gives the largest (smallest) Id of the run, compared as unsigned
    integers. The hash set is never touched. *)
Theorem MAX_MIN_of_ids (a : Aggregate) (s e : nat)
    (input : list Row) (types : list ResultType) (row : Row)
    (inTable : ResultTable) (vocab : list string) (seen : gset Z)
    (ty : ResultType) :
  _type a = MAX ∨ _type a = MIN →
  types !! _inCol a = Some ty →
  (_outCol a < length row)%nat →
  (ty = TEXT ∨ ty = STRING →
   processGroup a s e input types row inTable vocab seen =
     Some (<[_outCol a := ID_NO_VALUE]> row, vocab, seen))
  ∧ (ty ≠ TEXT → ty ≠ STRING → ty ≠ FLOAT →
     ∀ vals : list Id,
       (s ≤ e)%nat →
       column_cells input (_inCol a) (upto s e) = Some vals →
       Forall (λ x, 0 ≤ x < 2 ^ 64) vals →
       ∃ r, processGroup a s e input types row inTable vocab seen =
              Some (<[_outCol a := r]> row, vocab, seen)
            ∧ r ∈ vals
            ∧ Forall (λ x, if decide (_type a = MAX) then x ≤ r else r ≤ x) vals).
Proof.
  intros Hkind Hty Hout. split.
  - intros Htext. unfold processGroup, extremum.
    destruct Hkind as [-> | ->]; rewrite Hty; cbn [mbind option_bind];
      destruct Htext as [-> | ->]; cbn [mbind option_bind];
      unfold set_cell; by rewrite decide_True.
  - intros Hn1 Hn2 Hn3 vals Hse Hvals Hrange.
    assert (vals ≠ []) as Hne.
    { intros ->. apply column_cells_length in Hvals.
      rewrite upto_length in Hvals by done. simpl in Hvals. lia. }
    destruct Hkind as [Hk | Hk].
    + exists (fold_left Z.max vals 0).
      destruct (fold_max_spec vals 0) as (Hle & Hall & Hor).
      split; [|split].
      * unfold processGroup, extremum. rewrite Hk, Hty. cbn [mbind option_bind].
        unfold fold_cells.
        destruct ty; try done;
          rewrite (for_each_cells_fold _ input (_inCol a) _ vals) by done;
          cbn [mbind option_bind]; unfold set_cell; by rewrite decide_True.
      * destruct Hor as [Hor|Hor]; [|done].
        destruct vals as [|x vals]; [done|].
        apply Forall_cons in Hall as [Hx _]. apply Forall_cons in Hrange as [Hx0 _].
        assert (x = fold_left Z.max (x :: vals) 0) as <- by lia. by left.
      * eapply Forall_impl; [exact Hall|]. intros x Hx. by rewrite decide_True.
    + exists (fold_left Z.min vals Id_max).
      destruct (fold_min_spec vals Id_max) as (Hle & Hall & Hor).
      split; [|split].
      * unfold processGroup, extremum. rewrite Hk, Hty. cbn [mbind option_bind].
        unfold fold_cells.
        destruct ty; try done;
          rewrite (for_each_cells_fold _ input (_inCol a) _ vals) by done;
          cbn [mbind option_bind]; unfold set_cell; by rewrite decide_True.
      * destruct Hor as [Hor|Hor]; [|done].
        destruct vals as [|x vals]; [done|].
        apply Forall_cons in Hall as [Hx _]. apply Forall_cons in Hrange as [Hx0 _].
        unfold Id_max in *.
        assert (x = fold_left Z.min (x :: vals) (2 ^ 64 - 1)) as <- by lia. by left.
      * eapply Forall_impl; [exact Hall|]. intros x Hx.
        rewrite decide_False; [done|by rewrite Hk].
Qed.

End CountMinMax.

Lemma COUNT_rows_or_distinct_values_witness :
  processGroup (E := example_externals) (mkAggregate COUNT 0 0 None true) 0 2
    [[1]; [2]; [1]] [VERBATIM] [0] (example_table [VERBATIM] [[1]; [2]; [1]] [])
    [] ∅
  = Some ([2], [], ∅).
Proof.
  pose proof (COUNT_rows_or_distinct_values (E := example_externals)
                (mkAggregate COUNT 0 0 None true) 0 2 [[1]; [2]; [1]] [VERBATIM]
                [0] (example_table [VERBATIM] [[1]; [2]; [1]] []) []
                [1; 2; 1]) as H.
  rewrite H; [reflexivity | reflexivity | lia | reflexivity | reflexivity | simpl; lia].
Defined.

Lemma MAX_MIN_of_ids_witness :
  ∃ r, processGroup (E := example_externals) (mkAggregate MAX 0 0 None false) 0 2
         [[4]; [9]; [5]] [KB] [0] (example_table [KB] [[4]; [9]; [5]] []) [] ∅
       = Some (<[0%nat := r]> [0], [], ∅)
       ∧ r ∈ [4; 9; 5]
       ∧ Forall (λ x, x ≤ r) [4; 9; 5].
Proof.
  pose proof (MAX_MIN_of_ids (E := example_externals)
                (mkAggregate MAX 0 0 None false) 0 2 [[4]; [9]; [5]] [KB]
                [0] (example_table [KB] [[4]; [9]; [5]] []) [] ∅ KB) as H.
  destruct H as [_ H]; [by left | reflexivity | simpl; lia |].
  destruct (H ltac:(done) ltac:(done) ltac:(done) [4; 9; 5]) as (r & Hr & Hin & Hall);
    [lia | reflexivity | repeat constructor; lia |].
  exists r. split; [exact Hr|]. split; [exact Hin|exact Hall].
Defined.

(** ** SUM and GROUP_CONCAT as folds over the selected values *)

Lemma mapM_total {A B : Type} (f : A → B) (l : list A) :
  mapM (λ x, Some (f x)) l = Some (f <$> l).
Proof.
  induction l as [|x l IH]; [done|].
  cbn [mapM]. rewrite IH. done.
Qed.




Section SumConcat.
Context `{E : Externals}.

(** X3. SUM over the run [s .. e] writes the bits of the float sum of the
    selected values (all values, or the first occurrences with DISTINCT),
    added from left to right starting at zero: on a VERBATIM column the Ids
    themselves converted to float, on a FLOAT column the floats held in the
    Ids. The additions are assumed to meet no NaN: a NaN summand, or the
    sum of the two infinities, gives a NaN whose sign and payload the
    hardware chooses, and the embedding of a [float] does not carry them.
    The NaN the kernel assigns itself is not excluded. *)
Theorem SUM_adds_selected_values (a : Aggregate) (s e : nat)
    (input : list Row) (types : list ResultType) (row : Row)
    (inTable : ResultTable) (vocab : list string)
    (ty : ResultType) (vals : list Id) :
  _type a = SUM →
  types !! _inCol a = Some ty →
  column_cells input (_inCol a) (upto s e) = Some vals →
  (_outCol a < length row)%nat →
  (∀ fs, mapM (summand ty) (selected (_distinct a) vals) = Some fs →
         float_is_nan (fold_left fadd fs (S754_zero false)) = false) →
  processGroup a s e input types row inTable vocab ∅ =
    Some (<[_outCol a := bits_of_float (sum_of ty (selected (_distinct a) vals))]> row,
          vocab, ∅)
  ∧ (ty = VERBATIM →
     sum_of ty (selected (_distinct a) vals)
     = fold_left fadd (float_of_size <$> selected (_distinct a) vals)
                 (S754_zero false))
  ∧ (ty = FLOAT →
     sum_of ty (selected (_distinct a) vals)
     = fold_left fadd (float_of_bits <$> selected (_distinct a) vals)
                 (S754_zero false)).
Proof.
  intros Hty Htype Hvals Hout _. split; [|split].
  - unfold processGroup. rewrite Hty.
    rewrite (accumulate_spec a s e input types ty vals) by done.
    cbn [mbind option_bind]. unfold set_cell. by rewrite decide_True.
  - intros ->. unfold sum_of, summand. by rewrite mapM_total.
  - intros ->. unfold sum_of, summand. by rewrite mapM_total.
Qed.


(** X5. The hash set of the DISTINCT kernels is shared by all aggregates
    of a run; the aggregates of one run, started on the empty set, leave it
    empty, so no value seen by one kernel is ever skipped by a later one. *)
Theorem processAggregates_hash_set (aggregates : list Aggregate) (s e : nat)
    (input : list Row) (types : list ResultType) (inTable : ResultTable)
    (row : Row) (vocab : list string)
    (row' : Row) (vocab' : list string) (seen' : gset Z) :
  processAggregates aggregates s e input types inTable (row, vocab, ∅)
    = Some (row', vocab', seen') →
  seen' = ∅.
Proof.
  revert row vocab. induction aggregates as [|a rest IH]; intros row vocab Hrun.
  - cbn [processAggregates] in Hrun. by injection Hrun as _ _ <-.
  - cbn [processAggregates] in Hrun.
    destruct (processGroup a s e input types (row, vocab, ∅).1.1 inTable
                (row, vocab, ∅).1.2 (row, vocab, ∅).2)
      as [[[row1 vocab1] seen1]|] eqn:Hfirst; [|done].
    cbn [mbind option_bind] in Hrun.
    apply processGroup_hash_set in Hfirst as ->.
    by apply IH in Hrun.
Qed.

End SumConcat.

Lemma SUM_adds_selected_values_witness :
  processGroup (E := example_externals) (mkAggregate SUM 0 0 None true) 0 2
    [[1]; [2]; [1]] [VERBATIM] [0] (example_table [VERBATIM] [[1]; [2]; [1]] [])
    [] ∅
  = Some ([bits_of_float (float_of_size 3)], [], ∅).
Proof.
  pose proof (SUM_adds_selected_values (E := example_externals)
                (mkAggregate SUM 0 0 None true) 0 2 [[1]; [2]; [1]] [VERBATIM]
                [0] (example_table [VERBATIM] [[1]; [2]; [1]] []) []
                VERBATIM [1; 2; 1]) as H.
  destruct H as [H _];
    [reflexivity | reflexivity | reflexivity | simpl; lia
    | intros fs Hfs; vm_compute in Hfs; injection Hfs as <-; reflexivity |].
  rewrite H. reflexivity.
Defined.


Lemma processAggregates_hash_set_witness :
  ∃ seen' : gset Z,
    processAggregates (E := example_externals)
      [mkAggregate COUNT 0 0 None true; mkAggregate COUNT 0 1 None true] 0 1
      [[3]; [3]] [KB] (example_table [KB] [[3]; [3]] []) ([0; 0], [], ∅)
    = Some ([1; 1], [], seen')
    ∧ seen' = ∅.
Proof.
  exists ∅. split; [reflexivity|].
  exact (processAggregates_hash_set (E := example_externals)
           [mkAggregate COUNT 0 0 None true; mkAggregate COUNT 0 1 None true] 0 1
           [[3]; [3]] [KB] (example_table [KB] [[3]; [3]] []) [0; 0] []
           [1; 1] [] ∅ eq_refl).
Defined.

(** ** The runs of [doGroupBy] *)

Lemma read_key_cons (input : list Row) (pos c : nat) (cols : list nat)
    (k : list (nat * Id)) :
  read_key input pos (c :: cols) = Some k ↔
  ∃ x rest, cell input pos c = Some x ∧ read_key input pos cols = Some rest
            ∧ k = (c, x) :: rest.
Proof.
  unfold read_key. simpl. split.
  - intros H. destruct (cell input pos c) as [x|]; [simpl in H|done].
    destruct (mapM _ cols) as [rest|]; [simpl in H|done].
    injection H as <-. eauto.
  - intros (x & rest & -> & -> & ->). done.
Qed.

Lemma read_key_fst (input : list Row) (pos : nat) (cols : list nat)
    (k : list (nat * Id)) :
  read_key input pos cols = Some k → k.*1 = cols.
Proof.
  revert k. induction cols as [|c cols IH]; intros k H.
  - by injection H as <-.
  - apply read_key_cons in H as (x & rest & _ & Hrest & ->).
    simpl. f_equal. by apply IH.
Qed.

Lemma rowMatches_key (input : list Row) (pos : nat) (cols : list nat)
    (k cur : list (nat * Id)) :
  read_key input pos cols = Some k → cur.*1 = cols →
  rowMatchesCurrentBlock input pos cur = Some (bool_decide (k = cur)).
Proof.
  revert cols k. induction cur as [|[c v] cur IH]; intros cols k Hk Hcols.
  - simpl in Hcols. subst cols. by injection Hk as <-.
  - simpl in Hcols. subst cols.
    apply read_key_cons in Hk as (x & rest & Hx & Hrest & ->).
    cbn [rowMatchesCurrentBlock]. rewrite Hx. cbn [mbind option_bind].
    destruct (Z.eqb_spec x v) as [->|Hne].
    + rewrite (IH _ _ Hrest eq_refl). f_equal. apply bool_decide_ext.
      split; [by intros ->|by intros [= ->]].
    + f_equal. symmetry. apply bool_decide_eq_false. by intros [= ? ?].
Qed.

Lemma read_key_same_cell (input : list Row) (i j : nat) (cols : list nat)
    (k : list (nat * Id)) (c : nat) :
  read_key input i cols = Some k → read_key input j cols = Some k →
  c ∈ cols → is_Some (cell input i c) ∧ cell input i c = cell input j c.
Proof.
  revert k. induction cols as [|c' cols IH]; intros k Hi Hj Hc.
  - by apply elem_of_nil in Hc.
  - apply read_key_cons in Hi as (x & rest & Hx & Hrest & ->).
    apply read_key_cons in Hj as (x' & rest' & Hx' & Hrest' & [= <- <-]).
    apply elem_of_cons in Hc as [->|Hc].
    + rewrite Hx, Hx'. split; [by eexists|done].
    + by apply (IH rest).
Qed.

Lemma row_keys_lookup (input : list Row) (cols : list nat)
    (keys : list (list (nat * Id))) :
  row_keys input cols = Some keys →
  length keys = length input
  ∧ ∀ i k, keys !! i = Some k → read_key input i cols = Some k.
Proof.
  unfold row_keys. intros H.
  pose proof (length_mapM _ _ _ H) as Hlen. rewrite length_seq in Hlen.
  split; [done|]. intros i k Hk.
  apply mapM_Some_1 in H.
  destruct (Forall2_lookup_r _ _ _ _ _ H Hk) as (pos & Hpos & Hread).
  apply lookup_seq in Hpos as [-> _]. done.
Qed.

Lemma runs_from_maximal {K : Type} `{EqDecision K} (keys rest : list K) :
  ∀ (start pos : nat) (cur : K),
    drop pos keys = rest → (start < pos ≤ length keys)%nat →
    (∀ i, (start ≤ i < pos)%nat → keys !! i = Some cur) →
    maximal_runs keys start (runs_from start pos cur rest).
Proof.
  induction rest as [|k rest IH]; intros start pos cur Hdrop Hpos Hcur.
  - assert (pos = length keys) as Hend.
    { apply (f_equal length) in Hdrop. rewrite length_drop in Hdrop.
      simpl in Hdrop. lia. }
    cbn [runs_from maximal_runs]. split; [done|]. split; [lia|].
    split; [|split; [lia|lia]].
    intros i Hi. rewrite !Hcur by lia. done.
  - assert (keys !! pos = Some k) as Hk.
    { rewrite <-(Nat.add_0_r pos), <-lookup_drop, Hdrop. done. }
    assert (drop (S pos) keys = rest) as Hdrop'.
    { rewrite (drop_S _ _ _ Hk) in Hdrop. by injection Hdrop. }
    pose proof (lookup_lt_Some _ _ _ Hk) as Hlt.
    cbn [runs_from]. destruct (decide (k = cur)) as [->|Hne].
    + apply IH; [done|lia|]. intros i Hi.
      destruct (decide (i = pos)) as [->|]; [done|]. apply Hcur. lia.
    + cbn [maximal_runs]. split; [done|]. split; [lia|].
      split; [|split].
      * intros i Hi. rewrite !Hcur by lia. done.
      * intros _. replace (S (pos - 1)) with pos by lia.
        rewrite Hk, Hcur by lia. by intros [= ->].
      * replace (S (pos - 1)) with pos by lia.
        apply IH; [done|lia|]. intros i Hi.
        by replace i with pos by lia.
Qed.

Lemma run_bounds_maximal {K : Type} `{EqDecision K} (keys : list K) :
  maximal_runs keys 0 (run_bounds keys).
Proof.
  destruct keys as [|k rest]; [done|].
  apply (runs_from_maximal (k :: rest) rest 0 1 k); [done|simpl; lia|].
  intros i Hi. by replace i with 0%nat by lia.
Qed.

Section Runs.
Context `{E : Externals}.

Lemma split_loop (kind : RowKind) (cols : list nat) (aggregates : list Aggregate)
    (input : list Row) (types : list ResultType) (inTable : ResultTable)
    (rest : list (list (nat * Id))) :
  ∀ (pos start : nat) (cur : list (nat * Id))
    (st : list Row * list string * gset Z),
    cur.*1 = cols →
    (∀ i k, rest !! i = Some k → read_key input (pos + i) cols = Some k) →
    match for_each (split_step kind cols aggregates input types inTable)
                   (seq pos (length rest)) (st, start, cur) with
    | Some (st', start', _) =>
        emit_run kind (length cols + length aggregates) aggregates
                 start' (pos + length rest - 1) input types inTable st'
    | None => None
    end
    = emit_runs kind (length cols + length aggregates) aggregates input types
                inTable (runs_from start pos cur rest) st.
Proof.
  induction rest as [|k rest IH]; intros pos start cur st Hcur Hkeys.
  - cbn [length seq for_each runs_from emit_runs]. rewrite Nat.add_0_r.
    by destruct (emit_run _ _ _ _ _ _ _ _ _).
  - pose proof (Hkeys 0%nat k eq_refl) as Hk. rewrite Nat.add_0_r in Hk.
    assert (∀ i k', rest !! i = Some k' →
                    read_key input (S pos + i) cols = Some k') as Hrest.
    { intros i k' Hi. replace (S pos + i)%nat with (pos + S i)%nat by lia.
      by apply Hkeys. }
    cbn [length seq for_each runs_from]. unfold split_step at 1.
    rewrite (rowMatches_key input pos cols k cur Hk Hcur).
    cbn [mbind option_bind].
    replace (pos + S (length rest) - 1)%nat with (S pos + length rest - 1)%nat
      by lia.
    destruct (decide (k = cur)) as [->|Hne].
    + rewrite bool_decide_eq_true_2 by done. by apply IH.
    + rewrite bool_decide_eq_false_2 by done. cbn [emit_runs].
      destruct (emit_run kind _ aggregates start (pos - 1) input types inTable st)
        as [st'|]; [|done].
      cbn [mbind option_bind]. rewrite Hcur, Hk. cbn [mbind option_bind].
      apply IH; [by apply (read_key_fst input pos)|done].
Qed.

Lemma doGroupBy_runs (kind : RowKind) (input : list Row)
    (types : list ResultType) (groupByCols : list nat)
    (aggregates : list Aggregate) (result : list Row) (inTable : ResultTable)
    (vocab : list string) (keys : list (list (nat * Id))) :
  groupByCols ≠ [] →
  row_keys input groupByCols = Some keys →
  doGroupBy kind input types groupByCols aggregates result inTable vocab
  = (st ← emit_runs kind (length groupByCols + length aggregates) aggregates
                    input types inTable (run_bounds keys) (result, vocab, ∅);
     Some (st.1.1, st.1.2)).
Proof.
  intros Hcols Hkeys.
  destruct (row_keys_lookup _ _ _ Hkeys) as [Hlen Hread].
  unfold doGroupBy.
  destruct keys as [|k rest].
  { destruct input; [done|by simpl in Hlen]. }
  destruct (Nat.eqb_spec (length input) 0) as [Hzero|_].
  { simpl in Hlen. lia. }
  destruct groupByCols as [|c cols]; [done|].
  rewrite (Hread 0%nat k eq_refl). cbn [mbind option_bind run_bounds].
  simpl in Hlen. replace (length input - 1)%nat with (length rest) by lia.
  pose proof (split_loop kind (c :: cols) aggregates input types inTable rest
                1 0 k (result, vocab, ∅)
                (read_key_fst _ _ _ _ (Hread 0%nat k eq_refl))) as Hloop.
  rewrite <-Hloop.
  - replace (1 + length rest - 1)%nat with (length rest) by lia.
    by destruct (for_each _ _ _) as [[[st start] key]|].
  - intros i k' Hi. by apply (Hread (S i)).
Qed.

(** X6. How [doGroupBy] cuts the input into groups when there are
    group-by columns and every row has them: it emits one output row for
    each maximal run of adjacent rows with equal keys, in order, and hands
    the aggregates the first and the last row index of the run. The runs
    are non-empty, follow one another without gap or overlap from row 0 to
    the last row, and the row after a run carries a different key. An
    empty input has no run and changes nothing. *)
Theorem doGroupBy_splits_into_maximal_runs (kind : RowKind) (input : list Row)
    (types : list ResultType) (groupByCols : list nat)
    (aggregates : list Aggregate) (result : list Row) (inTable : ResultTable)
    (vocab : list string) (keys : list (list (nat * Id))) :
  groupByCols ≠ [] →
  row_keys input groupByCols = Some keys →
  doGroupBy kind input types groupByCols aggregates result inTable vocab
  = (st ← emit_runs kind (length groupByCols + length aggregates) aggregates
                    input types inTable (run_bounds keys) (result, vocab, ∅);
     Some (st.1.1, st.1.2))
  ∧ maximal_runs keys 0 (run_bounds keys).
Proof.
  intros Hcols Hkeys. split; [by apply doGroupBy_runs|apply run_bounds_maximal].
Qed.

End Runs.

Lemma doGroupBy_splits_into_maximal_runs_witness :
  doGroupBy (E := example_externals) (FixedWidth 2) [[1; 5]; [1; 6]; [2; 7]]
    [VERBATIM; KB] [0%nat]
    [mkAggregate SAMPLE 0 0 None false; mkAggregate COUNT 1 1 None false]
    [] (example_table [VERBATIM; KB] [[1; 5]; [1; 6]; [2; 7]] []) []
  = Some ([[1; 2]; [2; 1]], [])
  ∧ maximal_runs [[(0%nat, 1)]; [(0%nat, 1)]; [(0%nat, 2)]] 0
      [(0%nat, 1%nat); (2%nat, 2%nat)].
Proof.
  pose proof (doGroupBy_splits_into_maximal_runs (E := example_externals)
                (FixedWidth 2) [[1; 5]; [1; 6]; [2; 7]] [VERBATIM; KB] [0%nat]
                [mkAggregate SAMPLE 0 0 None false; mkAggregate COUNT 1 1 None false]
                [] (example_table [VERBATIM; KB] [[1; 5]; [1; 6]; [2; 7]] []) []
                [[(0%nat, 1)]; [(0%nat, 1)]; [(0%nat, 2)]]) as H.
  destruct H as [Hrun Hmax]; [done | reflexivity |].
  split; [|exact Hmax]. rewrite Hrun. reflexivity.
Defined.

(** ** The rows [doGroupBy] appends *)

Lemma runs_from_constant {K : Type} `{EqDecision K} (start pos : nat) (cur : K)
    (rest : list K) :
  Forall (λ k, k = cur) rest →
  runs_from start pos cur rest = [(start, pos + length rest - 1)%nat].
Proof.
  revert pos. induction rest as [|k rest IH]; intros pos Hall.
  - cbn [runs_from length]. by rewrite Nat.add_0_r.
  - apply Forall_cons in Hall as [-> Hall]. cbn [runs_from length].
    rewrite decide_True by done. rewrite IH by done. do 2 f_equal. lia.
Qed.

Lemma maximal_runs_lookup {K : Type} (keys : list K) (runs : list (nat * nat)) :
  ∀ (start j s e : nat),
    maximal_runs keys start runs → runs !! j = Some (s, e) →
    (s ≤ e < length keys)%nat
    ∧ ∀ i, (s ≤ i ≤ e)%nat → keys !! i = keys !! s.
Proof.
  induction runs as [|[s0 e0] runs IH]; intros start j s e Hmax Hj; [done|].
  cbn [maximal_runs] in Hmax. destruct Hmax as (_ & Hse & Hconst & _ & Hrest).
  destruct j as [|j].
  - by injection Hj as -> ->.
  - by apply (IH (S e0) j).
Qed.

Section Rows.
Context `{E : Externals}.

Lemma processAggregates_length (aggregates : list Aggregate) (s e : nat)
    (input : list Row) (types : list ResultType) (inTable : ResultTable)
    (st st' : Row * list string * gset Z) :
  processAggregates aggregates s e input types inTable st = Some st' →
  length st'.1.1 = length st.1.1.
Proof.
  revert st. induction aggregates as [|a rest IH]; intros st Hrun.
  - cbn [processAggregates] in Hrun. by injection Hrun as <-.
  - cbn [processAggregates] in Hrun.
    destruct (processGroup a s e input types st.1.1 inTable st.1.2 st.2)
      as [[[row1 vocab1] seen1]|] eqn:Hfirst; [|done].
    cbn [mbind option_bind] in Hrun.
    apply processGroup_frame in Hfirst as [(v & _ & -> & _) _].
    apply IH in Hrun. rewrite Hrun. cbn. by rewrite length_insert.
Qed.

Lemma processAggregates_SAMPLE (aggregates : list Aggregate) (s e : nat)
    (input : list Row) (types : list ResultType) (inTable : ResultTable)
    (st st' : Row * list string * gset Z) (a : Aggregate) :
  NoDup (_outCol <$> aggregates) → a ∈ aggregates → _type a = SAMPLE →
  processAggregates aggregates s e input types inTable st = Some st' →
  is_Some (cell input e (_inCol a))
  ∧ st'.1.1 !! _outCol a = cell input e (_inCol a).
Proof.
  revert st. induction aggregates as [|a0 rest IH]; intros st Hnodup Hin Hty Hrun.
  - by apply elem_of_nil in Hin.
  - cbn [processAggregates] in Hrun.
    destruct (processGroup a0 s e input types st.1.1 inTable st.1.2 st.2)
      as [[[row1 vocab1] seen1]|] eqn:Hfirst; [|done].
    cbn [mbind option_bind] in Hrun.
    rewrite fmap_cons in Hnodup. apply NoDup_cons in Hnodup as [Hfresh Hnodup].
    apply elem_of_cons in Hin as [->|Hin]; [|by apply (IH (row1, vocab1, seen1))].
    unfold processGroup in Hfirst. rewrite Hty in Hfirst.
    destruct (cell input e (_inCol a0)) as [x|]; [|done].
    cbn [mbind option_bind] in Hfirst.
    destruct (set_cell st.1.1 (_outCol a0) x) as [row|] eqn:Hset; [|done].
    cbn [mbind option_bind] in Hfirst. injection Hfirst as <- <- <-.
    apply set_cell_Some in Hset as [Hlt ->].
    split; [by eexists|].
    destruct st' as [[row' vocab'] seen'].
    apply processAggregates_cells in Hrun as (_ & Hframe & _); [|done].
    cbn. rewrite (Hframe _ Hfresh). by apply list_lookup_insert_eq.
Qed.

Lemma emit_runs_rows (kind : RowKind) (width : nat) (aggregates : list Aggregate)
    (input : list Row) (types : list ResultType) (inTable : ResultTable)
    (runs : list (nat * nat)) :
  ∀ st st' : list Row * list string * gset Z,
    emit_runs kind width aggregates input types inTable runs st = Some st' →
    ∃ new : list Row,
      st'.1.1 = st.1.1 ++ new
      ∧ Forall2 (λ (row : Row) (run : nat * nat),
                   ∃ vocab0 seen0 vocab1 seen1,
                     processAggregates aggregates run.1 run.2 input types inTable
                       (new_row kind width, vocab0, seen0)
                     = Some (row, vocab1, seen1))
                new runs.
Proof.
  induction runs as [|[s e] runs IH]; intros st st' Hrun.
  - cbn [emit_runs] in Hrun. injection Hrun as <-. exists [].
    by rewrite app_nil_r.
  - cbn [emit_runs] in Hrun.
    destruct (emit_run kind width aggregates s e input types inTable st)
      as [st1|] eqn:Hfirst; [|done].
    cbn [mbind option_bind] in Hrun.
    apply IH in Hrun as (new & Hnew & Hall).
    unfold emit_run in Hfirst.
    destruct (processAggregates _ _ _ _ _ _ _) as [[[row vocab1] seen1]|] eqn:Hrow;
      [|done].
    cbn [mbind option_bind] in Hfirst. injection Hfirst as <-.
    exists (row :: new). split.
    + rewrite Hnew. cbn. by rewrite <-app_assoc.
    + constructor; [|done]. by exists st.1.2, st.2, vocab1, seen1.
Qed.

End Rows.

Lemma new_row_length (kind : RowKind) (groupByCols : list nat)
    (aggregates : list Aggregate) :
  length (new_row kind (length groupByCols + length aggregates))
  = row_width kind groupByCols aggregates.
Proof. destruct kind; cbn; by rewrite length_replicate. Qed.

Lemma row_keys_no_columns (input : list Row) (keys : list (list (nat * Id))) :
  row_keys input [] = Some keys → Forall (λ k, k = []) keys.
Proof.
  intros H. apply row_keys_lookup in H as [_ H].
  apply Forall_lookup. intros i k Hk. apply H in Hk. by injection Hk.
Qed.

Section Appended.
Context `{E : Externals}.

Lemma doGroupBy_as_runs (kind : RowKind) (input : list Row)
    (types : list ResultType) (groupByCols : list nat)
    (aggregates : list Aggregate) (result : list Row) (inTable : ResultTable)
    (vocab : list string) (keys : list (list (nat * Id)))
    (result' : list Row) (vocab' : list string) :
  row_keys input groupByCols = Some keys →
  doGroupBy kind input types groupByCols aggregates result inTable vocab
    = Some (result', vocab') →
  ∃ (runs : list (nat * nat)) (st : list Row * list string * gset Z),
    emit_runs kind (length groupByCols + length aggregates) aggregates input
              types inTable runs (result, vocab, ∅) = Some st
    ∧ result' = st.1.1 ∧ vocab' = st.1.2
    ∧ length runs = length (run_bounds keys)
    ∧ (groupByCols ≠ [] → runs = run_bounds keys).
Proof.
  intros Hkeys Hrun.
  destruct (decide (groupByCols = [])) as [->|Hcols].
  - pose proof (row_keys_no_columns _ _ Hkeys) as Hall.
    apply row_keys_lookup in Hkeys as [Hlen _].
    unfold doGroupBy in Hrun.
    destruct (Nat.eqb_spec (length input) 0) as [Hzero|Hpos].
    + injection Hrun as <- <-. exists [], (result, vocab, ∅).
      destruct keys; [done|]. simpl in Hlen. lia.
    + destruct (emit_run _ _ _ _ _ _ _ _ _) as [st|] eqn:Hemit; [|done].
      cbn [mbind option_bind] in Hrun. injection Hrun as <- <-.
      exists [(0%nat, length input)], st. cbn [emit_runs length Nat.add].
      rewrite Hemit. cbn [mbind option_bind].
      split; [done|]. split; [done|]. split; [done|]. split; [|done].
      destruct keys as [|k rest]; [simpl in Hlen; lia|].
      apply Forall_cons in Hall as [-> Hall]. cbn [run_bounds].
      by rewrite runs_from_constant.
  - rewrite (doGroupBy_runs kind input types groupByCols aggregates result
               inTable vocab keys Hcols Hkeys) in Hrun.
    destruct (emit_runs _ _ _ _ _ _ _ _) as [st|] eqn:Hemit; [|done].
    cbn [mbind option_bind] in Hrun. injection Hrun as <- <-.
    by exists (run_bounds keys), st.
Qed.

Lemma doGroupBy_new_rows (kind : RowKind) (input : list Row)
    (types : list ResultType) (groupByCols : list nat)
    (aggregates : list Aggregate) (result : list Row) (inTable : ResultTable)
    (vocab : list string) (keys : list (list (nat * Id)))
    (result' : list Row) (vocab' : list string) :
  row_keys input groupByCols = Some keys →
  doGroupBy kind input types groupByCols aggregates result inTable vocab
    = Some (result', vocab') →
  ∃ new : list Row,
    result' = result ++ new
    ∧ length new = length (run_bounds keys)
    ∧ Forall (λ row, length row = row_width kind groupByCols aggregates) new.
Proof.
  intros Hkeys Hrun.
  destruct (doGroupBy_as_runs _ _ _ _ _ _ _ _ _ _ _ Hkeys Hrun)
    as (runs & st & Hemit & -> & _ & Hlen & _).
  apply emit_runs_rows in Hemit as (new & Hnew & Hall).
  exists new. split; [done|]. split.
  - by rewrite (Forall2_length _ _ _ Hall).
  - apply (Forall2_Forall_l _ _ _ _ Hall). apply Forall_true.
    intros [s e] row (vocab0 & seen0 & vocab1 & seen1 & Hrow).
    apply processAggregates_length in Hrow. cbn in Hrow.
    by rewrite Hrow, new_row_length.
Qed.

(** X7. [doGroupBy] only appends: the rows that were in the result stay,
    and one row is added for every maximal run of equal keys (a single row
    when there are no group-by columns and the input is not empty, none for
    an empty input). Every added row has the width of the row type: that of
    the array for fixed-size rows, and [groupByCols.size() +
    aggregates.size()] for vector rows. *)
Theorem doGroupBy_appends_one_row_per_run (kind : RowKind) (input : list Row)
    (types : list ResultType) (groupByCols : list nat)
    (aggregates : list Aggregate) (result : list Row) (inTable : ResultTable)
    (vocab : list string) (keys : list (list (nat * Id)))
    (result' : list Row) (vocab' : list string) :
  row_keys input groupByCols = Some keys →
  doGroupBy kind input types groupByCols aggregates result inTable vocab
    = Some (result', vocab') →
  ∃ new : list Row,
    result' = result ++ new
    ∧ length new = length (run_bounds keys)
    ∧ Forall (λ row, length row = row_width kind groupByCols aggregates) new.
Proof. apply doGroupBy_new_rows. Qed.

(** X8. The group-by columns are passed through: with group-by columns
    present in every row and aggregates that write different output
    columns, the output row of a run holds, in the output column of each
    SAMPLE aggregate over a group-by column, the value that every row of
    the run has in that column. *)
Theorem group_key_passed_through (kind : RowKind) (input : list Row)
    (types : list ResultType) (groupByCols : list nat)
    (aggregates : list Aggregate) (result : list Row) (inTable : ResultTable)
    (vocab : list string) (keys : list (list (nat * Id)))
    (result' : list Row) (vocab' : list string) :
  groupByCols ≠ [] →
  row_keys input groupByCols = Some keys →
  NoDup (_outCol <$> aggregates) →
  doGroupBy kind input types groupByCols aggregates result inTable vocab
    = Some (result', vocab') →
  ∀ (j s e : nat),
    run_bounds keys !! j = Some (s, e) →
    ∃ row : Row,
      result' !! (length result + j)%nat = Some row
      ∧ ∀ (a : Aggregate) (i : nat),
          a ∈ aggregates → _type a = SAMPLE → _inCol a ∈ groupByCols →
          (s ≤ i ≤ e)%nat →
          is_Some (row !! _outCol a)
          ∧ row !! _outCol a = cell input i (_inCol a).
Proof.
  intros Hcols Hkeys Hnodup Hrun j s e Hj.
  destruct (doGroupBy_as_runs _ _ _ _ _ _ _ _ _ _ _ Hkeys Hrun)
    as (runs & st & Hemit & -> & _ & _ & Hruns).
  rewrite (Hruns Hcols) in Hemit. clear Hruns.
  apply emit_runs_rows in Hemit as (new & Hnew & Hall).
  destruct (Forall2_lookup_r _ _ _ _ _ Hall Hj)
    as (row & Hrow & vocab0 & seen0 & vocab1 & seen1 & Hagg).
  exists row. split.
  { rewrite Hnew. cbn. rewrite lookup_app_r by lia.
    by replace (length result + j - length result)%nat with j by lia. }
  intros a i Ha Hty Hcol Hi.
  destruct (processAggregates_SAMPLE _ _ _ _ _ _ _ _ a Hnodup Ha Hty Hagg)
    as [Hsome Hcell].
  cbn in Hcell. rewrite Hcell.
  destruct (maximal_runs_lookup keys _ 0 j s e (run_bounds_maximal keys) Hj)
    as [Hse Hconst].
  destruct (row_keys_lookup _ _ _ Hkeys) as [_ Hread].
  destruct (lookup_lt_is_Some_2 keys e ltac:(lia)) as [k Hk].
  assert (keys !! i = Some k) as Hki.
  { rewrite (Hconst i) by lia. rewrite <-(Hconst e) by lia. done. }
  destruct (read_key_same_cell input i e groupByCols k (_inCol a)
              (Hread _ _ Hki) (Hread _ _ Hk) Hcol) as [_ Heq].
  rewrite Heq. done.
Qed.

End Appended.

Lemma doGroupBy_appends_one_row_per_run_witness :
  ∃ new : list Row,
    [[1; 2]; [2; 1]] = [] ++ new
    ∧ length new = length (run_bounds [[(0%nat, 1)]; [(0%nat, 1)]; [(0%nat, 2)]])
    ∧ Forall (λ row, length row = 2%nat) new.
Proof.
  apply (doGroupBy_appends_one_row_per_run (E := example_externals)
           (FixedWidth 2) [[1; 5]; [1; 6]; [2; 7]] [VERBATIM; KB] [0%nat]
           [mkAggregate SAMPLE 0 0 None false; mkAggregate COUNT 1 1 None false]
           [] (example_table [VERBATIM; KB] [[1; 5]; [1; 6]; [2; 7]] []) []
           [[(0%nat, 1)]; [(0%nat, 1)]; [(0%nat, 2)]] [[1; 2]; [2; 1]] []);
    reflexivity.
Defined.

Lemma group_key_passed_through_witness :
  ∃ row : Row,
    [[1; 2]; [2; 1]] !! (0 + 1)%nat = Some row
    ∧ ∀ (a : Aggregate) (i : nat),
        a ∈ [mkAggregate SAMPLE 0 0 None false; mkAggregate COUNT 1 1 None false] →
        _type a = SAMPLE → _inCol a ∈ [0%nat] → (2 ≤ i ≤ 2)%nat →
        is_Some (row !! _outCol a)
        ∧ row !! _outCol a = cell [[1; 5]; [1; 6]; [2; 7]] i (_inCol a).
Proof.
  apply (group_key_passed_through (E := example_externals)
           (FixedWidth 2) [[1; 5]; [1; 6]; [2; 7]] [VERBATIM; KB] [0%nat]
           [mkAggregate SAMPLE 0 0 None false; mkAggregate COUNT 1 1 None false]
           [] (example_table [VERBATIM; KB] [[1; 5]; [1; 6]; [2; 7]] []) []
           [[(0%nat, 1)]; [(0%nat, 1)]; [(0%nat, 2)]] [[1; 2]; [2; 1]] []
           ltac:(done) eq_refl
           ltac:(repeat constructor; set_solver) eq_refl 1%nat 2%nat 2%nat eq_refl).
Defined.

(** ** Local-vocabulary indices of a whole result *)

Section PublishedTable.
Context `{E : Externals}.

(** X9. The published invariant of GROUP_CONCAT columns: when
    [callDoGroupBy] fills a fresh result table with aggregates that write
    different output columns, every GROUP_CONCAT cell of every row holds an
    index into the local vocabulary of the result, and the vocabulary the
    table had before is a prefix of the new one. *)
Theorem callDoGroupBy_vocab_cells (inputColCount resultColCount : nat)
    (subresult : ResultTable) (types : list ResultType) (groupByCols : list nat)
    (aggregates : list Aggregate) (result r : ResultTable) :
  NoDup (_outCol <$> aggregates) →
  _fixedSizeData result = None → _varSizeData result = [] →
  callDoGroupBy inputColCount resultColCount subresult types groupByCols
                aggregates result = Some r →
  table_cells_ok aggregates (_localVocab r) (rows r)
  ∧ _localVocab result `prefix_of` _localVocab r.
Proof.
  intros Hnodup Hfixed Hvar Hcall. unfold callDoGroupBy in Hcall.
  destruct (if small_width inputColCount then _ else _) as [input|]; [|done].
  cbn [mbind option_bind] in Hcall.
  destruct (small_width resultColCount).
  - destruct (doGroupBy _ _ _ _ _ _ _ _) as [[rows' vocab']|] eqn:Hrun; [|done].
    cbn [mbind option_bind] in Hcall. injection Hcall as <-.
    apply doGroupBy_vocab_cells in Hrun; [done|done|constructor].
  - destruct (doGroupBy _ _ _ _ _ _ _ _) as [[rows' vocab']|] eqn:Hrun; [|done].
    cbn [mbind option_bind] in Hcall. injection Hcall as <-.
    unfold rows, with_var. cbn. rewrite Hfixed.
    apply doGroupBy_vocab_cells in Hrun; [done|done|].
    rewrite Hvar. constructor.
Qed.

End PublishedTable.

Lemma callDoGroupBy_vocab_cells_witness :
  let aggregates := [mkAggregate SAMPLE 0 0 None false;
                     mkAggregate GROUP_CONCAT 1 1 (Some ",") false] in
  let r := mkResultTable 2 0 [] (Some [[1; 0]; [2; 1]]) [] ["a,b"; "c"] in
  table_cells_ok aggregates (_localVocab r) (rows r)
  ∧ [] `prefix_of` _localVocab r.
Proof.
  apply (callDoGroupBy_vocab_cells (E := example_externals) 2 2
           (example_table [VERBATIM; STRING] [[1; 0]; [1; 1]; [2; 2]]
              ["a"; "b"; "c"])
           [VERBATIM; STRING] [0%nat]
           [mkAggregate SAMPLE 0 0 None false;
            mkAggregate GROUP_CONCAT 1 1 (Some ",") false]
           (mkResultTable 2 0 [] None [] []));
    [repeat constructor; set_solver | reflexivity | reflexivity | reflexivity].
Defined.

(** ** The column layout: width, sort columns and cache key *)

Lemma assign_columns_dom (names : list string) (k : nat) (m : gmap string nat) :
  dom (assign_columns names k m).1 = list_to_set names ∪ dom m.
Proof.
  revert k m. induction names as [|v names IH]; intros k m; cbn [assign_columns].
  - set_solver.
  - rewrite IH, dom_insert_L. set_solver.
Qed.

Lemma column_names_length (gb : list string) (al : list Alias) :
  length (column_names (GroupBy_new gb al))
  = (length gb + length (filter (λ a, _isAggregate a = true) al))%nat.
Proof.
  unfold column_names. destruct (GroupBy_new_members gb al) as [-> ->].
  rewrite length_app, length_fmap.
  by rewrite !(Permutation_length (std_sort_Permutation _ _)).
Qed.

Lemma getResultWidth_size (gb : list string) (al : list Alias) :
  getResultWidth (GroupBy_new gb al)
  = size (list_to_set (column_names (GroupBy_new gb al)) : gset string).
Proof.
  unfold getResultWidth. rewrite GroupBy_new_varColMap.
  rewrite <-size_dom, assign_columns_dom, dom_empty_L. f_equal. set_solver.
Qed.

Lemma getResultWidth_NoDup (gb : list string) (al : list Alias) :
  NoDup (column_names (GroupBy_new gb al)) →
  getResultWidth (GroupBy_new gb al) = length (column_names (GroupBy_new gb al)).
Proof. intros Hnodup. by rewrite getResultWidth_size, size_list_to_set. Qed.

Lemma varColMap_position (gb : list string) (al : list Alias) (i : nat)
    (v : string) :
  NoDup (column_names (GroupBy_new gb al)) →
  column_names (GroupBy_new gb al) !! i = Some v →
  _varColMap (GroupBy_new gb al) !! v = Some i.
Proof.
  intros Hnodup Hi. rewrite GroupBy_new_varColMap.
  rewrite (assign_columns_lookup _ 0 ∅ i v Hi); [done|].
  intros Hin. apply list_elem_of_lookup in Hin as [j Hj].
  rewrite lookup_drop in Hj.
  pose proof (NoDup_lookup _ _ _ _ Hnodup Hi Hj). lia.
Qed.

(** X10. The width the operation declares is the number of different
    output column names. When the names of the group-by variables and of
    the aggregate aliases are pairwise different, it is the number of
    group-by variables plus the number of aggregate aliases, and the
    variable-to-column map sends exactly the i-th name of the layout to
    column i. *)
Theorem getResultWidth_counts_column_names (gb : list string) (al : list Alias) :
  let g := GroupBy_new gb al in
  getResultWidth g = length (remove_dups (column_names g))
  ∧ (NoDup (column_names g) →
     getResultWidth g
     = (length gb + length (filter (λ a, _isAggregate a = true) al))%nat
     ∧ ∀ (i : nat) (v : string),
         getVariableColumns g !! v = Some i ↔ column_names g !! i = Some v).
Proof.
  intros g. split.
  - unfold g. rewrite getResultWidth_size.
    rewrite <-(size_list_to_set (C := gset string) (remove_dups (column_names _)))
      by apply NoDup_remove_dups.
    f_equal. apply set_eq. intros x.
    by rewrite !elem_of_list_to_set, elem_of_remove_dups.
  - intros Hnodup. split.
    + unfold g. rewrite getResultWidth_NoDup by done. apply column_names_length.
    + intros i v. split; [|by apply varColMap_position].
      intros Hv.
      assert (v ∈ column_names g) as Hin.
      { apply (elem_of_list_to_set (C := gset string)).
        unfold getVariableColumns, g in Hv.
        rewrite GroupBy_new_varColMap in Hv.
        apply (elem_of_dom_2 (D := gset string)) in Hv.
        rewrite assign_columns_dom in Hv. set_solver. }
      apply list_elem_of_lookup in Hin as [j Hj].
      pose proof (varColMap_position gb al j v Hnodup Hj) as Hj'.
      unfold getVariableColumns in Hv. fold g in Hj'. rewrite Hv in Hj'.
      injection Hj' as ->. done.
Qed.

Lemma NoDup_fmap_inj_on {A B : Type} (f : A → B) (l : list A) (x y : A) :
  NoDup (f <$> l) → x ∈ l → y ∈ l → f x = f y → x = y.
Proof.
  intros Hnodup Hx Hy Hf.
  apply list_elem_of_lookup in Hx as [i Hi].
  apply list_elem_of_lookup in Hy as [j Hj].
  assert ((f <$> l) !! i = Some (f x)) as Hi' by by rewrite list_lookup_fmap, Hi.
  assert ((f <$> l) !! j = Some (f x)) as Hj'
    by by rewrite list_lookup_fmap, Hj, Hf.
  pose proof (NoDup_lookup _ _ _ _ Hnodup Hi' Hj') as ->.
  rewrite Hi in Hj. by injection Hj.
Qed.

#[local] Instance alias_sorted_trans : Transitive (sorted_by alias_lt).
Proof.
  intros a b c. unfold sorted_by, alias_lt.
  apply (string_sorted_trans (_outVarName a) (_outVarName b) (_outVarName c)).
Qed.

Lemma sorted_aliases_unique (l l' : list Alias) :
  NoDup (_outVarName <$> l) → l ≡ₚ l' →
  std_sort alias_lt l = std_sort alias_lt l'.
Proof.
  intros Hnodup Hperm.
  apply (Sorted_unique_strong (sorted_by alias_lt)).
  - intros a1 a2 H1 H2 H12 H21.
    apply (NoDup_fmap_inj_on _outVarName l); [done| | |].
    + by rewrite <-(std_sort_Permutation alias_lt l).
    + by rewrite Hperm, <-(std_sort_Permutation alias_lt l').
    + by apply (anti_symm (sorted_by string_lt)).
  - apply (std_sort_Sorted alias_lt).
  - apply (std_sort_Sorted alias_lt).
  - by rewrite !std_sort_Permutation.
Qed.

(** X11. The cache key is order invariant: two operations built from the
    same group-by variables and the same aliases, listed in any order,
    have the same [asString], provided no two aggregate aliases share their
    output variable name. *)
Theorem asString_order_invariant (gb gb' : list string) (al al' : list Alias)
    (subtree_asString : nat → string) (indent : nat) :
  gb ≡ₚ gb' → al ≡ₚ al' →
  NoDup (_outVarName <$> filter (λ a, _isAggregate a = true) al) →
  asString (GroupBy_new gb al) subtree_asString indent
  = asString (GroupBy_new gb' al') subtree_asString indent.
Proof.
  intros Hgb Hal Hnodup. unfold asString.
  destruct (GroupBy_new_members gb al) as [-> ->].
  destruct (GroupBy_new_members gb' al') as [-> ->].
  rewrite (sorted_names_unique (std_sort string_lt gb) (std_sort string_lt gb')).
  - rewrite (sorted_aliases_unique _ (filter (λ a, _isAggregate a = true) al'));
      [done|done|by rewrite Hal].
  - apply (std_sort_Sorted string_lt).
  - apply (std_sort_Sorted string_lt).
  - by rewrite !std_sort_Permutation.
Qed.

(** X12. [computeSortColumns] asks for no sorting when there is no
    group-by variable. Otherwise it lists, with the flag [false], the
    subtree column of every name of the output layout in layout order
    (column 0 for a name the subtree does not have), so its first entries
    are the group-by columns in the order [computeResult] compares them;
    the list does not depend on the order in which variables and aliases
    were given. *)
Theorem computeSortColumns_follows_layout (m : gmap string nat)
    (gb gb' : list string) (al al' : list Alias) :
  gb ≡ₚ gb' → al ≡ₚ al' →
  computeSortColumns m gb al = computeSortColumns m gb' al'
  ∧ (gb = [] → computeSortColumns m gb al = [])
  ∧ (gb ≠ [] →
     computeSortColumns m gb al
     = (λ v, (column_or_zero m v, false)) <$> column_names (GroupBy_new gb al))
  ∧ (gb ≠ [] →
     take (length gb) (computeSortColumns m gb al)
     = (λ v, (default 0%nat (m !! v), false))
         <$> _groupByVariables (GroupBy_new gb al)).
Proof.
  intros Hgb Hal.
  assert (∀ l l', l ≠ [] →
            computeSortColumns m l l'
            = (λ v, (column_or_zero m v, false))
                <$> column_names (GroupBy_new l l')) as Hlayout.
  { intros l l' Hne. unfold computeSortColumns, column_names.
    destruct l as [|v l]; [done|].
    destruct (GroupBy_new_members (v :: l) l') as [-> ->].
    rewrite fmap_app. f_equal. by rewrite <-list_fmap_compose. }
  split; [|split; [by intros ->|split; [apply Hlayout|]]].
  - destruct (decide (gb = [])) as [->|Hne].
    + symmetry in Hgb. by apply Permutation_nil_r in Hgb as ->.
    + rewrite !Hlayout; [|intros ->; by apply Permutation_nil_r in Hgb|done].
      by rewrite (column_names_permutation gb gb' al al').
  - intros Hne. rewrite (Hlayout _ _ Hne). unfold column_names.
    rewrite fmap_app, take_app_length'; [done|].
    rewrite length_fmap. destruct (GroupBy_new_members gb al) as [-> _].
    by rewrite (Permutation_length (std_sort_Permutation _ _)).
Qed.

(** ** The aggregates vector of [computeResult] *)

Lemma parse_argument_type (f : string) (a a' : Aggregate) (v : string)
    (log : list Event) :
  parse_argument f a = Some (a', v, log) → _type a' = _type a.
Proof.
  unfold parse_argument. intros H.
  destruct (decide (_type a = GROUP_CONCAT)).
  - destruct (bracketed _ _); [|simpl in H; congruence].
    destruct (negb _).
    + destruct (str_substr f _ _); [simpl in H|done].
      destruct (drop_distinct _ _); [simpl in H|done].
      destruct (parse_separator f _ _) as [[sep log']|]; [simpl in H|done].
      by injection H as <- _ _.
    + destruct (str_substr f _ _); [simpl in H|done].
      destruct (drop_distinct _ _); [simpl in H|done].
      by injection H as <- _ _.
  - destruct (bracketed _ _); [|simpl in H; congruence].
    destruct (str_substr f _ _); [simpl in H|done].
    destruct (drop_distinct _ _); [simpl in H|done].
    by injection H as <- _ _.
Qed.

Lemma describes_alias_fields (g : GroupBy) (m : gmap string nat)
    (alias : Alias) (a : Aggregate) :
  describes_alias g m alias a →
  _varColMap g !! _outVarName alias = Some (_outCol a)
  ∧ classify (_function alias) = Some (_type a)
  ∧ ∃ v, alias_status alias = Refers v ∧ m !! v = Some (_inCol a).
Proof.
  intros (Hagg & ty & a0 & v & log & inCol & outCol & Hclass & Hparse & Hv
          & Hout & ->).
  split; [done|]. split.
  - cbn. apply parse_argument_type in Hparse. by rewrite Hparse.
  - exists v. split; [|done]. unfold alias_status.
    by rewrite Hagg, Hclass, Hparse.
Qed.

Lemma parse_groupBy_Got (g : GroupBy) (m : gmap string nat) (vars : list string)
    (aggregates : list Aggregate) :
  (∀ v, v ∈ vars → is_Some (_varColMap g !! v)) →
  Forall (λ v, is_Some (m !! v)) vars →
  ∃ pseudo,
    parse_groupBy g m vars aggregates = (Got (aggregates ++ pseudo), [])
    ∧ Forall2 (describes_variable g m) vars pseudo.
Proof.
  intros Hmap Hall. revert aggregates.
  induction Hall as [|v vars [col Hcol] _ IH]; intros aggregates.
  - exists []. by rewrite app_nil_r.
  - cbn [parse_groupBy]. rewrite Hcol.
    destruct (Hmap v) as [out Hout]; [set_solver|]. rewrite Hout.
    destruct (IH ltac:(intros; apply Hmap; set_solver)
                 (aggregates ++ [mkAggregate SAMPLE col out None false]))
      as (pseudo & -> & Hpseudo).
    exists (mkAggregate SAMPLE col out None false :: pseudo).
    rewrite <-app_assoc. split; [done|].
    constructor; [|done]. by exists col, out.
Qed.

Lemma parse_aliases_Got (g : GroupBy) (m : gmap string nat)
    (aliases : list Alias) (aggregates : list Aggregate) :
  (∀ a, a ∈ aliases → is_Some (_varColMap g !! _outVarName a)) →
  Forall (resolves m) aliases →
  ∃ new log,
    parse_aliases g m aliases aggregates = (Got (aggregates ++ new), log)
    ∧ (length new ≤ length aliases)%nat
    ∧ (Exists (λ a, alias_status a = Skipped) aliases →
       (length new < length aliases)%nat)
    ∧ (Forall (λ a, alias_status a ≠ Skipped) aliases →
       Forall2 (describes_alias g m) aliases new)
    ∧ (∀ a, a ∈ aliases → _isAggregate a = true →
            classify (_function a) = None →
            Warn ("Unknown aggregate " +:+ _function a) ∈ log).
Proof.
  intros Hmap Hall. revert aggregates.
  induction Hall as [|b aliases Hb _ IH]; intros aggregates.
  - exists [], []. rewrite app_nil_r. split; [done|]. split; [done|].
    split; [by intros ?%Exists_nil|]. split; [by constructor|].
    intros a Ha. by apply elem_of_nil in Ha.
  - assert (Hmap' : ∀ a, a ∈ aliases → is_Some (_varColMap g !! _outVarName a))
      by (intros; apply Hmap; set_solver).
    specialize (IH Hmap').
    cbn [parse_aliases]. unfold resolves in Hb.
    pose proof (eq_refl (alias_status b)) as Hstatus.
    unfold alias_status at 2 in Hstatus. unfold alias_status in Hb.
    destruct (_isAggregate b) eqn:Hagg.
    + destruct (classify (_function b)) as [ty|] eqn:Hclass.
      * destruct (parse_argument _ _) as [[[a' v'] log]|] eqn:Hparse; [|done].
        destruct Hb as [inCol Hin]. rewrite Hin.
        destruct (Hmap b) as [outCol Hout]; [set_solver|]. rewrite Hout.
        destruct (IH (aggregates ++ [set_cols a' inCol outCol]))
          as (new & log' & -> & Hlen & Hskip & Hdesc & Hwarn).
        exists (set_cols a' inCol outCol :: new), (log ++ log').
        rewrite <-app_assoc. split; [done|]. cbn [length].
        split; [lia|]. split; [|split].
        -- intros [Hs|Hs]%Exists_cons; [congruence|]. specialize (Hskip Hs). lia.
        -- intros [_ Hrest]%Forall_cons. constructor; [|by apply Hdesc].
           split; [done|]. by exists ty, a', v', log, inCol, outCol.
        -- intros a [->|Ha]%elem_of_cons Ha1 Ha2; [congruence|].
           apply elem_of_app. right. by apply Hwarn.
      * destruct (IH aggregates) as (new & log' & -> & Hlen & Hskip & Hdesc & Hwarn).
        exists new, (Warn ("Unknown aggregate " +:+ _function b) :: log').
        split; [done|]. cbn [length]. split; [lia|]. split; [|split].
        -- intros _. lia.
        -- intros [Hns _]%Forall_cons. congruence.
        -- intros a [->|Ha]%elem_of_cons Ha1 Ha2; [by left|].
           right. by apply Hwarn.
    + destruct (IH aggregates) as (new & log' & -> & Hlen & Hskip & Hdesc & Hwarn).
      exists new, log'.
      split; [done|]. cbn [length]. split; [lia|]. split; [|split].
      * intros _. lia.
      * intros [Hns _]%Forall_cons. congruence.
      * intros a [->|Ha]%elem_of_cons Ha1 Ha2; [congruence|]. by apply Hwarn.
Qed.

Lemma GroupBy_new_aliases_aggregate (gb : list string) (al : list Alias) :
  Forall (λ a, _isAggregate a = true) (_aliases (GroupBy_new gb al)).
Proof.
  destruct (GroupBy_new_members gb al) as [_ ->].
  rewrite std_sort_Permutation. apply Forall_forall.
  intros a Ha. by apply list_elem_of_filter in Ha as [Ha _].
Qed.


Lemma parsed_aggregates (gb : list string) (al : list Alias)
    (m : gmap string nat) :
  let g := GroupBy_new gb al in
  Forall (λ v, is_Some (m !! v)) (_groupByVariables g) →
  Forall (resolves m) (_aliases g) →
  ∃ pseudo new log,
    parse_groupBy g m (_groupByVariables g) [] = (Got pseudo, [])
    ∧ parse_aliases g m (_aliases g) pseudo = (Got (pseudo ++ new), log)
    ∧ Forall2 (describes_variable g m) (_groupByVariables g) pseudo
    ∧ (Exists (λ a, classify (_function a) = None) (_aliases g) →
       (length new < length (_aliases g))%nat)
    ∧ (Forall (λ a, alias_status a ≠ Skipped) (_aliases g) →
       Forall2 (describes_alias g m) (_aliases g) new)
    ∧ (∀ a, a ∈ _aliases g → classify (_function a) = None →
            Warn ("Unknown aggregate " +:+ _function a) ∈ log).
Proof.
  intros g Hvars Haliases.
  destruct (parse_groupBy_Got g m (_groupByVariables g) []) as (pseudo & Hpg & Hdesc);
    [|done|].
  { intros v Hv. apply GroupBy_new_mapped. unfold column_names. set_solver. }
  destruct (parse_aliases_Got g m (_aliases g) pseudo)
    as (new & log & Hpa & _ & Hskip & Hnew & Hwarn); [|done|].
  { intros a Ha. apply GroupBy_new_mapped. unfold column_names. set_solver. }
  pose proof (GroupBy_new_aliases_aggregate gb al) as Hagg. fold g in Hagg.
  exists pseudo, new, log. split; [done|]. split; [done|]. split; [done|].
  split; [|split; [done|]].
  - intros Hex. apply Hskip. apply Exists_exists in Hex as (a & Ha & Hnone).
    apply Exists_exists. exists a. split; [done|].
    unfold alias_status.
    rewrite (proj1 (Forall_forall _ _) Hagg a Ha), Hnone. done.
  - intros a Ha Hnone. apply Hwarn; [done| |done].
    by apply (proj1 (Forall_forall _ _) Hagg a Ha).
Qed.

Section Descriptors.
Context `{E : Externals}.

(** X13. An alias of unknown kind makes [computeResult] undefined: with
    pairwise different column names, every group-by variable present in
    the subtree and every other alias resolved, a single alias whose
    function starts with none of the seven aggregate names is warned about
    and dropped, the aggregates vector is then shorter than the declared
    width, and the loop over the result types reads behind its end. The
    subtree has been evaluated by then. *)
Theorem unknown_aggregate_reads_past_aggregates
    (gb : list string) (al : list Alias) (m : gmap string nat)
    (subresult result : ResultTable) :
  let g := GroupBy_new gb al in
  NoDup (column_names g) →
  Forall (λ v, is_Some (m !! v)) (_groupByVariables g) →
  Forall (resolves m) (_aliases g) →
  Exists (λ a, classify (_function a) = None) (_aliases g) →
  ∃ log,
    computeResult g m subresult result = (Undefined, log)
    ∧ SubtreeGetResult ∈ log
    ∧ ∀ a, a ∈ _aliases g → classify (_function a) = None →
           Warn ("Unknown aggregate " +:+ _function a) ∈ log.
Proof.
  intros g Hnodup Hvars Haliases Hunknown.
  destruct (parsed_aggregates gb al m Hvars Haliases)
    as (pseudo & new & log & Hpg & Hpa & Hdesc & Hshort & _ & Hwarn).
  fold g in Hpg, Hpa, Hdesc, Hshort, Hwarn.
  specialize (Hshort Hunknown).
  exists ([] ++ log ++ [SubtreeGetResult; CallDoGroupBy]).
  split; [|split].
  - unfold computeResult. rewrite Hpg, Hpa.
    unfold aggregate_all. cbn [_nofColumns].
    rewrite (mapM_None_2 (output_type subresult (pseudo ++ new))); [done|].
    apply Exists_exists. exists (length (pseudo ++ new)). split.
    + apply elem_of_seq. split; [lia|].
      unfold g. rewrite getResultWidth_NoDup by done. fold g.
      unfold column_names. rewrite !length_app, length_fmap.
      rewrite (Forall2_length _ _ _ Hdesc). lia.
    + unfold output_type. by rewrite lookup_ge_None_2.
  - set_solver.
  - intros a Ha Hnone. specialize (Hwarn a Ha Hnone). set_solver.
Qed.


Lemma parsed_layout (gb : list string) (al : list Alias) (m : gmap string nat) :
  let g := GroupBy_new gb al in
  NoDup (column_names g) →
  Forall (λ v, is_Some (m !! v)) (_groupByVariables g) →
  Forall (resolves m) (_aliases g) →
  Forall (λ a, alias_status a ≠ Skipped) (_aliases g) →
  ∃ pseudo new log,
    parse_groupBy g m (_groupByVariables g) [] = (Got pseudo, [])
    ∧ parse_aliases g m (_aliases g) pseudo = (Got (pseudo ++ new), log)
    ∧ Forall2 (describes_variable g m) (_groupByVariables g) pseudo
    ∧ Forall2 (describes_alias g m) (_aliases g) new
    ∧ length pseudo = length gb
    ∧ length (pseudo ++ new) = getResultWidth g
    ∧ ∀ i a, (pseudo ++ new) !! i = Some a → _outCol a = i.
Proof.
  intros g Hnodup Hvars Haliases Hknown.
  destruct (parsed_aggregates gb al m Hvars Haliases)
    as (pseudo & new & log & Hpg & Hpa & Hdesc & _ & Hnew & _).
  fold g in Hpg, Hpa, Hdesc, Hnew. specialize (Hnew Hknown).
  assert (length pseudo = length gb) as Hlen.
  { rewrite <-(Forall2_length _ _ _ Hdesc). unfold g.
    destruct (GroupBy_new_members gb al) as [-> _].
    by rewrite (Permutation_length (std_sort_Permutation _ _)). }
  exists pseudo, new, log.
  split; [done|]. split; [done|]. split; [done|]. split; [done|].
  split; [done|]. split.
  - unfold g. rewrite getResultWidth_NoDup by done. fold g.
    unfold column_names. rewrite !length_app, length_fmap.
    by rewrite (Forall2_length _ _ _ Hdesc), (Forall2_length _ _ _ Hnew).
  - intros i a Hi.
    destruct (decide (i < length pseudo)%nat) as [Hlt|Hge].
    + rewrite lookup_app_l in Hi by done.
      destruct (Forall2_lookup_r _ _ _ _ _ Hdesc Hi)
        as (v & Hv & col & out & _ & Hout & ->).
      cbn. pose proof (varColMap_position gb al i v Hnodup) as Hpos.
      fold g in Hpos. unfold column_names in Hpos.
      rewrite lookup_app_l in Hpos by by apply lookup_lt_Some in Hv.
      specialize (Hpos Hv). rewrite Hout in Hpos. by injection Hpos.
    + rewrite lookup_app_r in Hi by lia.
      destruct (Forall2_lookup_r _ _ _ _ _ Hnew Hi)
        as (alias & Halias & (Hout & _)%describes_alias_fields).
      pose proof (varColMap_position gb al i (_outVarName alias) Hnodup) as Hpos.
      fold g in Hpos. unfold column_names in Hpos.
      rewrite lookup_app_r in Hpos
        by (rewrite (Forall2_length _ _ _ Hdesc); lia).
      rewrite list_lookup_fmap, (Forall2_length _ _ _ Hdesc), Halias in Hpos.
      specialize (Hpos eq_refl). rewrite Hout in Hpos. by injection Hpos.
Qed.

(** X14. The aggregates vector follows the column layout: with pairwise
    different column names, every group-by variable present in the subtree
    and every alias of a known kind and resolved, the two parsing loops
    yield as many aggregates as the operation has columns; the i-th
    aggregate writes output column i, those of the group-by variables come
    first and are SAMPLEs of their subtree columns, and those of the
    aliases follow, each being what the parser makes of the function text
    of its alias. *)
Theorem parsed_aggregates_follow_layout
    (gb : list string) (al : list Alias) (m : gmap string nat) :
  let g := GroupBy_new gb al in
  NoDup (column_names g) →
  Forall (λ v, is_Some (m !! v)) (_groupByVariables g) →
  Forall (resolves m) (_aliases g) →
  Forall (λ a, alias_status a ≠ Skipped) (_aliases g) →
  ∃ aggregates log,
    parse_all g m = (Got aggregates, log)
    ∧ length aggregates = getResultWidth g
    ∧ Forall2 (describes_variable g m) (_groupByVariables g)
              (take (length gb) aggregates)
    ∧ Forall2 (describes_alias g m) (_aliases g) (drop (length gb) aggregates)
    ∧ ∀ i a, aggregates !! i = Some a → _outCol a = i.
Proof.
  intros g Hnodup Hvars Haliases Hknown.
  destruct (parsed_layout gb al m Hnodup Hvars Haliases Hknown)
    as (pseudo & new & log & Hpg & Hpa & Hdesc & Hnew & Hlen & Hwidth & Hout).
  fold g in Hpg, Hpa, Hdesc, Hnew, Hwidth.
  exists (pseudo ++ new), ([] ++ log).
  split; [|split; [done|split; [|split; [|done]]]].
  - unfold parse_all. by rewrite Hpg, Hpa.
  - by rewrite <-Hlen, take_app_length.
  - by rewrite <-Hlen, drop_app_length.
Qed.

End Descriptors.

Section ResultTypes.
Context `{E : Externals}.


End ResultTypes.

Lemma asString_order_invariant_witness :
  asString (GroupBy_new ["?y"; "?x"]
              [mkAlias "?n" "COUNT(?z)" true; mkAlias "?a" "SUM(?z)" true])
           (λ _, "SCAN") 2
  = asString (GroupBy_new ["?x"; "?y"]
                [mkAlias "?a" "SUM(?z)" true; mkAlias "?n" "COUNT(?z)" true])
             (λ _, "SCAN") 2.
Proof.
  apply asString_order_invariant; [apply perm_swap | apply perm_swap |].
  vm_compute. repeat constructor; set_solver.
Defined.

Lemma computeSortColumns_follows_layout_witness :
  computeSortColumns {["?x" := 3%nat; "?y" := 1%nat]} ["?y"; "?x"]
    [mkAlias "?n" "COUNT(?z)" true]
  = [(3%nat, false); (1%nat, false); (0%nat, false)]
  ∧ take 2 (computeSortColumns {["?x" := 3%nat; "?y" := 1%nat]} ["?y"; "?x"]
              [mkAlias "?n" "COUNT(?z)" true])
    = [(3%nat, false); (1%nat, false)].
Proof.
  pose proof (computeSortColumns_follows_layout
                {["?x" := 3%nat; "?y" := 1%nat]} ["?y"; "?x"] ["?x"; "?y"]
                [mkAlias "?n" "COUNT(?z)" true] [mkAlias "?n" "COUNT(?z)" true]
                (perm_swap _ _ _) (reflexivity _)) as (_ & _ & Hlayout & Htake).
  split.
  - rewrite Hlayout by done. reflexivity.
  - etrans; [exact (Htake ltac:(done))|]. reflexivity.
Defined.

Lemma unknown_aggregate_reads_past_aggregates_witness :
  ∃ log,
    computeResult (E := example_externals)
      (GroupBy_new ["?x"]
         [mkAlias "?n" "COUNT(?y)" true; mkAlias "?u" "MEDIAN(?y)" true])
      {["?x" := 0%nat; "?y" := 1%nat]}
      (example_table [VERBATIM; KB] [[1; 10]] [])
      (mkResultTable 0 0 [] None [] [])
    = (Undefined, log)
    ∧ SubtreeGetResult ∈ log
    ∧ ∀ a, a ∈ _aliases (GroupBy_new ["?x"]
                           [mkAlias "?n" "COUNT(?y)" true;
                            mkAlias "?u" "MEDIAN(?y)" true]) →
           classify (_function a) = None →
           Warn ("Unknown aggregate " +:+ _function a) ∈ log.
Proof.
  apply (unknown_aggregate_reads_past_aggregates (E := example_externals)
           ["?x"] [mkAlias "?n" "COUNT(?y)" true; mkAlias "?u" "MEDIAN(?y)" true]
           {["?x" := 0%nat; "?y" := 1%nat]}).
  - vm_compute. repeat constructor; set_solver.
  - repeat constructor. by eexists.
  - repeat constructor. unfold resolves. cbn. by eexists.
  - apply Exists_cons_tl, Exists_cons_hd. reflexivity.
Defined.

Lemma parsed_aggregates_follow_layout_witness :
  ∃ aggregates log,
    parse_all (GroupBy_new ["?x"] [mkAlias "?n" "COUNT(?y)" true])
              {["?x" := 0%nat; "?y" := 1%nat]}
    = (Got aggregates, log)
    ∧ length aggregates
      = getResultWidth (GroupBy_new ["?x"] [mkAlias "?n" "COUNT(?y)" true])
    ∧ Forall2 (describes_variable
                 (GroupBy_new ["?x"] [mkAlias "?n" "COUNT(?y)" true])
                 {["?x" := 0%nat; "?y" := 1%nat]})
              (_groupByVariables
                 (GroupBy_new ["?x"] [mkAlias "?n" "COUNT(?y)" true]))
              (take 1 aggregates)
    ∧ Forall2 (describes_alias
                 (GroupBy_new ["?x"] [mkAlias "?n" "COUNT(?y)" true])
                 {["?x" := 0%nat; "?y" := 1%nat]})
              (_aliases (GroupBy_new ["?x"] [mkAlias "?n" "COUNT(?y)" true]))
              (drop 1 aggregates)
    ∧ ∀ i a, aggregates !! i = Some a → _outCol a = i.
Proof.
  apply (parsed_aggregates_follow_layout
           ["?x"] [mkAlias "?n" "COUNT(?y)" true]
           {["?x" := 0%nat; "?y" := 1%nat]}).
  - vm_compute. repeat constructor; set_solver.
  - repeat constructor. by eexists.
  - repeat constructor. unfold resolves. cbn. by eexists.
  - repeat constructor. done.
Defined.


(** ** Brackets, semicolon and quotes of an alias *)

Lemma find_first_app (c : ascii) (a b : string) :
  find_first c (a +:+ b)
  = match find_first c a with
    | Some n => Some n
    | None => (λ n, (String.length a + n)%nat) <$> find_first c b
    end.
Proof.
  induction a as [|x a IH].
  - change (EmptyString +:+ b) with b. cbn [find_first String.length].
    destruct (find_first c b); done.
  - change (String x a +:+ b) with (String x (a +:+ b)).
    cbn [find_first String.length]. destruct (Ascii.eqb x c); [done|].
    rewrite IH. destruct (find_first c a); [done|].
    destruct (find_first c b); done.
Qed.

Lemma find_last_app (c : ascii) (a b : string) :
  find_last c (a +:+ b)
  = match find_last c b with
    | Some n => Some (String.length a + n)%nat
    | None => find_last c a
    end.
Proof.
  induction a as [|x a IH].
  - change (EmptyString +:+ b) with b. cbn [find_last String.length].
    destruct (find_last c b); done.
  - change (String x a +:+ b) with (String x (a +:+ b)).
    cbn [find_last String.length]. rewrite IH.
    destruct (find_last c b); done.
Qed.

Lemma find_last_None (c : ascii) (s : string) :
  find_first c s = None → find_last c s = None.
Proof.
  induction s as [|x s IH]; [done|]. cbn [find_first find_last].
  destruct (Ascii.eqb x c); [done|].
  destruct (find_first c s); [done|]. intros _. by rewrite IH.
Qed.

Lemma find_first_hit (c : ascii) (a b : string) :
  find_first c a = None →
  find_first c (a +:+ String c b) = Some (String.length a).
Proof.
  intros Ha. rewrite find_first_app, Ha. cbn [find_first].
  rewrite Ascii.eqb_refl. cbn. f_equal. lia.
Qed.

Lemma find_last_hit (c : ascii) (a b : string) :
  find_first c b = None →
  find_last c (a +:+ String c b) = Some (String.length a).
Proof.
  intros Hb. rewrite find_last_app. cbn [find_last].
  rewrite (find_last_None _ _ Hb), Ascii.eqb_refl. f_equal. lia.
Qed.

Lemma find_first_lstrip (c : ascii) (chars s : string) :
  find_first c s = None → find_first c (lstrip chars s) = None.
Proof.
  induction s as [|x s IH]; [done|]. cbn [lstrip].
  destruct (char_in chars x); [|done].
  cbn [find_first]. destruct (Ascii.eqb x c); [done|].
  destruct (find_first c s); [done|]. intros _. by apply IH.
Qed.

Lemma find_first_rstrip (c : ascii) (chars s : string) :
  find_first c s = None → find_first c (rstrip chars s) = None.
Proof.
  induction s as [|x s IH]; [done|]. cbn [find_first rstrip].
  destruct (Ascii.eqb x c) eqn:Hx; [done|].
  destruct (find_first c s); [done|]. intros _. specialize (IH eq_refl).
  destruct (rstrip chars s) as [|y r].
  - destruct (char_in chars x); [done|]. cbn [find_first]. by rewrite Hx.
  - cbn [find_first] in *. by rewrite Hx, IH.
Qed.

Lemma lstrip_app (chars a b : string) (c : ascii) :
  char_in chars c = false →
  lstrip chars (a +:+ String c b) = lstrip chars a +:+ String c b.
Proof.
  intros Hc. induction a as [|x a IH].
  - change (EmptyString +:+ String c b) with (String c b).
    cbn [lstrip]. by rewrite Hc.
  - change (String x a +:+ String c b) with (String x (a +:+ String c b)).
    cbn [lstrip]. by destruct (char_in chars x).
Qed.

Lemma rstrip_app (chars a b : string) (c : ascii) :
  char_in chars c = false →
  rstrip chars (a +:+ String c b) = a +:+ String c (rstrip chars b).
Proof.
  intros Hc. induction a as [|x a IH].
  - change (EmptyString +:+ String c b) with (String c b).
    change (EmptyString +:+ String c (rstrip chars b))
      with (String c (rstrip chars b)).
    cbn [rstrip]. rewrite Hc. by destruct (rstrip chars b).
  - change (String x a +:+ String c b) with (String x (a +:+ String c b)).
    change (String x a +:+ String c (rstrip chars b))
      with (String x (a +:+ String c (rstrip chars b))).
    cbn [rstrip]. rewrite IH.
    destruct a as [|y a]; done.
Qed.

Lemma substring_between (a b c : string) :
  String.substring (String.length a) (String.length b) (a +:+ b +:+ c) = b.
Proof.
  induction a as [|x a IH].
  - change (EmptyString +:+ b +:+ c) with (b +:+ c). cbn [String.length].
    induction b as [|y b IHb].
    + by destruct (EmptyString +:+ c).
    + change (String y b +:+ c) with (String y (b +:+ c)). cbn. by rewrite IHb.
  - change (String x a +:+ b +:+ c) with (String x (a +:+ b +:+ c)).
    cbn [String.length String.substring]. apply IH.
Qed.

Lemma str_substr_between (s a b c : string) (pos count : Z) :
  s = a +:+ b +:+ c → pos = str_size a → count = str_size b →
  str_substr s pos count = Some b.
Proof.
  intros -> -> ->. unfold str_substr, str_size.
  rewrite !string_length_app.
  destruct (Z.ltb_spec (Z.of_nat (String.length a
                                  + (String.length b + String.length c)))
                       (Z.of_nat (String.length a))) as [Hlt|_]; [lia|].
  f_equal.
  replace (Z.to_nat (Z.of_nat (String.length a))) with (String.length a) by lia.
  replace (Z.to_nat _) with (String.length b) by lia.
  apply substring_between.
Qed.

Lemma bracket_positions (head arg tail : string) :
  let f := head +:+ String "(" (arg +:+ String ")" tail) in
  str_size f < npos →
  find_first "(" head = None → find_first ")" tail = None →
  str_find f "(" = str_size head
  ∧ str_rfind f ")" = str_size head + 1 + str_size arg
  ∧ bracketed (str_find f "(") (str_rfind f ")") = true
  ∧ ∀ inner rest : string,
      arg = inner +:+ rest →
      str_substr f (wrap64 (str_size head + 1)) (wrap64 (str_size inner))
      = Some inner.
Proof.
  intros f Hsize Hhead Htail.
  assert (str_size f = str_size head + 1 + str_size arg + 1 + str_size tail)
    as Hlen.
  { unfold f, str_size. rewrite string_length_app. cbn [String.length].
    rewrite string_length_app. cbn [String.length]. lia. }
  assert (str_find f "(" = str_size head) as Hstart.
  { unfold str_find, f. by rewrite find_first_hit. }
  assert (str_rfind f ")" = str_size head + 1 + str_size arg) as Hstop.
  { unfold str_rfind.
    replace f with ((head +:+ String "(" arg) +:+ String ")" tail)
      by by rewrite string_app_assoc.
    rewrite find_last_hit by done. unfold pos_or_npos, str_size.
    rewrite string_length_app. cbn [String.length]. lia. }
  unfold str_size in *. unfold npos in *.
  split; [done|]. split; [done|]. split.
  - rewrite Hstart, Hstop. apply bracketed_spec. unfold npos. lia.
  - intros inner rest ->. rewrite string_length_app in Hlen.
    rewrite !wrap64_small by lia.
    apply (str_substr_between f (head +:+ "(") inner
             (rest +:+ String ")" tail)).
    + unfold f. rewrite !string_app_assoc. done.
    + unfold str_size. rewrite string_length_app. cbn [String.length]. lia.
    + done.
Qed.

(** X16. The argument of an aggregate is what stands between the first
    opening and the last closing bracket of the function text, stripped of
    blanks and tabs: for a text [head(arg)tail] with no opening bracket in
    [head], no closing bracket in [tail] and no DISTINCT keyword, the
    parser returns [arg] stripped, clears the distinct flag and logs
    nothing; a GROUP_CONCAT without a semicolon gets the separator of one
    blank. Brackets inside [arg] are kept. *)
Theorem parse_argument_between_brackets (head arg tail : string) (a : Aggregate) :
  let f := head +:+ "(" +:+ arg +:+ ")" +:+ tail in
  str_size f < npos →
  find_first "(" head = None → find_first ")" tail = None →
  has_distinct f = false →
  (_type a ≠ GROUP_CONCAT →
   parse_argument f a = Some (set_distinct a false, strip arg blank_tab, []))
  ∧ (_type a = GROUP_CONCAT → find_first ";" f = None →
     parse_argument f a
     = Some (set_userData (set_distinct a false) " ", strip arg blank_tab, [])).
Proof.
  intros f Hsize Hhead Htail Hdistinct.
  change f with (head +:+ String "(" (arg +:+ String ")" tail)) in *.
  destruct (bracket_positions head arg tail Hsize Hhead Htail)
    as (Hstart & Hstop & Hbr & Hsub).
  specialize (Hsub arg EmptyString ltac:(by rewrite string_app_nil_r)).
  split.
  - intros Hty. unfold parse_argument.
    rewrite decide_False by done. rewrite Hbr, Hdistinct.
    rewrite Hstart, Hstop.
    replace (str_size head + 1 + str_size arg - str_size head - 1)
      with (str_size arg) by lia.
    rewrite Hsub. done.
  - intros Hty Hsemi. unfold parse_argument.
    rewrite decide_True by done. rewrite Hbr, Hdistinct.
    assert (str_find (head +:+ String "(" (arg +:+ String ")" tail)) ";" = npos)
      as -> by (unfold str_find; by rewrite Hsemi).
    rewrite Z.eqb_refl. cbn [negb].
    rewrite Hstart, Hstop.
    replace (str_size head + 1 + str_size arg - str_size head - 1)
      with (str_size arg) by lia.
    rewrite Hsub. done.
Qed.

Lemma lstrip_length (chars s : string) :
  (String.length (lstrip chars s) ≤ String.length s)%nat.
Proof. apply occurs_length, lstrip_occurs. Qed.

Lemma parse_separator_quoted (f before pre sep post after : string)
    (delim stop : Z) :
  f = before +:+ (pre +:+ String dquote (sep +:+ String dquote post)) +:+ after →
  str_size f < npos →
  0 ≤ delim → delim + 1 = str_size before →
  stop - delim - 1 = str_size (pre +:+ String dquote (sep +:+ String dquote post)) →
  find_first dquote pre = None → find_first dquote post = None →
  parse_separator f delim stop = Some (sep, []).
Proof.
  intros Hf Hsize Hdelim Hbefore Hstop Hpre Hpost.
  assert (str_size f
          = str_size before + (str_size pre + 1 + str_size sep + 1 + str_size post)
            + str_size after) as Hlen.
  { rewrite Hf. unfold str_size. rewrite !string_length_app. cbn [String.length].
    rewrite string_length_app. cbn [String.length]. lia. }
  assert (str_size (pre +:+ String dquote (sep +:+ String dquote post))
          = str_size pre + 1 + str_size sep + 1 + str_size post) as Hcs.
  { unfold str_size. rewrite string_length_app. cbn [String.length].
    rewrite string_length_app. cbn [String.length]. lia. }
  unfold parse_separator. unfold npos in Hsize.
  assert (0 ≤ str_size pre ∧ 0 ≤ str_size sep ∧ 0 ≤ str_size post
          ∧ 0 ≤ str_size after) as (? & ? & ? & ?) by (unfold str_size; lia).
  rewrite (str_substr_between f before
             (pre +:+ String dquote (sep +:+ String dquote post)) after);
    [|done|rewrite wrap64_small by lia; lia|rewrite wrap64_small by lia; lia].
  cbn [mbind option_bind]. unfold strip.
  rewrite lstrip_app by done.
  replace (lstrip " " pre +:+ String dquote (sep +:+ String dquote post))
    with ((lstrip " " pre +:+ String dquote sep) +:+ String dquote post)
    by by rewrite string_app_assoc.
  rewrite rstrip_app by done.
  set (pre' := lstrip " " pre). set (post' := rstrip " " post).
  pose proof (lstrip_length " " pre) as Hpre'. fold pre' in Hpre'.
  assert (str_find ((pre' +:+ String dquote sep) +:+ String dquote post') dquote
          = str_size pre') as Hstart.
  { rewrite string_app_assoc. unfold str_find.
    change (String dquote sep +:+ String dquote post')
      with (String dquote (sep +:+ String dquote post')).
    rewrite find_first_hit; [done|]. by apply find_first_lstrip. }
  assert (str_rfind ((pre' +:+ String dquote sep) +:+ String dquote post') dquote
          = str_size pre' + 1 + str_size sep) as Hend.
  { unfold str_rfind. rewrite find_last_hit by by apply find_first_rstrip.
    unfold pos_or_npos, str_size. rewrite string_length_app.
    cbn [String.length]. lia. }
  rewrite Hstart, Hend.
  assert (0 ≤ str_size pre' ≤ str_size pre) as Hp by (unfold str_size; lia).
  rewrite (proj2 (bracketed_spec _ _)) by (unfold npos; lia).
  rewrite (str_substr_between _ (pre' +:+ String dquote EmptyString) sep
             (String dquote post')); [done| | |].
  - rewrite !string_app_assoc. done.
  - rewrite wrap64_small by lia. unfold str_size. rewrite string_length_app.
    cbn [String.length]. lia.
  - rewrite wrap64_small by lia. lia.
Qed.

(** X17. The separator of a GROUP_CONCAT is what stands between the first
    and the last double quote after the semicolon: for a text
    [head(arg;pre"sep"post)tail] with no opening bracket and no semicolon
    in [head], no semicolon in [arg], no double quote in [pre] and [post],
    no closing bracket in [tail] and no DISTINCT keyword, the parser
    returns the separator [sep] unchanged (quotes, blanks and brackets
    inside it included), the argument [arg] stripped, and logs nothing. *)
Theorem separator_between_quotes (head arg pre sep post tail : string)
    (a : Aggregate) :
  let f := head +:+ "("
           +:+ (arg +:+ ";" +:+ pre +:+ String dquote (sep +:+ String dquote post))
           +:+ ")" +:+ tail in
  _type a = GROUP_CONCAT →
  str_size f < npos →
  find_first "(" head = None → find_first ";" head = None →
  find_first ";" arg = None →
  find_first dquote pre = None → find_first dquote post = None →
  find_first ")" tail = None →
  has_distinct f = false →
  parse_argument f a
  = Some (set_userData (set_distinct a false) sep, strip arg blank_tab, []).
Proof.
  intros f Hty Hsize Hhead Hsemi Harg Hpre Hpost Htail Hdistinct.
  set (cs := pre +:+ String dquote (sep +:+ String dquote post)) in *.
  change f with (head +:+ String "(" ((arg +:+ String ";" cs) +:+ String ")" tail))
    in *.
  destruct (bracket_positions head (arg +:+ String ";" cs) tail Hsize Hhead Htail)
    as (Hstart & Hstop & Hbr & Hsub).
  specialize (Hsub arg (String ";" cs) eq_refl).
  assert (head +:+ String "(" ((arg +:+ String ";" cs) +:+ String ")" tail)
          = (head +:+ String "(" arg) +:+ String ";" (cs +:+ String ")" tail))
    as Hsplit.
  { rewrite (string_app_assoc head), (string_app_assoc arg). done. }
  assert (str_find (head +:+ String "(" ((arg +:+ String ";" cs) +:+ String ")" tail))
                   ";" = str_size head + 1 + str_size arg) as Hdelim.
  { rewrite Hsplit. unfold str_find. rewrite find_first_hit.
    - unfold pos_or_npos, str_size. rewrite string_length_app.
      cbn [String.length]. lia.
    - rewrite find_first_app, Hsemi. cbn [find_first].
      change (Ascii.eqb "(" ";") with false. by rewrite Harg. }
  assert (str_size (arg +:+ String ";" cs) = str_size arg + 1 + str_size cs)
    as Hargs.
  { unfold str_size. rewrite string_length_app. cbn [String.length]. lia. }
  assert (0 ≤ str_size head ∧ 0 ≤ str_size arg) as [? ?]
    by (unfold str_size; lia).
  unfold parse_argument.
  rewrite decide_True by done. rewrite Hbr, Hdistinct, Hdelim, Hstart, Hstop.
  assert (str_size head + 1 + str_size arg ≠ npos) as Hnp.
  { unfold npos in *.
    assert (str_size head + 1 + str_size arg
            < str_size (head +:+ String "(" ((arg +:+ String ";" cs)
                                              +:+ String ")" tail))).
    { unfold str_size. rewrite string_length_app. cbn [String.length].
      rewrite !string_length_app. cbn [String.length]. lia. }
    lia. }
  rewrite (proj2 (Z.eqb_neq _ _) Hnp). cbn [negb].
  replace (str_size head + 1 + str_size arg - str_size head - 1)
    with (str_size arg) by lia.
  rewrite Hsub. cbn [mbind option_bind drop_distinct set_distinct _distinct].
  rewrite (parse_separator_quoted _ ((head +:+ String "(" arg) +:+ ";")
             pre sep post (String ")" tail)); [done| |done|lia| | |done|done].
  - fold cs. rewrite !string_app_assoc. done.
  - unfold str_size. rewrite !string_length_app. cbn [String.length]. lia.
  - fold cs. lia.
Qed.

Lemma parse_argument_between_brackets_witness :
  parse_argument "MAX( (?x) )" (set_type Aggregate_emplaced MAX)
  = Some (set_distinct (set_type Aggregate_emplaced MAX) false, "(?x)", []).
Proof.
  destruct (parse_argument_between_brackets "MAX" " (?x) " ""
              (set_type Aggregate_emplaced MAX)) as [H _];
    [reflexivity | reflexivity | reflexivity | reflexivity |].
  exact (H ltac:(done)).
Defined.

Lemma separator_between_quotes_witness :
  parse_argument
    ("GROUP_CONCAT(?y ; SEPARATOR="
     +:+ String dquote (", " +:+ String dquote ")"))
    (set_type Aggregate_emplaced GROUP_CONCAT)
  = Some (set_userData (set_distinct (set_type Aggregate_emplaced GROUP_CONCAT) false)
                       ", ",
          "?y", []).
Proof.
  exact (separator_between_quotes "GROUP_CONCAT" "?y " " SEPARATOR=" ", " "" ""
           (set_type Aggregate_emplaced GROUP_CONCAT)
           eq_refl eq_refl eq_refl eq_refl eq_refl eq_refl eq_refl eq_refl eq_refl).
Defined.

(** ** Floats in the low half of an Id *)

Lemma digits2_pos_bounds (m : positive) :
  2 ^ (Z.pos (digits2_pos m) - 1) ≤ Z.pos m < 2 ^ Z.pos (digits2_pos m).
Proof.
  induction m as [m IH|m IH|]; cbn [digits2_pos].
  - rewrite Pos2Z.inj_succ, (Pos2Z.inj_xI m).
    replace (Z.succ (Z.pos (digits2_pos m)) - 1)
      with (Z.succ (Z.pos (digits2_pos m) - 1)) by lia.
    rewrite !Z.pow_succ_r by lia. lia.
  - rewrite Pos2Z.inj_succ, (Pos2Z.inj_xO m).
    replace (Z.succ (Z.pos (digits2_pos m)) - 1)
      with (Z.succ (Z.pos (digits2_pos m) - 1)) by lia.
    rewrite !Z.pow_succ_r by lia. lia.
  - by vm_compute.
Qed.

Lemma bit_fields (s : bool) (ex mant : Z) :
  0 ≤ ex < 256 → 0 ≤ mant < 2 ^ 23 →
  let b := (if s then 2 ^ 31 else 0) + ex * 2 ^ 23 + mant in
  0 ≤ b < 2 ^ 32
  ∧ Z.testbit b 31 = s
  ∧ Z.land (Z.shiftr b 23) 255 = ex
  ∧ Z.land b (2 ^ 23 - 1) = mant.
Proof.
  intros Hex Hmant b.
  assert (0 ≤ b < 2 ^ 32) as Hb by (unfold b; destruct s; lia).
  split; [done|]. split; [|split].
  - assert (b / 2 ^ 31 = if s then 1 else 0) as Hdiv.
    { symmetry. apply (Z.div_unique b (2 ^ 31) _ (ex * 2 ^ 23 + mant)); [lia|].
      unfold b. destruct s; lia. }
    pose proof (Z.testbit_spec' b 31 ltac:(lia)) as Hbit.
    rewrite Hdiv in Hbit. destruct s, (Z.testbit b 31); done.
  - rewrite Z.shiftr_div_pow2 by lia.
    assert (b / 2 ^ 23 = (if s then 256 else 0) + ex) as ->.
    { symmetry. apply (Z.div_unique b (2 ^ 23) _ mant); [lia|].
      unfold b. destruct s; lia. }
    change 255 with (Z.ones 8). rewrite Z.land_ones by lia.
    symmetry. apply (Z.mod_unique _ _ (if s then 1 else 0)); [lia|].
    destruct s; lia.
  - change (2 ^ 23 - 1) with (Z.ones 23). rewrite Z.land_ones by lia.
    symmetry. apply (Z.mod_unique _ _ ((if s then 256 else 0) + ex)); [lia|].
    unfold b. destruct s; lia.
Qed.

(** X18. A float stored in an Id is read back unchanged: for every binary32
    value (NaN payloads aside) the Id that holds its four bytes has a zero
    high half, and reading the low four bytes of that Id as a float gives
    the value again. *)
Theorem float_bits_round_trip (f : float) :
  valid_binary 24 128 f = true →
  0 ≤ bits_of_float f < 2 ^ 32
  ∧ float_of_bits (bits_of_float f) = f.
Proof.
  destruct f as [s|s| |s m e]; intros Hvalid.
  - destruct (bit_fields s 0 0) as (Hb & Hs & Hex & Hm); [lia..|].
    unfold bits_of_float, float_of_bits.
    replace (if s then 2 ^ 31 else 0)
      with ((if s then 2 ^ 31 else 0) + 0 * 2 ^ 23 + 0) by lia.
    by rewrite Hs, Hex, Hm.
  - destruct (bit_fields s 255 0) as (Hb & Hs & Hex & Hm); [lia..|].
    unfold bits_of_float, float_of_bits. rewrite Z.shiftl_mul_pow2 by lia.
    replace ((if s then 2 ^ 31 else 0) + 255 * 2 ^ 23)
      with ((if s then 2 ^ 31 else 0) + 255 * 2 ^ 23 + 0) by lia.
    by rewrite Hs, Hex, Hm.
  - by vm_compute.
  - cbn [valid_binary] in Hvalid. unfold bounded, canonical_mantissa in Hvalid.
    apply andb_true_iff in Hvalid as [Hcanon Hmax].
    apply Z.eqb_eq in Hcanon. apply Z.leb_le in Hmax.
    unfold fexp, emin in Hcanon.
    pose proof (digits2_pos_bounds m) as Hdigits.
    unfold bits_of_float.
    destruct (Z.ltb_spec (Z.pos m) (2 ^ 23)) as [Hsmall|Hbig].
    + assert (Z.pos (digits2_pos m) ≤ 23) as Hd.
      { destruct (Z.le_gt_cases (Z.pos (digits2_pos m)) 23) as [|Hgt]; [done|].
        assert (2 ^ 23 ≤ 2 ^ (Z.pos (digits2_pos m) - 1))
          by (apply Z.pow_le_mono_r; lia).
        lia. }
      assert (e = -149) as -> by lia.
      destruct (bit_fields s 0 (Z.pos m)) as (Hb & Hs & Hex & Hm); [lia..|].
      replace ((if s then 2 ^ 31 else 0) + Z.pos m)
        with ((if s then 2 ^ 31 else 0) + 0 * 2 ^ 23 + Z.pos m) by lia.
      split; [done|]. unfold float_of_bits. rewrite Hs, Hex, Hm.
      cbn [Z.eqb]. by rewrite Pos2Z.id.
    + assert (Z.pos (digits2_pos m) = 24) as Hd.
      { assert (24 ≤ Z.pos (digits2_pos m)).
        { destruct (Z.le_gt_cases 24 (Z.pos (digits2_pos m))) as [|Hlt]; [done|].
          assert (2 ^ Z.pos (digits2_pos m) ≤ 2 ^ 23)
            by (apply Z.pow_le_mono_r; lia).
          lia. }
        lia. }
      rewrite Hd in Hdigits.
      assert (-149 ≤ e) by lia.
      destruct (bit_fields s (e + 150) (Z.pos m - 2 ^ 23))
        as (Hb & Hs & Hex & Hm); [lia..|].
      rewrite Z.shiftl_mul_pow2 by lia.
      split; [done|]. unfold float_of_bits. rewrite Hs, Hex, Hm.
      destruct (Z.eqb_spec (e + 150) 0) as [|_]; [lia|].
      destruct (Z.eqb_spec (e + 150) 255) as [|_]; [lia|].
      f_equal; [|lia].
      replace (Z.pos m - 2 ^ 23 + 2 ^ 23) with (Z.pos m) by lia.
      by rewrite Pos2Z.id.
Qed.

Lemma float_bits_round_trip_witness :
  0 ≤ bits_of_float (float_of_size 3) < 2 ^ 32
  ∧ float_of_bits (bits_of_float (float_of_size 3)) = float_of_size 3.
Proof. apply float_bits_round_trip. reflexivity. Defined.

(** ** The single group of an empty group-by list *)

Lemma for_each_fails_at_end {S : Type} (body : nat → S → option (S * bool))
    (l : list nat) (n : nat) (st : S) :
  (∀ i s s' b, body i s = Some (s', b) → b = false) →
  (∀ s, body n s = None) →
  for_each body (l ++ [n]) st = None.
Proof.
  intros Hbrk Hend. revert st. induction l as [|i l IH]; intros st.
  - cbn [app for_each]. by rewrite Hend.
  - cbn [app for_each]. destruct (body i st) as [[s' b]|] eqn:Hstep; [|done].
    rewrite (Hbrk _ _ _ _ Hstep). apply IH.
Qed.

Lemma visit_never_breaks {A : Type} (d : bool) (input : list Row) (c : nat)
    (step : Id → A → option (A * bool)) :
  (∀ x acc acc' b, step x acc = Some (acc', b) → b = false) →
  ∀ i st st' b, visit d input c step i st = Some (st', b) → b = false.
Proof.
  intros Hstep i st st' b. unfold visit.
  destruct (cell input i c) as [x|]; [|done]. cbn [mbind option_bind].
  destruct d; [case_bool_decide; [by intros [= _ <-]|]|];
    destruct (step x st.1) as [[acc' b']|] eqn:Hx; try done;
    cbn [mbind option_bind]; intros [= _ <-]; by apply (Hstep _ _ _ _ Hx).
Qed.

Lemma visit_past_end {A : Type} (d : bool) (input : list Row) (c : nat)
    (step : Id → A → option (A * bool)) (st : A * gset Z) :
  visit d input c step (length input) st = None.
Proof. unfold visit. by rewrite cell_past_end. Qed.

Lemma visit_loop_past_end {A : Type} (d : bool) (input : list Row) (c : nat)
    (step : Id → A → option (A * bool)) (s : nat) (st : A * gset Z) :
  (s ≤ length input)%nat →
  (∀ x acc acc' b, step x acc = Some (acc', b) → b = false) →
  for_each (visit d input c step) (upto s (length input)) st = None.
Proof.
  intros Hs Hstep. rewrite upto_before by done.
  apply for_each_fails_at_end; [by apply visit_never_breaks|].
  apply visit_past_end.
Qed.

Lemma fold_cells_past_end {A : Type} (f : A → Id → A) (init : A) (s : nat)
    (input : list Row) (c : nat) :
  (s ≤ length input)%nat →
  fold_cells f init s (length input) input c = None.
Proof.
  intros Hs. unfold fold_cells. rewrite upto_before by done.
  apply for_each_fails_at_end.
  - intros i st st' b. destruct (cell input i c); [|done].
    cbn [mbind option_bind]. by intros [= _ <-].
  - intros st. by rewrite cell_past_end.
Qed.

Section PastEnd.
Context `{E : Externals}.

Lemma processGroup_past_end (a : Aggregate) (s : nat) (input : list Row)
    (types : list ResultType) (row : Row) (inTable : ResultTable)
    (vocab : list string) (seen : gset Z) :
  (s ≤ length input)%nat → reads_run_end types a →
  processGroup a s (length input) input types row inTable vocab seen = None.
Proof.
  intros Hs Hreads. unfold reads_run_end in Hreads. unfold processGroup.
  assert (∀ d step,
            (step = add_verbatim ∨ step = add_float) →
            for_each (visit d input (_inCol a) step) (upto s (length input))
                     (S754_zero false, seen) = None) as Hsum.
  { intros d step Hstep. apply visit_loop_past_end; [done|].
    intros x acc acc' b. destruct Hstep as [-> | ->]; by intros [= _ <-]. }
  assert (accumulate a s (length input) input types seen = None
          ∨ _type a ≠ AVG ∧ _type a ≠ SUM) as Hacc.
  { destruct (decide (_type a = AVG ∨ _type a = SUM)) as [Hty|Hty];
      [left|right; tauto].
    unfold accumulate.
    assert (types !! _inCol a = Some VERBATIM ∨ types !! _inCol a = Some FLOAT)
      as [Ht|Ht]
      by (destruct Hty as [Hty|Hty]; by rewrite Hty in Hreads);
      rewrite Ht; cbn [mbind option_bind]; by rewrite Hsum by tauto. }
  destruct (_type a) eqn:Hty.
  - destruct Hacc as [-> | [? _]]; done.
  - rewrite Hreads. rewrite visit_loop_past_end; [done|done|].
    by intros x acc acc' b [= _ <-].
  - unfold group_concat.
    destruct (types !! _inCol a) as [ty|]; [|done]. cbn [mbind option_bind].
    destruct (for_each _ _ _) as [[out seen']|]; [|done].
    cbn [mbind option_bind]. by rewrite cell_past_end.
  - unfold extremum. destruct Hreads as (ty & -> & Ht1 & Ht2).
    cbn [mbind option_bind].
    destruct ty; try done; by rewrite fold_cells_past_end.
  - unfold extremum. destruct Hreads as (ty & -> & Ht1 & Ht2).
    cbn [mbind option_bind].
    destruct ty; try done; by rewrite fold_cells_past_end.
  - by rewrite cell_past_end.
  - destruct Hacc as [-> | [_ ?]]; done.
  - done.
  - by rewrite cell_past_end.
Qed.

Lemma processAggregates_frame (aggregates : list Aggregate) (s e : nat)
    (input : list Row) (types : list ResultType) (inTable : ResultTable)
    (st st' : Row * list string * gset Z) (c : nat) :
  c ∉ (_outCol <$> aggregates) →
  processAggregates aggregates s e input types inTable st = Some st' →
  st'.1.1 !! c = st.1.1 !! c.
Proof.
  revert st. induction aggregates as [|a aggs IH]; intros st Hc Hrun.
  - cbn [processAggregates] in Hrun. by injection Hrun as <-.
  - cbn [processAggregates] in Hrun.
    destruct (processGroup a s e input types st.1.1 inTable st.1.2 st.2)
      as [[[row1 vocab1] seen1]|] eqn:Hfirst; [|done].
    cbn [mbind option_bind] in Hrun.
    apply processGroup_frame in Hfirst as [(v & _ & -> & _) _].
    rewrite fmap_cons in Hc. apply not_elem_of_cons in Hc as [Hc1 Hc2].
    rewrite (IH _ Hc2 Hrun). cbn. by rewrite list_lookup_insert_ne.
Qed.

Lemma processAggregates_fails (aggregates : list Aggregate) (s e : nat)
    (input : list Row) (types : list ResultType) (inTable : ResultTable)
    (st : Row * list string * gset Z) :
  Exists (λ a, ∀ row vocab seen,
                 processGroup a s e input types row inTable vocab seen = None)
         aggregates →
  processAggregates aggregates s e input types inTable st = None.
Proof.
  intros Hex. revert st.
  induction Hex as [a rest Ha|a rest _ IH]; intros st; cbn [processAggregates].
  - by rewrite Ha.
  - destruct (processGroup a _ _ _ _ _ _ _ _); [|done]. apply IH.
Qed.

(** X19. With an empty group-by list the single run of a non-empty input
    ends at index [input->size()], one behind the last row. Every
    aggregate that is bound to read the last row of its run then reads
    outside the input, so the call is undefined as soon as one such
    aggregate is present; and a table of plain COUNT aggregates gets the
    number of rows plus one in every count. *)
Theorem single_group_run_ends_past_input (kind : RowKind) (input : list Row)
    (types : list ResultType) (aggregates : list Aggregate) (result : list Row)
    (inTable : ResultTable) (vocab : list string) :
  input ≠ [] →
  (Exists (reads_run_end types) aggregates →
   doGroupBy kind input types [] aggregates result inTable vocab = None)
  ∧ (Z.of_nat (length input) + 1 < 2 ^ 64 →
     Forall (λ a, _type a = COUNT ∧ _distinct a = false
                  ∧ (_outCol a < row_width kind [] aggregates)%nat) aggregates →
     ∃ row : Row,
       doGroupBy kind input types [] aggregates result inTable vocab
       = Some (result ++ [row], vocab)
       ∧ ∀ a, a ∈ aggregates →
              row !! _outCol a = Some (Z.of_nat (length input) + 1)).
Proof.
  intros Hne. rewrite doGroupBy_single_group by done. unfold emit_run. split.
  - intros Hex. rewrite processAggregates_fails; [done|].
    apply (Exists_impl _ _ _ Hex). intros a Ha row vocab' seen.
    apply processGroup_past_end; [lia|done].
  - intros Hsize Hall.
    rewrite <-(new_row_length kind [] aggregates) in Hall.
    cbn [length Nat.add] in Hall.
    generalize dependent (new_row kind (length aggregates)).
    cbn [fst snd].
    assert (∀ (aggs : list Aggregate) (row : Row),
              Forall (λ a, _type a = COUNT ∧ _distinct a = false
                           ∧ (_outCol a < length row)%nat) aggs →
              ∃ row',
                processAggregates aggs 0 (length input) input types inTable
                                  (row, vocab, ∅) = Some (row', vocab, ∅)
                ∧ length row' = length row
                ∧ ∀ a, a ∈ aggs →
                       row' !! _outCol a = Some (Z.of_nat (length input) + 1))
      as Hcount.
    { induction aggs as [|a aggs IH]; intros row Haggs.
      - exists row. split; [done|]. split; [done|].
        intros a Ha. by apply elem_of_nil in Ha.
      - apply Forall_cons in Haggs as [(Hty & Hd & Hout) Haggs].
        cbn [processAggregates fst snd]. unfold processGroup.
        rewrite Hty, Hd. unfold set_cell. rewrite decide_True by done.
        cbn [mbind option_bind].
        rewrite wrap64_small by lia.
        replace (Z.of_nat (length input) - Z.of_nat 0 + 1)
          with (Z.of_nat (length input) + 1) by lia.
        destruct (IH (<[_outCol a := Z.of_nat (length input) + 1]> row))
          as (row' & Hrun & Hlen & Hcells).
        { apply (Forall_impl _ _ _ Haggs). intros b (? & ? & ?).
          by rewrite length_insert. }
        exists row'. split; [done|]. rewrite length_insert in Hlen.
        split; [done|].
        intros b [->|Hb]%elem_of_cons; [|by apply Hcells].
        destruct (decide (_outCol a ∈ (_outCol <$> aggs))) as [Hin|Hfresh].
        + apply list_elem_of_fmap in Hin as (b' & Heq & Hb'). rewrite Heq.
          by apply Hcells.
        + pose proof (processAggregates_frame _ _ _ _ _ _ _ _ _ Hfresh Hrun)
            as Hframe.
          cbn in Hframe. rewrite Hframe. by apply list_lookup_insert_eq. }
    intros row Hall. destruct (Hcount aggregates row Hall) as (row' & -> & _ & Hcells).
    cbn [mbind option_bind fst snd]. by exists row'.
Qed.

End PastEnd.

Lemma single_group_run_ends_past_input_witness :
  doGroupBy (E := example_externals) VarWidth [[7]; [8]] [VERBATIM] []
    [mkAggregate COUNT 0 0 None false; mkAggregate MAX 0 1 None false]
    [] (example_table [VERBATIM] [[7]; [8]] []) []
  = None.
Proof.
  destruct (single_group_run_ends_past_input (E := example_externals)
              VarWidth [[7]; [8]] [VERBATIM]
              [mkAggregate COUNT 0 0 None false; mkAggregate MAX 0 1 None false]
              [] (example_table [VERBATIM] [[7]; [8]] []) [] ltac:(done))
    as [H _].
  apply H. apply Exists_cons_tl, Exists_cons_hd. by exists VERBATIM.
Defined.

(** ** No access outside the tables on well-formed input *)

Lemma for_each_is_Some {S : Type} (body : nat → S → option (S * bool))
    (idxs : list nat) (st : S) :
  (∀ i s, i ∈ idxs → is_Some (body i s)) → is_Some (for_each body idxs st).
Proof.
  revert st. induction idxs as [|i idxs IH]; intros st Hbody; [by eexists|].
  cbn [for_each]. destruct (Hbody i st ltac:(by left)) as [[s' b] ->].
  destruct b; [by eexists|]. apply IH. intros j s Hj. apply Hbody. by right.
Qed.

Lemma visit_is_Some {A : Type} (d : bool) (input : list Row) (c : nat)
    (step : Id → A → option (A * bool)) (i : nat) (st : A * gset Z) (x : Id) :
  cell input i c = Some x → (∀ acc, is_Some (step x acc)) →
  is_Some (visit d input c step i st).
Proof.
  intros Hx Hstep. unfold visit. rewrite Hx. cbn [mbind option_bind].
  destruct (Hstep st.1) as [[acc b] ->]. cbn [mbind option_bind].
  destruct d; [case_bool_decide|]; by eexists.
Qed.

Lemma cell_is_Some (input : list Row) (width i c : nat) :
  Forall (λ row : Row, length row = width) input →
  (i < length input)%nat → (c < width)%nat →
  ∃ (row : Row) (x : Id),
    input !! i = Some row ∧ row !! c = Some x ∧ cell input i c = Some x.
Proof.
  intros Hrect Hi Hc.
  destruct (lookup_lt_is_Some_2 input i Hi) as [row Hrow].
  pose proof (proj1 (Forall_lookup _ _) Hrect i row Hrow) as Hlen.
  cbn beta in Hlen.
  destruct (lookup_lt_is_Some_2 row c ltac:(lia)) as [x Hx].
  exists row, x. unfold cell. rewrite Hrow. cbn [mbind option_bind]. done.
Qed.

Lemma upto_elem (s e i : nat) : i ∈ upto s e → (s ≤ i ≤ e)%nat.
Proof. unfold upto. intros Hi%elem_of_seq. lia. Qed.

Lemma before_elem (s e i : nat) : i ∈ before s e → (s ≤ i < e)%nat.
Proof. unfold before. intros Hi%elem_of_seq. lia. Qed.

Section Safety.
Context `{E : Externals}.

Lemma visit_loop_is_Some {A : Type} (d : bool) (input : list Row) (width c : nat)
    (step : Id → A → option (A * bool)) (idxs : list nat) (st : A * gset Z) :
  Forall (λ row : Row, length row = width) input → (c < width)%nat →
  (∀ i, i ∈ idxs → (i < length input)%nat) →
  (∀ i x acc, (i < length input)%nat → cell input i c = Some x →
              is_Some (step x acc)) →
  is_Some (for_each (visit d input c step) idxs st).
Proof.
  intros Hrect Hc Hidx Hstep. apply for_each_is_Some. intros i s Hi.
  destruct (cell_is_Some input width i c Hrect (Hidx i Hi) Hc)
    as (row & x & _ & _ & Hx).
  apply (visit_is_Some d input c step i s x Hx).
  intros acc. by apply (Hstep i x acc (Hidx i Hi)).
Qed.

Lemma set_cell_is_Some (row : Row) (c : nat) (v : Id) :
  (c < length row)%nat → set_cell row c v = Some (<[c := v]> row).
Proof. intros Hc. unfold set_cell. by rewrite decide_True. Qed.

Lemma accumulate_is_Some (a : Aggregate) (s e width : nat) (input : list Row)
    (types : list ResultType) (seen : gset Z) :
  Forall (λ row : Row, length row = width) input →
  (e < length input)%nat → (_inCol a < width)%nat →
  is_Some (types !! _inCol a) →
  is_Some (accumulate a s e input types seen).
Proof.
  intros Hrect He Hin [ty Hty]. unfold accumulate. rewrite Hty.
  cbn [mbind option_bind].
  assert (∀ step, (∀ x acc, is_Some (step x acc)) →
            is_Some ('(res, seen0) ← for_each (visit (_distinct a) input (_inCol a) step)
                                              (upto s e) (S754_zero false, seen);
                     Some (res, if _distinct a then ∅ else seen0))) as Hrun.
  { intros step Hstep.
    destruct (visit_loop_is_Some (_distinct a) input width (_inCol a) step
                (upto s e) (S754_zero false, seen) Hrect Hin) as [[res seen0] ->].
    - intros i Hi%upto_elem. lia.
    - intros i x acc _ _. apply Hstep.
    - by eexists. }
  destruct ty; try (by eexists); apply Hrun; intros x acc;
    unfold add_verbatim, add_float, add_kb; try (by eexists).
  all: by destruct (negb _); eexists.
Qed.

Lemma extremum_is_Some (is_max : bool) (a : Aggregate) (s e width : nat)
    (input : list Row) (types : list ResultType) :
  Forall (λ row : Row, length row = width) input →
  (e < length input)%nat → (_inCol a < width)%nat →
  is_Some (types !! _inCol a) →
  is_Some (extremum is_max a s e input types).
Proof.
  intros Hrect He Hin [ty Hty]. unfold extremum. rewrite Hty.
  cbn [mbind option_bind].
  assert (∀ (A : Type) (f : A → Id → A) (init : A),
            is_Some (fold_cells f init s e input (_inCol a))) as Hfold.
  { intros A f init. unfold fold_cells. apply for_each_is_Some.
    intros i st Hi%upto_elem.
    destruct (cell_is_Some input width i (_inCol a) Hrect ltac:(lia) Hin)
      as (row & x & _ & _ & ->).
    by eexists. }
  destruct ty; try (by eexists); try apply Hfold.
  destruct (Hfold float
              (λ res x, if is_max then float_std_max res (float_of_bits x)
                        else float_std_min res (float_of_bits x))
              (if is_max then float_lowest else float_max)) as [res ->].
  by eexists.
Qed.

Lemma group_concat_is_Some (a : Aggregate) (s e width outWidth : nat)
    (input : list Row) (types : list ResultType) (inTable : ResultTable)
    (seen : gset Z) :
  Forall (λ row : Row, length row = width) input →
  (e < length input)%nat →
  aggregate_fits width outWidth input types inTable a →
  _type a = GROUP_CONCAT →
  is_Some (group_concat a s e input types inTable seen).
Proof.
  intros Hrect He (Hin & [ty Hty] & _ & Hgc) Hkind.
  destruct (Hgc Hkind) as [[delim Hdelim] Hvocab].
  assert (∀ i x, (i < length input)%nat → cell input i (_inCol a) = Some x →
                 is_Some (concat_decode ty inTable x)) as Hdecode.
  { intros i x Hi Hx. destruct ty; try (by eexists).
    destruct (cell_is_Some input width i (_inCol a) Hrect Hi Hin)
      as (row & x' & Hrow & Hx' & Hcell).
    rewrite Hcell in Hx. injection Hx as ->.
    apply (proj1 (Forall_lookup _ _) (Hvocab Hty) i row Hrow x Hx'). }
  unfold group_concat. rewrite Hty. cbn [mbind option_bind].
  destruct (visit_loop_is_Some (_distinct a) input width (_inCol a)
              (emit_delim a ty inTable) (before s e) (EmptyString, seen)
              Hrect Hin) as [[out seen0] ->].
  { intros i Hi%before_elem. lia. }
  { intros i x acc Hi Hx. unfold emit_delim.
    destruct (Hdecode i x Hi Hx) as [v ->]. rewrite Hdelim. by eexists. }
  cbn [mbind option_bind].
  destruct (cell_is_Some input width e (_inCol a) Hrect He Hin)
    as (row & x & _ & _ & Hx).
  rewrite Hx. cbn [mbind option_bind].
  destruct (Hdecode e x He Hx) as [v Hv].
  unfold emit_delim, emit_plain. rewrite Hv, Hdelim. cbn.
  destruct (_distinct a); [case_bool_decide|]; destruct ty; by eexists.
Qed.

Lemma processGroup_is_Some (a : Aggregate) (s e width : nat) (input : list Row)
    (types : list ResultType) (row : Row) (inTable : ResultTable)
    (vocab : list string) (seen : gset Z) :
  Forall (λ row : Row, length row = width) input →
  (s ≤ e < length input)%nat →
  aggregate_fits width (length row) input types inTable a →
  is_Some (processGroup a s e input types row inTable vocab seen).
Proof.
  intros Hrect Hse Hfits.
  pose proof Hfits as (Hin & Hty & Hout & _).
  assert (∀ i, (i < length input)%nat →
               ∃ x, cell input i (_inCol a) = Some x) as Hcell.
  { intros i Hi.
    destruct (cell_is_Some input width i (_inCol a) Hrect Hi Hin)
      as (r & x & _ & _ & Hx).
    by exists x. }
  unfold processGroup. destruct (_type a) eqn:Hkind.
  - destruct (accumulate_is_Some a s e width input types seen)
      as [[res seen0] ->]; [done|lia|done|done|].
    cbn [mbind option_bind]. rewrite set_cell_is_Some by done. by eexists.
  - destruct (_distinct a).
    + destruct (visit_loop_is_Some true input width (_inCol a)
                  (λ (_ : Id) (count : Z), Some (wrap64 (count + 1), false))
                  (upto s e) (0, seen) Hrect Hin) as [[count seen0] ->].
      { intros i Hi%upto_elem. lia. }
      { intros. by eexists. }
      cbn [mbind option_bind]. rewrite set_cell_is_Some by done. by eexists.
    + rewrite set_cell_is_Some by done. by eexists.
  - destruct (group_concat_is_Some a s e width (length row) input types inTable
                seen) as [[out seen0] ->]; [done|lia|done|done|].
    cbn [mbind option_bind]. rewrite set_cell_is_Some by done. by eexists.
  - destruct (extremum_is_Some true a s e width input types) as [res ->];
      [done|lia|done|done|].
    cbn [mbind option_bind]. rewrite set_cell_is_Some by done. by eexists.
  - destruct (extremum_is_Some false a s e width input types) as [res ->];
      [done|lia|done|done|].
    cbn [mbind option_bind]. rewrite set_cell_is_Some by done. by eexists.
  - destruct (Hcell e ltac:(lia)) as [x ->].
    cbn [mbind option_bind]. rewrite set_cell_is_Some by done. by eexists.
  - destruct (accumulate_is_Some a s e width input types seen)
      as [[res seen0] ->]; [done|lia|done|done|].
    cbn [mbind option_bind]. rewrite set_cell_is_Some by done. by eexists.
  - destruct (Hcell s ltac:(lia)) as [x ->].
    cbn [mbind option_bind]. rewrite set_cell_is_Some by done. by eexists.
  - destruct (Hcell e ltac:(lia)) as [x ->].
    cbn [mbind option_bind]. rewrite set_cell_is_Some by done. by eexists.
Qed.

End Safety.

Lemma row_keys_is_Some (input : list Row) (width : nat) (cols : list nat) :
  Forall (λ row : Row, length row = width) input →
  Forall (λ c, (c < width)%nat) cols →
  is_Some (row_keys input cols).
Proof.
  intros Hrect Hcols. unfold row_keys. apply mapM_is_Some_2.
  apply Forall_forall. intros pos Hpos%elem_of_seq. cbn [compose].
  unfold read_key. apply mapM_is_Some_2.
  apply (Forall_impl _ _ _ Hcols). intros c Hc. cbn [compose].
  destruct (cell_is_Some input width pos c Hrect ltac:(lia) Hc)
    as (row & x & _ & _ & ->).
  by eexists.
Qed.

Section InBounds.
Context `{E : Externals}.

Lemma processAggregates_is_Some (aggregates : list Aggregate) (s e width : nat)
    (input : list Row) (types : list ResultType) (inTable : ResultTable)
    (st : Row * list string * gset Z) :
  Forall (λ row : Row, length row = width) input →
  (s ≤ e < length input)%nat →
  Forall (aggregate_fits width (length st.1.1) input types inTable) aggregates →
  is_Some (processAggregates aggregates s e input types inTable st).
Proof.
  intros Hrect Hse. revert st.
  induction aggregates as [|a aggs IH]; intros st Hfits; [by eexists|].
  apply Forall_cons in Hfits as [Ha Hfits]. cbn [processAggregates].
  destruct (processGroup_is_Some a s e width input types st.1.1 inTable
              st.1.2 st.2 Hrect Hse Ha) as [[[row1 vocab1] seen1] Hfirst].
  rewrite Hfirst. cbn [mbind option_bind]. apply IH.
  apply processGroup_frame in Hfirst as [(v & _ & -> & _) _].
  cbn. by rewrite length_insert.
Qed.

Lemma emit_runs_is_Some (kind : RowKind) (cols : list nat)
    (aggregates : list Aggregate) (width : nat) (input : list Row)
    (types : list ResultType) (inTable : ResultTable) (runs : list (nat * nat))
    (st : list Row * list string * gset Z) :
  Forall (λ row : Row, length row = width) input →
  Forall (λ run : nat * nat, (run.1 ≤ run.2 < length input)%nat) runs →
  Forall (aggregate_fits width (row_width kind cols aggregates) input types
                         inTable) aggregates →
  is_Some (emit_runs kind (length cols + length aggregates) aggregates input
                     types inTable runs st).
Proof.
  intros Hrect Hruns Hfits. revert st.
  induction Hruns as [|[s e] runs Hse _ IH]; intros st; [by eexists|].
  cbn [emit_runs]. unfold emit_run.
  destruct (processAggregates_is_Some aggregates s e width input types inTable
              (new_row kind (length cols + length aggregates), st.1.2, st.2)
              Hrect Hse) as [[[row vocab1] seen1] ->].
  { cbn [fst snd]. by rewrite new_row_length. }
  cbn [mbind option_bind]. apply IH.
Qed.

Lemma doGroupBy_is_Some (kind : RowKind) (width : nat)
    (input : list Row) (types : list ResultType) (groupByCols : list nat)
    (aggregates : list Aggregate) (result : list Row) (inTable : ResultTable)
    (vocab : list string) :
  groupByCols ≠ [] ∨ input = [] →
  Forall (λ row : Row, length row = width) input →
  Forall (λ c, (c < width)%nat) groupByCols →
  Forall (aggregate_fits width (row_width kind groupByCols aggregates) input
                         types inTable) aggregates →
  ∃ rows' vocab',
    doGroupBy kind input types groupByCols aggregates result inTable vocab
    = Some (rows', vocab')
    ∧ (input = [] → rows' = result ∧ vocab' = vocab).
Proof.
  intros Hcase Hrect Hgb Hfits.
  destruct (decide (input = [])) as [->|Hne].
  { exists result, vocab. done. }
  destruct Hcase as [Hcols|]; [|done].
  destruct (row_keys_is_Some input width groupByCols Hrect Hgb) as [keys Hkeys].
  rewrite (doGroupBy_runs kind input types groupByCols aggregates result
             inTable vocab keys Hcols Hkeys).
  destruct (emit_runs_is_Some kind groupByCols aggregates width input types
              inTable (run_bounds keys) (result, vocab, ∅) Hrect) as [st ->];
    [|done|by eexists _, _].
  apply Forall_lookup. intros j [s e] Hj.
  destruct (maximal_runs_lookup keys _ 0 j s e (run_bounds_maximal keys) Hj)
    as [Hse _].
  destruct (row_keys_lookup _ _ _ Hkeys) as [Hlen _]. cbn. lia.
Qed.

(** X20. With group-by columns, [doGroupBy] never reads or writes outside
    its tables on well-formed arguments: when all input rows have the same
    width, the group-by columns and the input columns of the aggregates lie
    within it and have a type, the output columns lie within the output
    row, and every GROUP_CONCAT has a separator and (on a STRING column)
    cells that index the local vocabulary of the input, the call returns
    normally. *)
Theorem doGroupBy_stays_in_bounds (kind : RowKind) (width : nat)
    (input : list Row) (types : list ResultType) (groupByCols : list nat)
    (aggregates : list Aggregate) (result : list Row) (inTable : ResultTable)
    (vocab : list string) :
  groupByCols ≠ [] →
  Forall (λ row : Row, length row = width) input →
  Forall (λ c, (c < width)%nat) groupByCols →
  Forall (aggregate_fits width (row_width kind groupByCols aggregates) input
                         types inTable) aggregates →
  is_Some (doGroupBy kind input types groupByCols aggregates result inTable vocab).
Proof.
  intros Hcols Hrect Hgb Hfits.
  destruct (doGroupBy_is_Some kind width input types groupByCols aggregates
              result inTable vocab (or_introl Hcols) Hrect Hgb Hfits)
    as (rows' & vocab' & -> & _).
  by eexists.
Qed.

End InBounds.

Lemma doGroupBy_stays_in_bounds_witness :
  is_Some (doGroupBy (E := example_externals) (FixedWidth 2)
             [[1; 0]; [1; 1]; [2; 2]] [VERBATIM; STRING] [0%nat]
             [mkAggregate SAMPLE 0 0 None false;
              mkAggregate GROUP_CONCAT 1 1 (Some ",") true]
             [] (example_table [VERBATIM; STRING] [[1; 0]; [1; 1]; [2; 2]]
                   ["a"; "b"; "c"]) []).
Proof.
  apply (doGroupBy_stays_in_bounds (E := example_externals) (FixedWidth 2) 2).
  - done.
  - repeat constructor.
  - repeat constructor.
  - apply Forall_cons. split.
    + split; [cbn; lia|]. split; [by eexists|]. split; [cbn; lia|].
      intros Hty. discriminate Hty.
    + apply Forall_cons. split; [|constructor].
      split; [cbn; lia|]. split; [by eexists|]. split; [cbn; lia|].
      intros _. split; [by eexists|]. intros _.
      repeat (apply Forall_cons; split;
              [intros x Hx; injection Hx as <-; by eexists|]).
      constructor.
Defined.

(** ** [computeResult] on a well-formed sub-result *)

Lemma mapM_lookup_seq {A : Type} (l : list A) :
  mapM (λ i, l !! i) (seq 0 (length l)) = Some l.
Proof.
  apply mapM_Some_2. apply Forall2_same_length_lookup_2.
  - by rewrite length_seq.
  - intros i j x Hi Hx. apply lookup_seq in Hi as [-> _]. done.
Qed.

Lemma parse_argument_userData (f : string) (a a' : Aggregate) (v : string)
    (log : list Event) :
  parse_argument f a = Some (a', v, log) → _type a = GROUP_CONCAT →
  v ≠ EmptyString → is_Some (_userData a').
Proof.
  unfold parse_argument. intros H Hty Hv.
  rewrite decide_True in H by done.
  destruct (bracketed _ _).
  - destruct (negb _).
    + destruct (str_substr f _ _); [simpl in H|done].
      destruct (drop_distinct _ _); [simpl in H|done].
      destruct (parse_separator f _ _) as [[sep log']|]; [simpl in H|done].
      injection H as <- _ _. by eexists.
    + destruct (str_substr f _ _); [simpl in H|done].
      destruct (drop_distinct _ _); [simpl in H|done].
      injection H as <- _ _. by eexists.
  - cbn in H. injection H as _ <- _. done.
Qed.

Section WellFormed.
Context `{E : Externals}.

Lemma computeResult_success (gb : list string) (al : list Alias)
    (m : gmap string nat) (subresult result : ResultTable) (input : list Row) :
  let g := GroupBy_new gb al in
  NoDup (column_names g) →
  Forall (λ v, is_Some (m !! v)) (_groupByVariables g) →
  Forall (resolves m) (_aliases g) →
  Forall (λ a, alias_status a ≠ Skipped) (_aliases g) →
  m !! EmptyString = None →
  (∀ v col, m !! v = Some col → (col < _nofColumns subresult)%nat) →
  well_formed_input subresult input →
  gb ≠ [] ∨ input = [] →
  _fixedSizeData result = None → _varSizeData result = [] →
  ∃ aggregates types rows' vocab' log,
    length aggregates = getResultWidth g
    ∧ doGroupBy (if small_width (length aggregates)
                 then FixedWidth (length aggregates) else VarWidth)
                input (_resultTypes subresult)
                ((λ var, default 0%nat (m !! var)) <$> _groupByVariables g)
                aggregates [] subresult (_localVocab result)
      = Some (rows', vocab')
    ∧ (input = [] → rows' = [])
    ∧ computeResult g m subresult result
      = (Finished (mkResultTable (getResultWidth g) 0 types
                     (if small_width (length aggregates) then Some rows' else None)
                     (if small_width (length aggregates) then [] else rows')
                     vocab'),
         log ++ [SubtreeGetResult; CallDoGroupBy]).
Proof.
  intros g Hnodup Hvars Haliases Hknown Hempty Hrange
         (Hrows & Htypes & Hrect & Hstring) Hcase Hfixed Hvar.
  destruct (parsed_layout gb al m Hnodup Hvars Haliases Hknown)
    as (pseudo & new & log & Hpg & Hpa & Hdesc & Hnew & Hlen & Hwidth & Hout).
  fold g in Hpg, Hpa, Hdesc, Hnew, Hwidth.
  assert (∀ i a, (pseudo ++ new) !! i = Some a →
                 (_inCol a < _nofColumns subresult)%nat
                 ∧ (_type a = GROUP_CONCAT → is_Some (_userData a))) as Hagg.
  { intros i a Hi. apply lookup_app_Some in Hi as [Hi|[_ Hi]].
    - destruct (Forall2_lookup_r _ _ _ _ _ Hdesc Hi)
        as (v & _ & col & out & Hcol & _ & ->).
      cbn. split; [by apply (Hrange v)|done].
    - destruct (Forall2_lookup_r _ _ _ _ _ Hnew Hi)
        as (alias & _ & _ & ty & a0 & v & plog & inCol & outCol & Hclass
            & Hparse & Hv & _ & ->).
      cbn. split; [by apply (Hrange v)|].
      intros Hty. apply (parse_argument_userData _ _ _ _ _ Hparse).
      + apply parse_argument_type in Hparse. by rewrite <-Hparse.
      + intros ->. congruence. }
  assert (is_Some (mapM (output_type subresult (pseudo ++ new))
                        (seq 0 (getResultWidth g)))) as [types Htys].
  { apply mapM_is_Some_2, Forall_forall. intros i Hi%elem_of_seq.
    cbn [compose].
    destruct (lookup_lt_is_Some_2 (pseudo ++ new) i ltac:(lia)) as [a Ha].
    unfold output_type. rewrite Ha. cbn [mbind option_bind].
    destruct (Hagg i a Ha) as [Hin _].
    assert (is_Some (getResultType subresult (_inCol a)))
      by (apply lookup_lt_is_Some_2; lia).
    destruct (_type a); try done; by eexists. }
  set (cols := (λ var, default 0%nat (m !! var)) <$> _groupByVariables g).
  assert (Forall (λ c, (c < _nofColumns subresult)%nat) cols) as Hcols.
  { unfold cols. apply Forall_fmap.
    apply (Forall_impl _ _ _ Hvars). intros v [col Hcol]. cbn.
    rewrite Hcol. by apply (Hrange v). }
  assert (cols ≠ [] ∨ input = []) as Hcase'.
  { destruct Hcase as [Hgb|]; [left|by right].
    intros Hnil. apply (f_equal length) in Hnil. unfold cols in Hnil.
    rewrite length_fmap, (Forall2_length _ _ _ Hdesc), Hlen in Hnil.
    by destruct gb. }
  set (kind := if small_width (length (pseudo ++ new))
               then FixedWidth (length (pseudo ++ new)) else VarWidth).
  assert (Forall (aggregate_fits (_nofColumns subresult)
                    (row_width kind cols (pseudo ++ new)) input
                    (_resultTypes subresult) subresult) (pseudo ++ new))
    as Hfits.
  { apply Forall_lookup. intros i a Ha.
    destruct (Hagg i a Ha) as [Hin Hsep].
    split; [done|]. split; [apply lookup_lt_is_Some_2; lia|]. split.
    - rewrite (Hout i a Ha). apply lookup_lt_Some in Ha.
      unfold kind. destruct (small_width _); cbn; lia.
    - intros Hty. split; [by apply Hsep|]. apply Hstring. }
  destruct (doGroupBy_is_Some kind (_nofColumns subresult) input
              (_resultTypes subresult) cols (pseudo ++ new) [] subresult
              (_localVocab result) Hcase' Hrect Hcols Hfits)
    as (rows' & vocab' & Hrun & Hemp).
  exists (pseudo ++ new), types, rows', vocab', ([] ++ log).
  split; [done|]. split; [done|]. split; [by intros [-> _]%Hemp|].
  unfold computeResult. rewrite Hpg, Hpa. unfold aggregate_all.
  cbn [_nofColumns _sortedBy _resultTypes _fixedSizeData _varSizeData _localVocab].
  rewrite Htys. cbn [mbind option_bind].
  assert (mapM (getResultType subresult) (seq 0 (_nofColumns subresult))
          = Some (_resultTypes subresult)) as ->.
  { rewrite <-Htypes. apply mapM_lookup_seq. }
  cbn [mbind option_bind]. unfold callDoGroupBy.
  unfold input_rows in Hrows. rewrite Hrows.
  cbn [mbind option_bind _varSizeData _localVocab].
  fold cols. unfold kind in Hrun. rewrite Hvar.
  destruct (small_width (length (pseudo ++ new))); rewrite Hrun;
    cbn [mbind option_bind fst snd]; unfold with_fixed, with_var; cbn;
    rewrite ?Hfixed, ?Hvar, <-?app_assoc; done.
Qed.

(** X21. [computeResult] returns normally on a well-formed sub-result: with
    pairwise different column names, every group-by variable and every
    alias argument a variable of the subtree with a column inside the
    sub-result, no alias of unknown kind, and a sub-result whose rows have
    the declared width and whose STRING cells index its local vocabulary,
    the run finishes after [callDoGroupBy] with a table of the declared
    width, provided there is a group-by variable or the sub-result is
    empty. An empty sub-result gives a result without rows. *)
Theorem computeResult_finishes (gb : list string) (al : list Alias)
    (m : gmap string nat) (subresult result : ResultTable) (input : list Row) :
  let g := GroupBy_new gb al in
  NoDup (column_names g) →
  Forall (λ v, is_Some (m !! v)) (_groupByVariables g) →
  Forall (resolves m) (_aliases g) →
  Forall (λ a, alias_status a ≠ Skipped) (_aliases g) →
  m !! EmptyString = None →
  (∀ v col, m !! v = Some col → (col < _nofColumns subresult)%nat) →
  well_formed_input subresult input →
  gb ≠ [] ∨ input = [] →
  _fixedSizeData result = None → _varSizeData result = [] →
  ∃ r log,
    computeResult g m subresult result = (Finished r, log)
    ∧ CallDoGroupBy ∈ log
    ∧ _nofColumns r = getResultWidth g
    ∧ (input = [] → rows r = []).
Proof.
  intros g Hnodup Hvars Haliases Hknown Hempty Hrange Hwf Hcase Hfixed Hvar.
  destruct (computeResult_success gb al m subresult result input Hnodup Hvars
              Haliases Hknown Hempty Hrange Hwf Hcase Hfixed Hvar)
    as (aggs & types & rows' & vocab' & log & _ & _ & Hemp & Hrun).
  fold g in Hrun. eexists _, _. split; [exact Hrun|].
  split; [set_solver|]. split; [done|].
  intros ->%Hemp. unfold rows. cbn. by destruct (small_width _).
Qed.

(** X25. The rows of a finished table: on a well-formed sub-result (as
    for the theorem before) the table has one row for every maximal run of equal group-by keys in the
    sub-result. With one to five columns every row has exactly the declared
    number of cells; with any other number of columns every row is a vector
    of the declared number of cells plus one more cell for each group-by
    variable. *)
Theorem computeResult_rows (gb : list string) (al : list Alias)
    (m : gmap string nat) (subresult result : ResultTable) (input : list Row) :
  let g := GroupBy_new gb al in
  NoDup (column_names g) →
  Forall (λ v, is_Some (m !! v)) (_groupByVariables g) →
  Forall (resolves m) (_aliases g) →
  Forall (λ a, alias_status a ≠ Skipped) (_aliases g) →
  m !! EmptyString = None →
  (∀ v col, m !! v = Some col → (col < _nofColumns subresult)%nat) →
  well_formed_input subresult input →
  gb ≠ [] ∨ input = [] →
  _fixedSizeData result = None → _varSizeData result = [] →
  ∃ r log keys,
    computeResult g m subresult result = (Finished r, log)
    ∧ row_keys input ((λ var, default 0%nat (m !! var)) <$> _groupByVariables g)
      = Some keys
    ∧ length (rows r) = length (run_bounds keys)
    ∧ Forall (λ row : Row,
                length row
                = if small_width (getResultWidth g) then getResultWidth g
                  else (getResultWidth g + length gb)%nat) (rows r).
Proof.
  intros g Hnodup Hvars Haliases Hknown Hempty Hrange Hwf Hcase Hfixed Hvar.
  destruct (computeResult_success gb al m subresult result input Hnodup Hvars
              Haliases Hknown Hempty Hrange Hwf Hcase Hfixed Hvar)
    as (aggs & types & rows' & vocab' & log & Hlen & Hdo & _ & Hrun).
  fold g in Hrun, Hlen, Hdo.
  destruct Hwf as (_ & _ & Hrect & _).
  destruct (row_keys_is_Some input (_nofColumns subresult)
              ((λ var, default 0%nat (m !! var)) <$> _groupByVariables g) Hrect)
    as [keys Hkeys].
  { apply Forall_fmap. apply (Forall_impl _ _ _ Hvars). intros v [col Hcol].
    cbn. rewrite Hcol. by apply (Hrange v). }
  destruct (doGroupBy_new_rows _ _ _ _ _ _ _ _ _ _ _ Hkeys Hdo)
    as (new & -> & Hcount & Hwidth).
  assert (length (_groupByVariables g) = length gb) as Hgb.
  { unfold g. destruct (GroupBy_new_members gb al) as [-> _].
    by rewrite (Permutation_length (std_sort_Permutation _ _)). }
  eexists _, _, keys. split; [exact Hrun|]. split; [done|].
  unfold rows. cbn [_fixedSizeData _varSizeData]. rewrite <-Hlen.
  destruct (small_width (length aggs)); cbn [app] in *.
  - split; [done|]. done.
  - split; [done|]. apply (Forall_impl _ _ _ Hwidth). intros row ->.
    unfold row_width. rewrite length_fmap, Hgb. lia.
Qed.

End WellFormed.

Lemma computeResult_finishes_witness :
  ∃ r log,
    computeResult (E := example_externals)
      (GroupBy_new ["?x"] [mkAlias "?n" "COUNT(DISTINCT ?y)" true])
      {["?x" := 0%nat; "?y" := 1%nat]}
      (example_table [VERBATIM; KB] [[1; 10]; [1; 11]; [2; 12]] [])
      (mkResultTable 0 0 [] None [] [])
    = (Finished r, log)
    ∧ CallDoGroupBy ∈ log
    ∧ _nofColumns r
      = getResultWidth (GroupBy_new ["?x"] [mkAlias "?n" "COUNT(DISTINCT ?y)" true])
    ∧ ([[1; 10]; [1; 11]; [2; 12]] = [] → rows r = []).
Proof.
  apply (computeResult_finishes (E := example_externals)
           ["?x"] [mkAlias "?n" "COUNT(DISTINCT ?y)" true]
           {["?x" := 0%nat; "?y" := 1%nat]}
           (example_table [VERBATIM; KB] [[1; 10]; [1; 11]; [2; 12]] [])
           (mkResultTable 0 0 [] None [] [])
           [[1; 10]; [1; 11]; [2; 12]]).
  - vm_compute. repeat constructor; set_solver.
  - repeat constructor. by eexists.
  - repeat constructor. unfold resolves. cbn. by eexists.
  - repeat constructor. done.
  - reflexivity.
  - intros v col Hv. cbn.
    apply lookup_insert_Some in Hv as [[_ <-]|[_ Hv]]; [lia|].
    apply lookup_singleton_Some in Hv as [_ <-]. lia.
  - split; [reflexivity|]. split; [reflexivity|]. split; [repeat constructor|].
    intros [|[|c]] Hc; discriminate Hc.
  - left. done.
  - reflexivity.
  - reflexivity.
Defined.

(** ** What the groups add up to *)

Lemma maximal_runs_total {K : Type} (keys : list K) (runs : list (nat * nat)) :
  ∀ start : nat,
    maximal_runs keys start runs →
    foldr Z.add 0 ((λ run : nat * nat, Z.of_nat (run.2 - run.1 + 1)) <$> runs)
    = Z.of_nat (length keys) - Z.of_nat start.
Proof.
  induction runs as [|[s e] runs IH]; intros start Hmax.
  - cbn in *. lia.
  - cbn [maximal_runs] in Hmax. destruct Hmax as (-> & Hse & _ & _ & Hrest).
    rewrite fmap_cons. cbn [foldr fst snd]. rewrite (IH (S e) Hrest). lia.
Qed.

Section Totals.
Context `{E : Externals}.

Lemma processAggregates_COUNT (aggregates : list Aggregate) (s e : nat)
    (input : list Row) (types : list ResultType) (inTable : ResultTable)
    (st st' : Row * list string * gset Z) (a : Aggregate) :
  NoDup (_outCol <$> aggregates) → a ∈ aggregates →
  _type a = COUNT → _distinct a = false →
  processAggregates aggregates s e input types inTable st = Some st' →
  st'.1.1 !! _outCol a = Some (wrap64 (Z.of_nat e - Z.of_nat s + 1)).
Proof.
  revert st. induction aggregates as [|a0 rest IH];
    intros st Hnodup Hin Hty Hd Hrun.
  - by apply elem_of_nil in Hin.
  - cbn [processAggregates] in Hrun.
    destruct (processGroup a0 s e input types st.1.1 inTable st.1.2 st.2)
      as [[[row1 vocab1] seen1]|] eqn:Hfirst; [|done].
    cbn [mbind option_bind] in Hrun.
    rewrite fmap_cons in Hnodup. apply NoDup_cons in Hnodup as [Hfresh Hnodup].
    apply elem_of_cons in Hin as [->|Hin]; [|by apply (IH (row1, vocab1, seen1))].
    unfold processGroup in Hfirst. rewrite Hty, Hd in Hfirst.
    destruct (set_cell st.1.1 (_outCol a0) _) as [row|] eqn:Hset; [|done].
    cbn [mbind option_bind] in Hfirst. injection Hfirst as <- <- <-.
    apply set_cell_Some in Hset as [Hlt ->].
    rewrite (processAggregates_frame _ _ _ _ _ _ _ _ _ Hfresh Hrun).
    by apply list_lookup_insert_eq.
Qed.

Lemma processAggregates_vocab (aggregates : list Aggregate) (s e : nat)
    (input : list Row) (types : list ResultType) (inTable : ResultTable)
    (st st' : Row * list string * gset Z) :
  processAggregates aggregates s e input types inTable st = Some st' →
  ∃ added : list string,
    st'.1.2 = st.1.2 ++ added
    ∧ length added = length (filter (λ a, _type a = GROUP_CONCAT) aggregates).
Proof.
  revert st. induction aggregates as [|a rest IH]; intros st Hrun.
  - cbn [processAggregates] in Hrun. injection Hrun as <-.
    exists []. by rewrite app_nil_r.
  - cbn [processAggregates] in Hrun.
    destruct (processGroup a s e input types st.1.1 inTable st.1.2 st.2)
      as [[[row1 vocab1] seen1]|] eqn:Hfirst; [|done].
    cbn [mbind option_bind] in Hrun.
    apply processGroup_frame in Hfirst as [_ Hvocab].
    apply IH in Hrun as (added & -> & Hlen). cbn [fst snd].
    rewrite filter_cons.
    destruct (decide (_type a = GROUP_CONCAT)) as [Hty|Hty].
    + destruct Hvocab as [out ->]. exists (out :: added).
      rewrite <-app_assoc. split; [done|]. cbn. by rewrite Hlen.
    + rewrite Hvocab. by exists added.
Qed.

Lemma emit_runs_vocab (kind : RowKind) (width : nat) (aggregates : list Aggregate)
    (input : list Row) (types : list ResultType) (inTable : ResultTable)
    (runs : list (nat * nat)) :
  ∀ st st' : list Row * list string * gset Z,
    emit_runs kind width aggregates input types inTable runs st = Some st' →
    ∃ added : list string,
      st'.1.2 = st.1.2 ++ added
      ∧ length added
        = (length (filter (λ a, _type a = GROUP_CONCAT) aggregates)
           * length runs)%nat.
Proof.
  induction runs as [|[s e] runs IH]; intros st st' Hrun.
  - cbn [emit_runs] in Hrun. injection Hrun as <-. exists [].
    rewrite app_nil_r. cbn. split; [done|lia].
  - cbn [emit_runs] in Hrun.
    destruct (emit_run kind width aggregates s e input types inTable st)
      as [st1|] eqn:Hfirst; [|done].
    cbn [mbind option_bind] in Hrun.
    apply IH in Hrun as (added & -> & Hlen).
    unfold emit_run in Hfirst.
    destruct (processAggregates _ _ _ _ _ _ _) as [[[row vocab1] seen1]|] eqn:Hrow;
      [|done].
    cbn [mbind option_bind] in Hfirst. injection Hfirst as <-.
    apply processAggregates_vocab in Hrow as (first & Hfirst & Hlen1).
    cbn [fst snd] in *. subst vocab1. exists (first ++ added).
    rewrite <-app_assoc. split; [done|].
    rewrite length_app, Hlen, Hlen1. cbn [length]. lia.
Qed.

(** X22. The local vocabulary of the output grows by exactly one string
    for every GROUP_CONCAT aggregate and every group: what was in it stays
    in place, and nothing else is appended. *)
Theorem doGroupBy_vocabulary_growth (kind : RowKind) (input : list Row)
    (types : list ResultType) (groupByCols : list nat)
    (aggregates : list Aggregate) (result : list Row) (inTable : ResultTable)
    (vocab : list string) (keys : list (list (nat * Id)))
    (result' : list Row) (vocab' : list string) :
  row_keys input groupByCols = Some keys →
  doGroupBy kind input types groupByCols aggregates result inTable vocab
    = Some (result', vocab') →
  ∃ added : list string,
    vocab' = vocab ++ added
    ∧ length added
      = (length (filter (λ a, _type a = GROUP_CONCAT) aggregates)
         * length (run_bounds keys))%nat.
Proof.
  intros Hkeys Hrun.
  destruct (doGroupBy_as_runs _ _ _ _ _ _ _ _ _ _ _ Hkeys Hrun)
    as (runs & st & Hemit & _ & -> & Hlen & _).
  apply emit_runs_vocab in Hemit as (added & Hadded & Hcount).
  exists added. split; [done|]. by rewrite Hcount, Hlen.
Qed.

(** X23. The counts of the groups add up to the size of the input: with
    group-by columns present in every row and aggregates that write
    different output columns, the cells a COUNT without DISTINCT writes
    into the rows appended by [doGroupBy] sum to the number of input
    rows. *)
Theorem counts_add_up_to_input_size (kind : RowKind) (input : list Row)
    (types : list ResultType) (groupByCols : list nat)
    (aggregates : list Aggregate) (result : list Row) (inTable : ResultTable)
    (vocab : list string) (keys : list (list (nat * Id)))
    (result' : list Row) (vocab' : list string) (a : Aggregate) :
  groupByCols ≠ [] →
  row_keys input groupByCols = Some keys →
  NoDup (_outCol <$> aggregates) →
  a ∈ aggregates → _type a = COUNT → _distinct a = false →
  Z.of_nat (length input) < 2 ^ 64 →
  doGroupBy kind input types groupByCols aggregates result inTable vocab
    = Some (result', vocab') →
  ∃ counts : list Id,
    mapM (λ row : Row, row !! _outCol a) (drop (length result) result')
    = Some counts
    ∧ foldr Z.add 0 counts = Z.of_nat (length input).
Proof.
  intros Hcols Hkeys Hnodup Ha Hty Hd Hsize Hrun.
  destruct (doGroupBy_as_runs _ _ _ _ _ _ _ _ _ _ _ Hkeys Hrun)
    as (runs & st & Hemit & -> & _ & _ & Hruns).
  rewrite (Hruns Hcols) in Hemit. clear Hruns.
  apply emit_runs_rows in Hemit as (new & Hnew & Hall).
  destruct (row_keys_lookup _ _ _ Hkeys) as [Hlen _].
  exists ((λ run : nat * nat, Z.of_nat (run.2 - run.1 + 1)) <$> run_bounds keys).
  split.
  - rewrite Hnew. cbn [fst snd]. rewrite drop_app_length.
    apply mapM_Some_2. apply Forall2_fmap_r.
    apply Forall2_same_length_lookup_2; [by apply (Forall2_length _ _ _ Hall)|].
    intros i row [s e] Hrow Hi.
    destruct (Forall2_lookup_lr _ _ _ _ _ _ Hall Hrow Hi)
      as (vocab0 & seen0 & vocab1 & seen1 & Hagg).
    destruct (maximal_runs_lookup keys _ 0 i s e (run_bounds_maximal keys) Hi)
      as [Hse _].
    pose proof (processAggregates_COUNT _ _ _ _ _ _ _ _ a Hnodup Ha Hty Hd Hagg)
      as Hcell.
    cbn [fst snd] in *. rewrite Hcell. f_equal. cbn [fst snd].
    rewrite wrap64_small by lia. lia.
  - rewrite (maximal_runs_total keys _ 0 (run_bounds_maximal keys)). lia.
Qed.

End Totals.

Lemma doGroupBy_vocabulary_growth_witness :
  ∃ added : list string,
    ["a,b"; "c"] = [] ++ added ∧ length added = 2%nat.
Proof.
  exact (doGroupBy_vocabulary_growth (E := example_externals) (FixedWidth 2)
           [[1; 0]; [1; 1]; [2; 2]] [VERBATIM; STRING] [0%nat]
           [mkAggregate SAMPLE 0 0 None false;
            mkAggregate GROUP_CONCAT 1 1 (Some ",") false]
           [] (example_table [VERBATIM; STRING] [[1; 0]; [1; 1]; [2; 2]]
                 ["a"; "b"; "c"]) []
           [[(0%nat, 1)]; [(0%nat, 1)]; [(0%nat, 2)]]
           [[1; 0]; [2; 1]] ["a,b"; "c"] eq_refl eq_refl).
Defined.

Lemma counts_add_up_to_input_size_witness :
  ∃ counts : list Id,
    mapM (λ row : Row, row !! 1%nat) (drop 0 [[1; 2]; [2; 1]]) = Some counts
    ∧ foldr Z.add 0 counts = 3.
Proof.
  apply (counts_add_up_to_input_size (E := example_externals) (FixedWidth 2)
           [[1; 5]; [1; 6]; [2; 7]] [VERBATIM; KB] [0%nat]
           [mkAggregate SAMPLE 0 0 None false; mkAggregate COUNT 1 1 None false]
           [] (example_table [VERBATIM; KB] [[1; 5]; [1; 6]; [2; 7]] []) []
           [[(0%nat, 1)]; [(0%nat, 1)]; [(0%nat, 2)]] [[1; 2]; [2; 1]] []
           (mkAggregate COUNT 1 1 None false)).
  - done.
  - reflexivity.
  - repeat constructor; set_solver.
  - set_solver.
  - reflexivity.
  - reflexivity.
  - reflexivity.
  - reflexivity.
Defined.

(** ** MAX and MIN over a FLOAT column *)

Lemma fltb_nan_r (x : float) : fltb x S754_nan = false.
Proof. by destruct x. Qed.

Lemma fltb_nan_l (x : float) : fltb S754_nan x = false.
Proof. by destruct x. Qed.

Lemma fold_float_skips_nan (is_max : bool) (vals : list Id) (init : float) :
  fold_left (λ res x, if is_max then float_std_max res (float_of_bits x)
                      else float_std_min res (float_of_bits x)) vals init
  = fold_left (if is_max then float_std_max else float_std_min)
              (filter (λ f, float_is_nan f = false) (float_of_bits <$> vals)) init.
Proof.
  revert init. induction vals as [|x vals IH]; intros init; [done|].
  rewrite fmap_cons, filter_cons. cbn [fold_left].
  destruct (decide (float_is_nan (float_of_bits x) = false)) as [Hx|Hx].
  - cbn [fold_left]. rewrite IH. by destruct is_max.
  - assert (float_of_bits x = S754_nan) as ->
      by by destruct (float_of_bits x).
    rewrite IH. unfold float_std_max, float_std_min.
    rewrite fltb_nan_r, fltb_nan_l. by destruct is_max.
Qed.

Section FloatExtremum.
Context `{E : Externals}.

(** X24. MAX and MIN over a FLOAT column compare the cells as floats with
    [std::max] and [std::min], starting from [lowest()] and [max()]; a
    cell that holds a NaN never replaces the running value, so the result
    is that of the cells that are not NaN, and a run of NaN cells only
    gives the start value. *)
Theorem MAX_MIN_of_floats_skip_NaN (a : Aggregate) (s e : nat)
    (input : list Row) (types : list ResultType) (row : Row)
    (inTable : ResultTable) (vocab : list string) (seen : gset Z)
    (vals : list Id) :
  _type a = MAX ∨ _type a = MIN →
  types !! _inCol a = Some FLOAT →
  column_cells input (_inCol a) (upto s e) = Some vals →
  (_outCol a < length row)%nat →
  let floats := filter (λ f, float_is_nan f = false) (float_of_bits <$> vals) in
  let res := if decide (_type a = MAX)
             then fold_left float_std_max floats float_lowest
             else fold_left float_std_min floats float_max in
  processGroup a s e input types row inTable vocab seen
  = Some (<[_outCol a := bits_of_float res]> row, vocab, seen)
  ∧ (floats = [] →
     res = if decide (_type a = MAX) then float_lowest else float_max).
Proof.
  intros Hkind Hty Hvals Hout floats res. split.
  - unfold processGroup, extremum, fold_cells.
    destruct Hkind as [Hk|Hk]; rewrite Hk, Hty; cbn [mbind option_bind];
      rewrite (for_each_cells_fold _ input (_inCol a) _ vals) by done;
      cbn [mbind option_bind]; rewrite set_cell_is_Some by done;
      unfold res; rewrite Hk.
    + rewrite decide_True by done.
      by rewrite (fold_float_skips_nan true vals float_lowest).
    + rewrite decide_False by done.
      by rewrite (fold_float_skips_nan false vals float_max).
  - intros Hnil. unfold res. rewrite Hnil. by destruct (decide _).
Qed.

End FloatExtremum.

Lemma MAX_MIN_of_floats_skip_NaN_witness :
  processGroup (E := example_externals) (mkAggregate MAX 0 0 None false) 0 1
    [[2143289344]; [1077936128]] [FLOAT] [0]
    (example_table [FLOAT] [[2143289344]; [1077936128]] []) [] ∅
  = Some ([1077936128], [], ∅).
Proof.
  destruct (MAX_MIN_of_floats_skip_NaN (E := example_externals)
              (mkAggregate MAX 0 0 None false) 0 1
              [[2143289344]; [1077936128]] [FLOAT] [0]
              (example_table [FLOAT] [[2143289344]; [1077936128]] []) [] ∅
              [2143289344; 1077936128]) as [H _];
    [by left | reflexivity | reflexivity | simpl; lia |].
  rewrite H. reflexivity.
Defined.

Lemma computeResult_rows_witness :
  let g := GroupBy_new ["?x"]
             [mkAlias "?a" "COUNT(?y)" true; mkAlias "?b" "MIN(?y)" true;
              mkAlias "?c" "MAX(?y)" true; mkAlias "?d" "SAMPLE(?y)" true;
              mkAlias "?e" "COUNT(DISTINCT ?y)" true] in
  let m : gmap string nat := {["?x" := 0%nat; "?y" := 1%nat]} in
  let input := [[1; 10]; [1; 11]; [2; 12]] in
  ∃ r log keys,
    computeResult (E := example_externals) g m
      (example_table [VERBATIM; KB] input []) (mkResultTable 0 0 [] None [] [])
    = (Finished r, log)
    ∧ row_keys input ((λ var, default 0%nat (m !! var)) <$> _groupByVariables g)
      = Some keys
    ∧ length (rows r) = length (run_bounds keys)
    ∧ Forall (λ row : Row,
                length row
                = if small_width (getResultWidth g) then getResultWidth g
                  else (getResultWidth g + 1)%nat) (rows r).
Proof.
  apply (computeResult_rows (E := example_externals) ["?x"]
           [mkAlias "?a" "COUNT(?y)" true; mkAlias "?b" "MIN(?y)" true;
            mkAlias "?c" "MAX(?y)" true; mkAlias "?d" "SAMPLE(?y)" true;
            mkAlias "?e" "COUNT(DISTINCT ?y)" true]
           {["?x" := 0%nat; "?y" := 1%nat]}
           (example_table [VERBATIM; KB] [[1; 10]; [1; 11]; [2; 12]] [])
           (mkResultTable 0 0 [] None [] [])
           [[1; 10]; [1; 11]; [2; 12]]).
  - vm_compute. repeat constructor; set_solver.
  - repeat constructor. by eexists.
  - repeat (constructor; [unfold resolves; cbn; by eexists|]). constructor.
  - repeat (constructor; [done|]). constructor.
  - reflexivity.
  - intros v col Hv. cbn.
    apply lookup_insert_Some in Hv as [[_ <-]|[_ Hv]]; [lia|].
    apply lookup_singleton_Some in Hv as [_ <-]. lia.
  - split; [reflexivity|]. split; [reflexivity|]. split; [repeat constructor|].
    intros [|[|c]] Hc; discriminate Hc.
  - left. done.
  - reflexivity.
  - reflexivity.
Defined.

(** The six columns of this operation are stored as vectors of seven
    cells; the seventh is never written. *)
Example scenario_six_columns :
  computeResult (E := example_externals)
    (GroupBy_new ["?x"]
       [mkAlias "?a" "COUNT(?y)" true; mkAlias "?b" "MIN(?y)" true;
        mkAlias "?c" "MAX(?y)" true; mkAlias "?d" "SAMPLE(?y)" true;
        mkAlias "?e" "COUNT(DISTINCT ?y)" true])
    {["?x" := 0%nat; "?y" := 1%nat]}
    (example_table [VERBATIM; KB] [[1; 10]; [1; 11]; [2; 12]] [])
    (mkResultTable 0 0 [] None [] [])
  = (Finished (mkResultTable 6 0 [VERBATIM; VERBATIM; KB; KB; KB; VERBATIM] None
                 [[1; 2; 10; 11; 11; 2; 0]; [2; 1; 12; 12; 12; 1; 0]] []),
     [SubtreeGetResult; CallDoGroupBy]).
Proof. by vm_compute. Qed.

(** ** A DISTINCT keyword with a short argument *)

Lemma parse_argument_throws (f : string) (a : Aggregate) (raw : string) :
  bracketed (str_find f "(") (str_rfind f ")") = true →
  has_distinct f = true →
  raw_argument f (_type a) = Some raw →
  str_size (strip raw blank_tab) < 8 →
  parse_argument f a = None.
Proof.
  intros Hbr Hdistinct Hraw Hshort.
  assert (drop_distinct true raw = None) as Hdrop.
  { unfold drop_distinct, str_substr.
    by rewrite (proj2 (Z.ltb_lt _ _) Hshort). }
  unfold parse_argument, raw_argument in *. rewrite Hbr, Hdistinct.
  destruct (decide (_type a = GROUP_CONCAT)) as [Hty|Hty].
  - destruct (Z.eqb_spec (str_find f ";") npos) as [Heq|Hne]; cbn [negb].
    + rewrite decide_False in Hraw by (intros [_ ?]; done).
      rewrite Hraw. cbn [mbind option_bind set_distinct _distinct].
      by rewrite Hdrop.
    + rewrite decide_True in Hraw by done.
      rewrite Hraw. cbn [mbind option_bind set_distinct _distinct].
      by rewrite Hdrop.
  - rewrite decide_False in Hraw by (intros [? _]; done).
    rewrite Hraw. cbn [mbind option_bind set_distinct _distinct].
    by rewrite Hdrop.
Qed.

Lemma parse_aliases_throws (g : GroupBy) (m : gmap string nat)
    (before : list Alias) (alias : Alias) (after : list Alias)
    (aggregates : list Aggregate) :
  (∀ a, a ∈ before → is_Some (_varColMap g !! _outVarName a)) →
  Forall (resolves m) before → alias_status alias = Throws →
  ∃ log, parse_aliases g m (before ++ alias :: after) aggregates
         = (ParseThrown, log)
         ∧ Forall is_warning log.
Proof.
  intros Hmap Hbefore Hstatus. revert aggregates.
  induction Hbefore as [|b before Hb _ IH]; intros aggregates.
  - cbn [app parse_aliases]. unfold alias_status in Hstatus.
    destruct (_isAggregate alias); [|done].
    destruct (classify (_function alias)) as [ty|]; [|done].
    destruct (parse_argument _ _) as [[[a' v'] log]|]; [done|].
    by exists [].
  - cbn [app parse_aliases].
    assert (Hmap' : ∀ a, a ∈ before → is_Some (_varColMap g !! _outVarName a))
      by (intros; apply Hmap; set_solver).
    specialize (IH Hmap').
    unfold resolves, alias_status in Hb.
    destruct (_isAggregate b); [|by apply IH].
    destruct (classify (_function b)) as [ty|].
    + destruct (parse_argument _ _) as [[[a' v'] log]|] eqn:Hparse; [|done].
      assert (Hlog : Forall is_warning log).
      { apply parse_argument_log in Hparse as [-> | ->]; by repeat constructor. }
      destruct Hb as [inCol ->].
      destruct (Hmap b) as [outCol ->]; [set_solver|].
      destruct (IH (aggregates ++ [set_cols a' inCol outCol]))
        as (log' & -> & Hwarn).
      eexists. split; [done|]. by apply Forall_app.
    + destruct (IH aggregates) as (log' & -> & Hwarn).
      eexists. split; [done|]. by constructor.
Qed.

Section Throws.
Context `{E : Externals}.

(** X26. A DISTINCT keyword next to a short argument makes [computeResult]
    throw. For every GROUP BY the constructor can build, whichever order
    [std::sort] gave to aliases of equal output name: when all group-by
    variables are present, the aliases that the record holds before it are
    resolved, and an alias has a bracket pair, the text DISTINCT or distinct
    anywhere in its function, and an argument of fewer than eight characters
    after stripping, then [substr(8)] throws [std::out_of_range] out of
    [computeResult]; the subtree has not been evaluated and [doGroupBy] is
    not called. *)
Theorem short_distinct_argument_throws
    (gb : list string) (al : list Alias) (g : GroupBy) (m : gmap string nat)
    (subresult result : ResultTable)
    (before : list Alias) (alias : Alias) (after : list Alias)
    (ty : AggregateType) (raw : string) :
  let f := _function alias in
  constructed gb al g →
  Forall (λ v, is_Some (m !! v)) (_groupByVariables g) →
  _aliases g = before ++ alias :: after →
  Forall (resolves m) before →
  classify f = Some ty →
  bracketed (str_find f "(") (str_rfind f ")") = true →
  has_distinct f = true →
  raw_argument f ty = Some raw →
  str_size (strip raw blank_tab) < 8 →
  ∃ log,
    computeResult g m subresult result = (Thrown, log)
    ∧ (SubtreeGetResult ∉ log) ∧ (CallDoGroupBy ∉ log).
Proof.
  intros f Hg Hvars Haliases Hbefore Hclass Hbr Hdistinct Hraw Hshort.
  destruct (parse_groupBy_Got g m (_groupByVariables g) []) as (pseudo & Hpg & _);
    [|done|].
  { intros v Hv. apply (constructed_mapped gb al); [done|].
    unfold column_names. set_solver. }
  assert (alias_status alias = Throws) as Hstatus.
  { pose proof (constructed_aliases_aggregate gb al g Hg) as Hagg.
    rewrite Haliases in Hagg. apply Forall_app in Hagg as [_ Hagg].
    apply Forall_cons in Hagg as [Hagg _].
    unfold alias_status. fold f. rewrite Hagg, Hclass.
    by rewrite (parse_argument_throws f _ raw). }
  destruct (parse_aliases_throws g m before alias after ([] ++ pseudo))
    as (log & Hpa & Hlog); [|done|done|].
  { intros a Ha. apply (constructed_mapped gb al); [done|].
    unfold column_names. rewrite Haliases. set_solver. }
  exists ([] ++ log). unfold computeResult. rewrite Hpg, Haliases, Hpa.
  split; [done|]. cbn [app].
  split; intros Hin; apply (proj1 (Forall_forall _ _) Hlog) in Hin; done.
Qed.

End Throws.

Lemma short_distinct_argument_throws_witness :
  ∃ log,
    computeResult (E := example_externals)
      (GroupBy_new ["?x"]
         [mkAlias "?c"
            ("GROUP_CONCAT(?y;SEPARATOR="
             +:+ String dquote ("distinct" +:+ String dquote ")")) true])
      {["?x" := 0%nat; "?y" := 1%nat]}
      (example_table [VERBATIM; KB] [[1; 10]] [])
      (mkResultTable 0 0 [] None [] [])
    = (Thrown, log)
    ∧ (SubtreeGetResult ∉ log) ∧ (CallDoGroupBy ∉ log).
Proof.
  apply (short_distinct_argument_throws (E := example_externals) ["?x"]
           [mkAlias "?c"
              ("GROUP_CONCAT(?y;SEPARATOR="
               +:+ String dquote ("distinct" +:+ String dquote ")")) true]
           (GroupBy_new ["?x"]
              [mkAlias "?c"
                 ("GROUP_CONCAT(?y;SEPARATOR="
                  +:+ String dquote ("distinct" +:+ String dquote ")")) true])
           {["?x" := 0%nat; "?y" := 1%nat]}
           (example_table [VERBATIM; KB] [[1; 10]] [])
           (mkResultTable 0 0 [] None [] [])
           []
           (mkAlias "?c"
              ("GROUP_CONCAT(?y;SEPARATOR="
               +:+ String dquote ("distinct" +:+ String dquote ")")) true)
           [] GROUP_CONCAT "?y").
  - apply GroupBy_new_constructed.
  - repeat constructor. by eexists.
  - reflexivity.
  - constructor.
  - reflexivity.
  - reflexivity.
  - reflexivity.
  - reflexivity.
  - reflexivity.
Defined.

(** ** Aliases of equal output name

    Three aliases named [?a]: [std::sort] may leave them in any order, and
    the outcome depends on it. In the order they are given in, the missing
    [?z] is met first and the result is empty; in the order of the merge
    sort the GROUP_CONCAT is met first and [substr(8)] throws. Both records
    are ones the constructor can build. *)
Example scenario_equal_output_names :
  let count_z := mkAlias "?a" "COUNT(?z)" true in
  let count_x := mkAlias "?a" "COUNT(?x)" true in
  let concat :=
    mkAlias "?a"
      ("GROUP_CONCAT(?x;SEPARATOR="
       +:+ String dquote ("distinct" +:+ String dquote ")")) true in
  let al := [count_z; count_x; concat] in
  let m : gmap string nat := {["?x" := 0%nat; "?y" := 1%nat]} in
  let subresult := example_table [VERBATIM; VERBATIM] [[1; 2]] [] in
  let kept :=
    mkGroupBy ["?x"] al (assign_columns ["?x"; "?a"; "?a"; "?a"] 0 ∅).1 in
  constructed ["?x"] al kept
  ∧ constructed ["?x"] al (GroupBy_new ["?x"] al)
  ∧ _aliases (GroupBy_new ["?x"] al) = [concat; count_z; count_x]
  ∧ computeResult (E := example_externals) kept m subresult
      (mkResultTable 0 0 [] None [] [])
    = (Finished (mkResultTable 2 0 [] (Some []) [] []),
       [Warn "The aggregate alias COUNT(?z) refers to a column not present in the query."])
  ∧ computeResult (E := example_externals) (GroupBy_new ["?x"] al) m subresult
      (mkResultTable 0 0 [] None [] [])
    = (Thrown, []).
Proof.
  intros count_z count_x concat al m subresult kept.
  split.
  { unfold constructed. cbn [_groupByVariables _aliases _varColMap].
    split; [repeat constructor|]. split; [done|].
    split; [repeat constructor|]. split; done. }
  split; [apply GroupBy_new_constructed|].
  split; [|split]; by vm_compute.
Qed.
